(** * The geometry kernel of the maze simulator (sim/GeometryUtilities.cpp)

    A shallow embedding of the free functions of [namespace sim]:
    [crossProduct], [centroid], [linesIntersect], [getIntersectionPoint],
    [polygonArea], [getLineSegments] and [convexHull].

    The functions are written once, over an interface [Arith] that names
    the arithmetic the C++ text uses: the [double] held by the unit
    classes [Meters] and [MetersSquared] (their headers are not part of
    the sources at hand) and the [float] of the local variables, with the
    conversions between the two.

    - [IEEE754.arith] is the arithmetic of the program: [double] is
      IEEE 754 binary64 and [float] is binary32, with
      round-to-nearest-even, from the Standard Library's [SpecFloat].
      The statements about what the code computes are statements about
      this instance (or about every instance).
    - [RealArith] reads the same text over the real numbers, without
      rounding.  It is not the program: it is the geometry the results
      are compared with (areas, orientation, convex hulls of points of
      the plane), and the laws of that geometry are proved in [Exact].
      [Dyadic] and [Grid] prove when the program's results are those of
      the real numbers, and [Rounded] shows inputs where they are not. *)

From Stdlib Require Import Reals Lra Lia Psatz List Bool ZArith Arith.
From Stdlib Require Import Floats.SpecFloat.
From Stdlib Require Import Sorting.Sorted Sorting.Permutation.
From ITree Require ITree ITreeFacts Events.State Events.StateFacts Interp.Traces Axioms.
From Paco Require paco.
From Stdlib Require Strings.Ascii.
Import ListNotations.

Set Implicit Arguments.

(** ** The arithmetic interface *)

Record Arith : Type := MkArith {
  dbl : Type;                       (* double: the payload of Meters / MetersSquared *)
  flt : Type;                       (* float *)
  dlit : Z -> dbl;                  (* integer literals read as double: 0.0, 2.0, 6 *)
  dadd : dbl -> dbl -> dbl;
  dsub : dbl -> dbl -> dbl;
  dmul : dbl -> dbl -> dbl;
  ddiv : dbl -> dbl -> dbl;
  dabs : dbl -> dbl;                (* std::abs(double) *)
  dleb : dbl -> dbl -> bool;        (* <= *)
  dltb : dbl -> dbl -> bool;        (* <  *)
  deqb : dbl -> dbl -> bool;        (* == *)
  flit : Z -> flt;                  (* integer literals read as float *)
  fadd : flt -> flt -> flt;
  fsub : flt -> flt -> flt;
  fmul : flt -> flt -> flt;
  fdiv : flt -> flt -> flt;
  fsqrt : flt -> flt;               (* sqrt *)
  fabs : flt -> flt;                (* std::abs(float) *)
  fleb : flt -> flt -> bool;
  narrow : dbl -> flt;              (* double -> float conversion *)
  widen : flt -> dbl                (* float -> double conversion *)
}.

Declare Scope dbl_scope.
Declare Scope flt_scope.
Delimit Scope dbl_scope with dbl.
Delimit Scope flt_scope with flt.
Notation "x + y" := (dadd _ x y) : dbl_scope.
Notation "x - y" := (dsub _ x y) : dbl_scope.
Notation "x * y" := (dmul _ x y) : dbl_scope.
Notation "x / y" := (ddiv _ x y) : dbl_scope.
Notation "x <=? y" := (dleb _ x y) : dbl_scope.
Notation "x <? y" := (dltb _ x y) : dbl_scope.
Notation "x =? y" := (deqb _ x y) : dbl_scope.
Notation "x + y" := (fadd _ x y) : flt_scope.
Notation "x - y" := (fsub _ x y) : flt_scope.
Notation "x * y" := (fmul _ x y) : flt_scope.
Notation "x / y" := (fdiv _ x y) : flt_scope.
Notation "x <=? y" := (fleb _ x y) : flt_scope.

(** ** Data model *)

(** Modelled from the spec: the [ASSERT] macro of Assert.h, which is not
    among the sources.  A failed assertion ends the call with the
    precondition failure and no value; a passed one has no effect. *)
Inductive outcome (A : Type) : Type :=
| Returned (a : A)
| AssertionFailed.
Arguments AssertionFailed {A}.

Section Kernel.

Context {Ar : Arith}.

(** [Meters] and [MetersSquared] wrap one number each; the unit tag has no
    run-time content, so both are the number itself and [getMeters],
    [getMetersSquared] are the identity. *)
Definition Meters : Type := dbl Ar.
Definition MetersSquared : Type := dbl Ar.

Record Cartesian : Type := mkCartesian { getX : Meters; getY : Meters }.

Record Polygon : Type := mkPolygon { getVertices : list Cartesian }.

(** A segment is a [std::pair] of points. *)
Definition Segment : Type := (Cartesian * Cartesian)%type.

(** Modelled from the spec: [Cartesian::operator<], declared in a header
    that is not among the sources; "lexicographic on (x, y)". *)
Definition Cartesian_ltb (A B : Cartesian) : bool :=
  (getX A <? getX B)%dbl || ((getX A =? getX B)%dbl && (getY A <? getY B)%dbl).

(** The value a [std::vector<Cartesian>] of a given size starts with. *)
Definition Cartesian_default : Cartesian := mkCartesian (dlit Ar 0) (dlit Ar 0).

(** ** crossProduct *)

Definition crossProduct (Z A B : Cartesian) : MetersSquared :=
  ((getX A - getX Z) * (getY B - getY Z) - (getY A - getY Z) * (getX B - getX Z))%dbl.

(** ** polygonArea

    [area] is a [float] and the summands are [double]: each compound
    assignment computes in [double] and stores the result back as
    [float]. *)

Definition at_ (vertices : list Cartesian) (i : nat) : Cartesian :=
  nth i vertices Cartesian_default.

Definition polygonArea_step (vertices : list Cartesian) (area : flt Ar) (i : nat) : flt Ar :=
  let j := ((i + 1) mod length vertices)%nat in
  let area := narrow Ar (widen Ar area + getX (at_ vertices i) * getY (at_ vertices j))%dbl in
  let area := narrow Ar (widen Ar area - getY (at_ vertices i) * getX (at_ vertices j))%dbl in
  area.

Definition polygonArea (polygon : Polygon) : MetersSquared :=
  let area := flit Ar 0 in
  let vertices := getVertices polygon in
  let area := fold_left (polygonArea_step vertices) (seq 0 (length vertices)) area in
  let area := narrow Ar (widen Ar area / dlit Ar 2)%dbl in
  widen Ar (fabs Ar area).

(** ** centroid *)

Definition centroid_step (vertices : list Cartesian) (c : Meters * Meters) (i : nat)
  : Meters * Meters :=
  let '(cx, cy) := c in
  let j := ((i + 1) mod length vertices)%nat in
  let vi := at_ vertices i in
  let vj := at_ vertices j in
  let cx := (cx + (getX vi + getX vj) * (getX vi * getY vj - getX vj * getY vi))%dbl in
  let cy := (cy + (getY vi + getY vj) * (getX vi * getY vj - getX vj * getY vi))%dbl in
  (cx, cy).

Definition centroid (polygon : Polygon) : Cartesian :=
  let cx := dlit Ar 0 in
  let cy := dlit Ar 0 in
  let vertices := getVertices polygon in
  let '(cx, cy) := fold_left (centroid_step vertices) (seq 0 (length vertices)) (cx, cy) in
  let cx := dabs Ar cx in
  let cy := dabs Ar cy in
  let area := polygonArea polygon in
  mkCartesian (cx / (area * dlit Ar 6))%dbl (cy / (area * dlit Ar 6))%dbl.

(** ** linesIntersect *)

Definition linesIntersect (A B : Segment) : bool :=
  let c1 := narrow Ar (crossProduct (fst A) (fst B) (snd A)) in
  let c2 := narrow Ar (crossProduct (fst A) (snd B) (snd A)) in
  let c3 := narrow Ar (crossProduct (fst B) (fst A) (snd B)) in
  let c4 := narrow Ar (crossProduct (fst B) (snd A) (snd B)) in
  (c1 * c2 <=? flit Ar 0)%flt && (c3 * c4 <=? flit Ar 0)%flt.

(** ** getIntersectionPoint *)

Definition getIntersectionPoint (A B : Segment) : outcome Cartesian :=
  if negb (linesIntersect A B) then AssertionFailed else
  let a1x := narrow Ar (getX (fst A)) in
  let a1y := narrow Ar (getY (fst A)) in
  let a2x := narrow Ar (getX (snd A)) in
  let a2y := narrow Ar (getY (snd A)) in
  let b1x := narrow Ar (getX (fst B)) in
  let b1y := narrow Ar (getY (fst B)) in
  let b2x := narrow Ar (getX (snd B)) in
  let b2y := narrow Ar (getY (snd B)) in
  let a2x := (a2x - a1x)%flt in
  let a2y := (a2y - a1y)%flt in
  let b1x := (b1x - a1x)%flt in
  let b1y := (b1y - a1y)%flt in
  let b2x := (b2x - a1x)%flt in
  let b2y := (b2y - a1y)%flt in
  let distAB := fsqrt Ar (a2x * a2x + a2y * a2y)%flt in
  let theCos := (a2x / distAB)%flt in
  let theSin := (a2y / distAB)%flt in
  let newX := (b1x * theCos + b1y * theSin)%flt in
  let b1y := (b1y * theCos - b1x * theSin)%flt in
  let b1x := newX in
  let newX := (b2x * theCos + b2y * theSin)%flt in
  let b2y := (b2y * theCos - b2x * theSin)%flt in
  let b2x := newX in
  let ABpos := (b2x + (b1x - b2x) * b2y / (b2y - b1y))%flt in
  Returned (mkCartesian (widen Ar (a1x + ABpos * theCos)%flt)
                        (widen Ar (a1y + ABpos * theSin)%flt)).

(** ** getLineSegments

    [vertices.back()] has no defined result on an empty vector; the model
    gives [None] there. *)

Fixpoint segments_from (previousPoint : Cartesian) (vertices : list Cartesian)
  : list Segment :=
  match vertices with
  | [] => []
  | currentPoint :: rest => (previousPoint, currentPoint) :: segments_from currentPoint rest
  end.

Definition getLineSegments (polygon : Polygon) : option (list Segment) :=
  let vertices := getVertices polygon in
  match vertices with
  | [] => None
  | _ :: _ =>
      let previousPoint := last vertices Cartesian_default in
      Some (segments_from previousPoint vertices)
  end.

(** ** convexHull

    [hull] is a vector of [2*n] points written through the index [k];
    [hull[k++] = p] is [assign] followed by the increment, and the inner
    [while] is [popWhile], which only moves [k]. *)

(** [std::sort]: the arrangement of equivalent elements is left open by
    the library; over the real numbers equivalent points are equal, so
    the sorted arrangement is unique and an insertion sort gives it. *)
Fixpoint sort_insert (p : Cartesian) (l : list Cartesian) : list Cartesian :=
  match l with
  | [] => [p]
  | q :: rest => if Cartesian_ltb q p then q :: sort_insert p rest else p :: q :: rest
  end.

Definition sort (l : list Cartesian) : list Cartesian :=
  fold_right sort_insert [] l.

(** [hull[k] = p]; a write past the end has no defined behaviour in the
    source and leaves the list as it is here. *)
Fixpoint assign (hull : list Cartesian) (k : nat) (p : Cartesian) : list Cartesian :=
  match hull, k with
  | [], _ => []
  | _ :: rest, O => p :: rest
  | h :: rest, S k' => h :: assign rest k' p
  end.

(** [while (k >= lo && crossProduct(hull[k-2], hull[k-1], p) <= 0) k--;]
    with [lo = 2] in the first loop and [lo = t] in the second. *)
Fixpoint popWhile (lo : nat) (hull : list Cartesian) (p : Cartesian) (k : nat) : nat :=
  match k with
  | O => O
  | S k' =>
      if (lo <=? k)%nat
         && (crossProduct (at_ hull (k - 2)) (at_ hull (k - 1)) p <=? dlit Ar 0)%dbl
      then popWhile lo hull p k'
      else k
  end.

Definition hull_step (lo : nat) (st : list Cartesian * nat) (p : Cartesian)
  : list Cartesian * nat :=
  let '(hull, k) := st in
  let k := popWhile lo hull p k in
  (assign hull k p, S k).

(** The two loops and the final [resize], on the sorted points and the
    vector [hull] as it is when the first loop starts. *)
Definition hull_loops (n : nat) (points hull : list Cartesian) : Polygon :=
  let k := 0%nat in
  let '(hull, k) := fold_left (hull_step 2) points (hull, k) in
  let t := (k + 1)%nat in
  let '(hull, k) := fold_left (hull_step t) (rev (firstn (n - 1) points)) (hull, k) in
  mkPolygon (firstn k hull).

Definition convexHull (polygons : list Polygon) : Polygon :=
  let points := flat_map getVertices polygons in
  let n := length points in
  let hull := repeat Cartesian_default (2 * n) in
  let points := sort points in
  hull_loops n points hull.

(** The indices [k] at which a loop writes [hull[k]], in the order of the
    writes. *)
Fixpoint hull_writes (lo : nat) (points : list Cartesian) (st : list Cartesian * nat)
  : list nat :=
  match points with
  | [] => []
  | p :: rest => popWhile lo (fst st) p (snd st) :: hull_writes lo rest (hull_step lo st p)
  end.

(** ** Reading the vertices of a polygon from another one on, or backwards *)

Definition rotate (k : nat) (vs : list Cartesian) : list Cartesian :=
  skipn k vs ++ firstn k vs.

Definition rotated (k : nat) (P : Polygon) : Polygon := mkPolygon (rotate k (getVertices P)).

Definition reversed (P : Polygon) : Polygon := mkPolygon (rev (getVertices P)).

End Kernel.

Arguments Cartesian : clear implicits.
Arguments Polygon : clear implicits.
Arguments Segment : clear implicits.

(** ** The two instances *)

(** *** The real numbers

    The reference the machine results are compared with; no rounding,
    no overflow, and the conversions are the identity. *)

Definition Rleb (x y : R) : bool := if Rle_dec x y then true else false.
Definition Rltb (x y : R) : bool := if Rlt_dec x y then true else false.
Definition Reqb (x y : R) : bool := if Req_dec_T x y then true else false.

Definition RealArith : Arith :=
  {| dbl := R; flt := R;
     dlit := IZR; dadd := Rplus; dsub := Rminus; dmul := Rmult; ddiv := Rdiv;
     dabs := Rabs; dleb := Rleb; dltb := Rltb; deqb := Reqb;
     flit := IZR; fadd := Rplus; fsub := Rminus; fmul := Rmult; fdiv := Rdiv;
     fsqrt := sqrt; fabs := Rabs; fleb := Rleb;
     narrow := fun x => x; widen := fun x => x |}.

(** *** IEEE 754 arithmetic: the arithmetic of the program *)

Module IEEE754.

Definition prec32 : Z := 24.
Definition emax32 : Z := 128.
Definition prec64 : Z := 53.
Definition emax64 : Z := 1024.

(** Rounding of a floating-point datum to a format. *)
Definition round_to (prec emax : Z) (x : spec_float) : spec_float :=
  match x with
  | S754_finite s m e => binary_round prec emax s m e
  | _ => x
  end.

Definition of_Z (prec emax : Z) (z : Z) : spec_float :=
  binary_normalize prec emax z 0 false.

Definition arith : Arith :=
  {| dbl := spec_float; flt := spec_float;
     dlit := of_Z prec64 emax64;
     dadd := SFadd prec64 emax64; dsub := SFsub prec64 emax64;
     dmul := SFmul prec64 emax64; ddiv := SFdiv prec64 emax64;
     dabs := SFabs; dleb := SFleb; dltb := SFltb; deqb := SFeqb;
     flit := of_Z prec32 emax32;
     fadd := SFadd prec32 emax32; fsub := SFsub prec32 emax32;
     fmul := SFmul prec32 emax32; fdiv := SFdiv prec32 emax32;
     fsqrt := SFsqrt prec32 emax32; fabs := SFabs; fleb := SFleb;
     narrow := round_to prec32 emax32; widen := round_to prec64 emax64 |}.

(** A double given by an integer numerator and a power of two:
    [mk z e] is [z * 2^e]. *)
Definition mk (z : Z) (e : Z) : spec_float := binary_normalize prec64 emax64 z e false.

Definition pt (x y : Z) : Cartesian arith := mkCartesian (Ar:=arith) (mk x 0) (mk y 0).

End IEEE754.

(** * Properties that hold for every arithmetic *)

Section AnyArithmetic.

Context {Ar : Arith}.

Implicit Types (A B : Segment Ar) (P : Polygon Ar).

(** ** linesIntersect and getIntersectionPoint *)

Lemma getIntersectionPoint_failed (A B : Segment Ar) :
  getIntersectionPoint A B = AssertionFailed <-> linesIntersect A B = false.
Proof.
  unfold getIntersectionPoint.
  destruct (linesIntersect A B); simpl; split; intro H; try reflexivity; discriminate H.
Qed.

Lemma getIntersectionPoint_returned (A B : Segment Ar) :
  linesIntersect A B = true -> exists p, getIntersectionPoint A B = Returned p.
Proof.
  intro H. unfold getIntersectionPoint. rewrite H. simpl. eexists. reflexivity.
Qed.

(** ** getLineSegments *)

Lemma segments_from_length (vs : list (Cartesian Ar)) (p : Cartesian Ar) :
  length (segments_from p vs) = length vs.
Proof.
  revert p. induction vs as [|v vs IH]; intro p; simpl.
  - reflexivity.
  - now rewrite IH.
Qed.

Lemma segments_from_nth (vs : list (Cartesian Ar)) (p : Cartesian Ar) (i : nat) (d : Segment Ar) :
  (i < length vs)%nat ->
  nth i (segments_from p vs) d = (at_ (p :: vs) i, at_ vs i).
Proof.
  revert p i. induction vs as [|v vs IH]; intros p i Hi; simpl in Hi.
  - lia.
  - destruct i as [|i].
    + reflexivity.
    + simpl. rewrite IH by lia. reflexivity.
Qed.

Lemma last_at (vs : list (Cartesian Ar)) :
  last vs Cartesian_default = at_ vs (length vs - 1).
Proof.
  unfold at_. induction vs as [|v vs IH].
  - reflexivity.
  - destruct vs as [|w vs].
    + reflexivity.
    + change (last (v :: w :: vs) Cartesian_default) with (last (w :: vs) Cartesian_default).
      rewrite IH. simpl. now rewrite Nat.sub_0_r.
Qed.

Lemma getLineSegments_nonempty (P : Polygon Ar) :
  (1 <= length (getVertices P))%nat ->
  exists segments,
    getLineSegments P = Some segments
    /\ length segments = length (getVertices P)
    /\ forall (i : nat) (d : Segment Ar), (i < length (getVertices P))%nat ->
         nth i segments d
         = (at_ (getVertices P) ((i + length (getVertices P) - 1) mod length (getVertices P)),
            at_ (getVertices P) i).
Proof.
  destruct P as [vs]. simpl. intro Hn.
  destruct vs as [|v vs]; [simpl in Hn; lia|].
  unfold getLineSegments. cbn [getVertices].
  eexists. split; [reflexivity|]. split.
  - apply segments_from_length.
  - intros i d Hi. rewrite segments_from_nth by exact Hi.
    f_equal. rewrite last_at.
    set (n := length (v :: vs)) in *.
    destruct i as [|i].
    + cbn [at_ nth]. unfold at_. simpl Nat.add. rewrite Nat.mod_small by lia. reflexivity.
    + replace (S i + n - 1)%nat with (i + 1 * n)%nat by lia.
      rewrite Nat.Div0.mod_add. rewrite Nat.mod_small by lia. reflexivity.
Qed.

(** The order of the segments as the claim words it, and as the loop
    produces it. *)
Definition claimed_order (P : Polygon Ar) (segments : list (Segment Ar)) : Prop :=
  let vs := getVertices P in
  length segments = length vs
  /\ forall (i : nat) (d : Segment Ar), (i < length vs)%nat ->
       nth i segments d = (at_ vs i, at_ vs ((i + 1) mod length vs)).

Definition loop_order (P : Polygon Ar) (segments : list (Segment Ar)) : Prop :=
  let vs := getVertices P in
  length segments = length vs
  /\ forall (i : nat) (d : Segment Ar), (i < length vs)%nat ->
       nth i segments d = (at_ vs ((i + length vs - 1) mod length vs), at_ vs i).

(** C2, as amended: for every polygon with n >= 3 vertices,
    getLineSegments returns exactly n segments, in an order that follows
    the vertex order: segment i connects vertex (i - 1) mod n to vertex i.
    So the first segment connects vertex n-1 back to vertex 0, and the
    last one connects vertex n-2 to vertex n-1. *)
Theorem getLineSegments_order (P : Polygon Ar) :
  (3 <= length (getVertices P))%nat ->
  exists segments : list (Segment Ar),
    getLineSegments P = Some segments
    /\ loop_order P segments
    /\ (forall d, nth 0 segments d
                  = (at_ (getVertices P) (length (getVertices P) - 1), at_ (getVertices P) 0))
    /\ (forall d, nth (length (getVertices P) - 1) segments d
                  = (at_ (getVertices P) (length (getVertices P) - 2),
                     at_ (getVertices P) (length (getVertices P) - 1))).
Proof.
  intro Hn.
  destruct (getLineSegments_nonempty P) as (segments & E & Hlen & Hnth); [lia|].
  exists segments. split; [exact E|]. split; [split; [exact Hlen | exact Hnth]|].
  set (n := length (getVertices P)) in *.
  split; intro d.
  - rewrite Hnth by lia. f_equal. f_equal.
    replace (0 + n - 1)%nat with (n - 1)%nat by lia. apply Nat.mod_small. lia.
  - rewrite Hnth by lia. f_equal. f_equal.
    replace (n - 1 + n - 1)%nat with (n - 2 + 1 * n)%nat by lia.
    rewrite Nat.Div0.mod_add. apply Nat.mod_small. lia.
Qed.

(** C3: getIntersectionPoint ends in the precondition failure, with no
    point, exactly when linesIntersect is false; when linesIntersect is
    true it does not fail and returns a point. *)
Theorem getIntersectionPoint_precondition (A B : Segment Ar) :
  (getIntersectionPoint A B = AssertionFailed <-> linesIntersect A B = false)
  /\ (linesIntersect A B = true -> exists p, getIntersectionPoint A B = Returned p).
Proof.
  split.
  - apply getIntersectionPoint_failed.
  - apply getIntersectionPoint_returned.
Qed.

(** C10: linesIntersect is symmetric in its two segments. *)
Theorem linesIntersect_symmetric (A B : Segment Ar) :
  linesIntersect A B = linesIntersect B A.
Proof.
  unfold linesIntersect. apply andb_comm.
Qed.

End AnyArithmetic.

(** * convexHull as two monotone chains

    The prefix [hull[0..k)] is a stack.  Written with the top first, the
    inner [while] pops it ([popS]) and [hull[k++] = p] pushes onto it
    ([pushS]).  The first loop builds the chain of the sorted points on an
    empty stack; the second loop, whose bound [t] protects what the first
    loop left, builds the chain of the points in reverse order on top of
    it.  This holds for every arithmetic. *)

Section HullStack.

Context {Ar : Arith}.

Implicit Types (p q : Cartesian Ar) (st hull : list (Cartesian Ar)).

Fixpoint popS (lo : nat) st p : list (Cartesian Ar) :=
  match st with
  | [] => []
  | b :: st' =>
      if (lo <=? length st)%nat
         && (crossProduct (nth 0 st' Cartesian_default) b p <=? dlit Ar 0)%dbl
      then popS lo st' p
      else st
  end.

Definition pushS (lo : nat) st p : list (Cartesian Ar) := p :: popS lo st p.

Definition chain (points : list (Cartesian Ar)) : list (Cartesian Ar) :=
  fold_left (pushS 2) points [].

Lemma assign_length hull k p : length (assign hull k p) = length hull.
Proof.
  revert k. induction hull as [|h hull IH]; intros [|k]; simpl; try reflexivity.
  now rewrite IH.
Qed.

Lemma assign_firstn hull k p :
  (k < length hull)%nat -> firstn (S k) (assign hull k p) = firstn k hull ++ [p].
Proof.
  revert k. induction hull as [|h hull IH]; intros k Hk; simpl in Hk; [lia|].
  destruct k as [|k].
  - reflexivity.
  - cbn [assign]. rewrite !firstn_cons. rewrite IH by lia. reflexivity.
Qed.

Lemma at_firstn hull (i k : nat) :
  (i < k)%nat -> at_ hull i = nth i (firstn k hull) Cartesian_default.
Proof.
  unfold at_. revert i k. induction hull as [|h hull IH]; intros i k Hik.
  - rewrite firstn_nil. reflexivity.
  - destruct k as [|k]; [lia|]. destruct i as [|i]; simpl.
    + reflexivity.
    + apply IH. lia.
Qed.

Lemma popS_suffix (lo : nat) st p : exists dropped, st = dropped ++ popS lo st p.
Proof.
  induction st as [|b st IH].
  - exists []. reflexivity.
  - cbn [popS].
    destruct ((lo <=? length (b :: st))%nat
              && (crossProduct (nth 0 st Cartesian_default) b p <=? dlit Ar 0)%dbl).
    + destruct IH as [d Hd]. exists (b :: d). simpl. now rewrite <- Hd.
    + exists []. reflexivity.
Qed.

Lemma popS_length (lo : nat) st p : (length (popS lo st p) <= length st)%nat.
Proof.
  destruct (popS_suffix lo st p) as [d Hd].
  rewrite Hd at 2. rewrite length_app. lia.
Qed.

Lemma firstn_rev_cons st hull b :
  firstn (length (b :: st)) hull = rev (b :: st) ->
  firstn (length st) hull = rev st.
Proof.
  intro H.
  assert (E : firstn (length st) (firstn (length (b :: st)) hull) = firstn (length st) hull).
  { rewrite firstn_firstn. f_equal. simpl. lia. }
  rewrite <- E, H. simpl rev.
  rewrite firstn_app, length_rev, Nat.sub_diag. simpl.
  rewrite app_nil_r. rewrite <- (length_rev st). apply firstn_all.
Qed.

Lemma popWhile_popS (lo : nat) st hull p :
  (2 <= lo)%nat ->
  firstn (length st) hull = rev st ->
  popWhile lo hull p (length st) = length (popS lo st p).
Proof.
  intros Hlo. induction st as [|b st IH]; intro Hpre.
  - reflexivity.
  - cbn [length popWhile popS].
    destruct (lo <=? S (length st))%nat eqn:Hk; cbn [andb]; [|reflexivity].
    apply Nat.leb_le in Hk.
    assert (Hb : at_ hull (S (length st) - 1) = b).
    { rewrite (at_firstn hull (k := length (b :: st))) by (simpl; lia).
      rewrite Hpre. simpl rev.
      rewrite app_nth2 by (rewrite length_rev; lia).
      rewrite length_rev. replace (S (length st) - 1 - length st)%nat with 0%nat by lia.
      reflexivity. }
    assert (Ha : at_ hull (S (length st) - 2) = nth 0 st Cartesian_default).
    { rewrite (at_firstn hull (k := length (b :: st))) by (simpl; lia).
      rewrite Hpre. simpl rev.
      rewrite app_nth1 by (rewrite length_rev; lia).
      rewrite rev_nth by lia. f_equal. lia. }
    rewrite Ha, Hb.
    destruct (crossProduct (nth 0 st Cartesian_default) b p <=? dlit Ar 0)%dbl.
    + apply IH. eapply firstn_rev_cons. exact Hpre.
    + reflexivity.
Qed.

Lemma firstn_popS (lo : nat) st hull p :
  firstn (length st) hull = rev st ->
  firstn (length (popS lo st p)) hull = rev (popS lo st p).
Proof.
  induction st as [|b st IH]; intro Hpre.
  - exact Hpre.
  - cbn [popS].
    destruct ((lo <=? length (b :: st))%nat
              && (crossProduct (nth 0 st Cartesian_default) b p <=? dlit Ar 0)%dbl).
    + apply IH. eapply firstn_rev_cons. exact Hpre.
    + exact Hpre.
Qed.

Lemma hull_step_pushS (lo : nat) st hull p :
  (2 <= lo)%nat ->
  firstn (length st) hull = rev st ->
  (length st < length hull)%nat ->
  exists hull',
    hull_step lo (hull, length st) p = (hull', length (pushS lo st p))
    /\ firstn (length (pushS lo st p)) hull' = rev (pushS lo st p)
    /\ length hull' = length hull.
Proof.
  intros Hlo Hpre Hcap.
  unfold hull_step. rewrite (popWhile_popS st hull p Hlo Hpre).
  eexists. split; [reflexivity|]. split.
  - unfold pushS. cbn [length rev].
    rewrite assign_firstn by (pose proof (popS_length lo st p); lia).
    rewrite (firstn_popS lo st hull p Hpre). reflexivity.
  - apply assign_length.
Qed.

Lemma fold_pushS_length (lo : nat) (points : list (Cartesian Ar)) st :
  (length (fold_left (pushS lo) points st) <= length st + length points)%nat.
Proof.
  revert st. induction points as [|p points IH]; intro st; cbn [fold_left length].
  - lia.
  - specialize (IH (pushS lo st p)).
    assert (H : (length (pushS lo st p) <= S (length st))%nat).
    { unfold pushS. cbn [length]. pose proof (popS_length lo st p). lia. }
    lia.
Qed.

Lemma fold_hull_step (lo : nat) (points : list (Cartesian Ar)) st hull :
  (2 <= lo)%nat ->
  firstn (length st) hull = rev st ->
  (length st + length points <= length hull)%nat ->
  exists hull',
    fold_left (hull_step lo) points (hull, length st)
    = (hull', length (fold_left (pushS lo) points st))
    /\ firstn (length (fold_left (pushS lo) points st)) hull'
       = rev (fold_left (pushS lo) points st)
    /\ length hull' = length hull.
Proof.
  intro Hlo. revert st hull.
  induction points as [|p points IH]; intros st hull Hpre Hcap; cbn [fold_left length] in *.
  - exists hull. auto.
  - destruct (hull_step_pushS (lo := lo) st hull p Hlo Hpre) as (h1 & E1 & P1 & L1); [lia|].
    rewrite E1.
    destruct (IH (pushS lo st p) h1 P1) as (h2 & E2 & P2 & L2).
    + rewrite L1. unfold pushS. cbn [length].
      pose proof (popS_length lo st p). lia.
    + exists h2. rewrite E2, L2, L1. auto.
Qed.

(** The second loop: with [t] one more than the height of the stack the
    first loop left, the stack below is never looked into beyond its top
    [m], which serves as the bottom of the second chain. *)
Lemma popS_protected (m : Cartesian Ar) (below upper : list (Cartesian Ar)) p :
  exists upper',
    popS 2 (upper ++ [m]) p = upper' ++ [m]
    /\ popS (S (length (m :: below))) (upper ++ m :: below) p = upper' ++ m :: below.
Proof.
  induction upper as [|b upper IH].
  - exists []. cbn [app popS length].
    replace (S (S (length below)) <=? S (length below))%nat with false
      by (symmetry; apply Nat.leb_gt; lia).
    cbn [Nat.leb andb]. auto.
  - cbn [app popS].
    replace (2 <=? length (b :: upper ++ [m]))%nat with true
      by (symmetry; apply Nat.leb_le; cbn [length]; rewrite length_app; simpl; lia).
    replace (S (length (m :: below)) <=? length (b :: upper ++ m :: below))%nat with true
      by (symmetry; apply Nat.leb_le; cbn [length]; rewrite length_app; simpl; lia).
    replace (nth 0 (upper ++ m :: below) Cartesian_default)
      with (nth 0 (upper ++ [m]) Cartesian_default) by (destruct upper; reflexivity).
    cbn [andb].
    destruct (crossProduct (nth 0 (upper ++ [m]) Cartesian_default) b p <=? dlit Ar 0)%dbl.
    + exact IH.
    + exists (b :: upper). auto.
Qed.

Lemma fold_pushS_protected (m : Cartesian Ar) (below : list (Cartesian Ar))
      (points upper : list (Cartesian Ar)) :
  exists upper',
    fold_left (pushS 2) points (upper ++ [m]) = upper' ++ [m]
    /\ fold_left (pushS (S (length (m :: below)))) points (upper ++ m :: below)
       = upper' ++ m :: below.
Proof.
  revert upper. induction points as [|p points IH]; intro upper; cbn [fold_left].
  - exists upper. auto.
  - unfold pushS at 2 4.
    destruct (popS_protected m below upper p) as (u1 & E1 & E2).
    rewrite E1, E2.
    change (p :: u1 ++ [m]) with ((p :: u1) ++ [m]).
    change (p :: u1 ++ m :: below) with ((p :: u1) ++ m :: below).
    apply IH.
Qed.

Lemma sort_insert_length p (l : list (Cartesian Ar)) :
  length (sort_insert p l) = S (length l).
Proof.
  induction l as [|q l IH]; simpl.
  - reflexivity.
  - destruct (Cartesian_ltb q p); simpl; [now rewrite IH | reflexivity].
Qed.

Lemma sort_length (l : list (Cartesian Ar)) : length (sort l) = length l.
Proof.
  induction l as [|p l IH]; simpl.
  - reflexivity.
  - rewrite sort_insert_length. now rewrite IH.
Qed.

Lemma last_or_nil (A : Type) (l : list A) : l = [] \/ exists init m, l = init ++ [m].
Proof.
  induction l as [|x l _] using rev_ind.
  - now left.
  - right. now exists l, x.
Qed.

Lemma chain_snoc (points : list (Cartesian Ar)) p :
  chain (points ++ [p]) = pushS 2 (chain points) p.
Proof. unfold chain. rewrite fold_left_app. reflexivity. Qed.

Lemma fold_hull_writes (lo : nat) (points : list (Cartesian Ar)) st hull :
  (2 <= lo)%nat ->
  firstn (length st) hull = rev st ->
  (length st + length points <= length hull)%nat ->
  Forall (fun k => (k < length hull)%nat) (hull_writes lo points (hull, length st)).
Proof.
  intro Hlo. revert st hull.
  induction points as [|p points IH]; intros st hull Hpre Hcap; cbn [hull_writes length] in *.
  - constructor.
  - destruct (hull_step_pushS (lo := lo) st hull p Hlo Hpre) as (h1 & E1 & P1 & L1); [lia|].
    constructor.
    + cbn [fst snd]. rewrite (popWhile_popS st hull p Hlo Hpre).
      pose proof (popS_length lo st p). lia.
    + rewrite E1. rewrite <- L1. apply IH; [exact P1|].
      rewrite L1. unfold pushS. cbn [length].
      pose proof (popS_length lo st p). lia.
Qed.

(** The vertex list the loops leave: the chain of the sorted points from
    bottom to top, followed by the chain of the points in reverse order,
    from bottom to top and without its bottom.  What [hull] holds when
    the first loop starts plays no part, and no write leaves the vector. *)
Theorem hull_loops_chains (sorted hull0 : list (Cartesian Ar)) :
  length hull0 = (2 * length sorted)%nat ->
  getVertices (hull_loops (length sorted) sorted hull0)
  = rev (chain sorted) ++ tl (rev (chain (rev sorted))).
Proof.
  intro H0. unfold hull_loops.
  destruct (fold_hull_step (lo := 2) sorted [] hull0) as (h1 & E1 & P1 & L1);
    [lia | reflexivity | simpl; lia |].
  change (length []) with 0%nat in E1. rewrite E1.
  fold (chain sorted) in *.
  destruct (last_or_nil sorted) as [Hnil | (init & m & Hsorted)].
  - rewrite Hnil in *. reflexivity.
  - assert (Hlen : length sorted = S (length init))
      by (rewrite Hsorted, length_app; simpl; lia).
    assert (Hinit : firstn (length sorted - 1) sorted = init).
    { rewrite Hlen. rewrite Hsorted.
      replace (S (length init) - 1)%nat with (length init + 0)%nat by lia.
      rewrite firstn_app_2. simpl. apply app_nil_r. }
    rewrite Hinit.
    assert (Htop : chain sorted = m :: popS 2 (chain init) m)
      by (rewrite Hsorted; apply chain_snoc).
    set (below := popS 2 (chain init) m) in *.
    assert (Hrev : rev sorted = m :: rev init)
      by (rewrite Hsorted, rev_app_distr; reflexivity).
    rewrite Htop in *.
    replace (length (m :: below) + 1)%nat with (S (length (m :: below))) by lia.
    destruct (fold_hull_step (lo := S (length (m :: below))) (rev init) (m :: below) h1)
      as (h2 & E2 & P2 & L2).
    + simpl. lia.
    + exact P1.
    + rewrite L1, H0, length_rev.
      pose proof (fold_pushS_length 2 sorted []) as Hb.
      fold (chain sorted) in Hb. rewrite Htop in Hb. simpl in Hb. simpl. lia.
    + rewrite E2. cbn [getVertices]. rewrite P2.
      destruct (fold_pushS_protected m below (rev init) []) as (u & U1 & U2).
      cbn [app] in U1, U2. rewrite U2.
      rewrite Hrev. unfold chain. cbn [fold_left].
      change (pushS 2 [] m) with [m]. rewrite U1.
      rewrite !rev_app_distr. reflexivity.
Qed.

Theorem convexHull_chains (polygons : list (Polygon Ar)) :
  getVertices (convexHull polygons)
  = rev (chain (sort (flat_map getVertices polygons)))
    ++ tl (rev (chain (rev (sort (flat_map getVertices polygons))))).
Proof.
  unfold convexHull.
  rewrite <- (sort_length (flat_map getVertices polygons)).
  apply hull_loops_chains.
  rewrite repeat_length. reflexivity.
Qed.

(** Every write [hull[k++] = p] of the two loops is inside the vector. *)
Theorem hull_loops_writes (sorted hull0 : list (Cartesian Ar)) :
  length hull0 = (2 * length sorted)%nat ->
  let first := fold_left (hull_step 2) sorted (hull0, 0%nat) in
  Forall (fun k => (k < length hull0)%nat) (hull_writes 2 sorted (hull0, 0%nat))
  /\ Forall (fun k => (k < length hull0)%nat)
            (hull_writes (snd first + 1) (rev (firstn (length sorted - 1) sorted)) first).
Proof.
  intros H0 first. split.
  - apply (fold_hull_writes (lo := 2) sorted [] hull0); [lia | reflexivity | simpl; lia].
  - unfold first.
    destruct (fold_hull_step (lo := 2) sorted [] hull0) as (h1 & E1 & P1 & L1);
      [lia | reflexivity | simpl; lia |].
    change (length []) with 0%nat in E1. rewrite E1. cbn [snd].
    rewrite <- L1.
    destruct (last_or_nil sorted) as [Hnil | (init & m & Hsorted)].
    { rewrite Hnil. constructor. }
    apply (fold_hull_writes (lo := length (fold_left (pushS 2) sorted []) + 1)
             (rev (firstn (length sorted - 1) sorted)) (fold_left (pushS 2) sorted []) h1).
    + rewrite Hsorted, fold_left_app. cbn [fold_left]. unfold pushS at 1. cbn [length]. lia.
    + exact P1.
    + rewrite L1, H0, length_rev, length_firstn.
      pose proof (fold_pushS_length 2 sorted []) as Hb. simpl in Hb.
      rewrite Hsorted in *. rewrite length_app in *. simpl in *. lia.
Qed.

End HullStack.

(** * The geometry of the plane

    The kernel read over the real numbers, and the notions the
    statements about the program are worded with: points of a segment,
    the shoelace sum, the centroid formula, the convex hull of a set of
    points.  What is proved here is geometry; how the program relates to
    it is the matter of [Machine], [Dyadic], [Grid] and [Rounded]. *)

Module Exact.

Local Open Scope R_scope.

Abbreviation point := (Cartesian RealArith).
Abbreviation segment := (Segment RealArith).
Abbreviation polygon := (Polygon RealArith).

Definition pt (x y : R) : point := mkCartesian (Ar:=RealArith) x y.

Lemma Rleb_true (x y : R) : Rleb x y = true <-> x <= y.
Proof. unfold Rleb. destruct (Rle_dec x y); split; intro; try discriminate; tauto. Qed.

Lemma Rleb_false (x y : R) : Rleb x y = false <-> y < x.
Proof. unfold Rleb. destruct (Rle_dec x y); split; intro; try discriminate; try lra; reflexivity. Qed.

Lemma Rltb_true (x y : R) : Rltb x y = true <-> x < y.
Proof. unfold Rltb. destruct (Rlt_dec x y); split; intro; try discriminate; tauto. Qed.

Lemma Rltb_false (x y : R) : Rltb x y = false <-> y <= x.
Proof. unfold Rltb. destruct (Rlt_dec x y); split; intro; try discriminate; try lra; reflexivity. Qed.

Lemma Reqb_true (x y : R) : Reqb x y = true <-> x = y.
Proof. unfold Reqb. destruct (Req_dec_T x y); split; intro; try discriminate; tauto. Qed.

Lemma point_eq (p q : point) : getX p = getX q -> getY p = getY q -> p = q.
Proof. destruct p, q; simpl; intros; subst; reflexivity. Qed.

Lemma point_eq_dec (p q : point) : p = q \/ p <> q.
Proof.
  destruct (Req_dec_T (getX p) (getX q)) as [Hx | Hx].
  - destruct (Req_dec_T (getY p) (getY q)) as [Hy | Hy].
    + left. now apply point_eq.
    + right. intros ->. now apply Hy.
  - right. intros ->. now apply Hx.
Qed.

(** ** crossProduct *)

Lemma crossProduct_eq (Z A B : point) :
  (crossProduct Z A B : R)
  = (getX A - getX Z) * (getY B - getY Z) - (getY A - getY Z) * (getX B - getX Z).
Proof. reflexivity. Qed.




(** ** linesIntersect *)

(** A point of a segment, and two segments having a point in common. *)
Definition on_segment (p : point) (A : segment) : Prop :=
  exists t : R,
    0 <= t <= 1
    /\ (getX p : R) = getX (fst A) + t * (getX (snd A) - getX (fst A))
    /\ (getY p : R) = getY (fst A) + t * (getY (snd A) - getY (fst A)).

Definition segments_meet (A B : segment) : Prop :=
  exists p : point, on_segment p A /\ on_segment p B.

(** The direction vectors of two segments are parallel. *)
Definition parallel (A B : segment) : Prop :=
  (getX (snd A) - getX (fst A)) * (getY (snd B) - getY (fst B))
  - (getY (snd A) - getY (fst A)) * (getX (snd B) - getX (fst B)) = 0.

Lemma linesIntersect_true (A B : segment) :
  linesIntersect A B = true
  <-> crossProduct (fst A) (fst B) (snd A) * crossProduct (fst A) (snd B) (snd A) <= 0
      /\ crossProduct (fst B) (fst A) (snd B) * crossProduct (fst B) (snd A) (snd B) <= 0.
Proof.
  unfold linesIntersect. cbn [narrow fmul fleb flit RealArith].
  rewrite andb_true_iff, !Rleb_true. reflexivity.
Qed.

Lemma segments_meet_linesIntersect (A B : segment) :
  segments_meet A B -> linesIntersect A B = true.
Proof.
  intros (p & (s & Hs & Hsx & Hsy) & (t & Ht & Htx & Hty)).
  apply linesIntersect_true. rewrite !crossProduct_eq.
  destruct A as [[a1x a1y] [a2x a2y]], B as [[b1x b1y] [b2x b2y]], p as [px py].
  cbn [fst snd getX getY] in *.
  split.
  - (* the endpoints of B, seen from the line of A *)
    set (c1 := (b1x - a1x) * (a2y - a1y) - (b1y - a1y) * (a2x - a1x)).
    set (c2 := (b2x - a1x) * (a2y - a1y) - (b2y - a1y) * (a2x - a1x)).
    assert (H : (1 - t) * c1 + t * c2 = 0).
    { unfold c1, c2.
      replace ((1 - t) * ((b1x - a1x) * (a2y - a1y) - (b1y - a1y) * (a2x - a1x))
               + t * ((b2x - a1x) * (a2y - a1y) - (b2y - a1y) * (a2x - a1x)))
        with (((b1x + t * (b2x - b1x)) - a1x) * (a2y - a1y)
              - ((b1y + t * (b2y - b1y)) - a1y) * (a2x - a1x)) by ring.
      rewrite <- Htx, <- Hty, Hsx, Hsy. ring. }
    destruct (Req_dec_T t 0) as [Ht0 | Ht0].
    + subst t. assert (c1 = 0) by lra. replace c1 with 0 by lra. lra.
    + assert (Hc2 : c2 = - ((1 - t) / t) * c1) by (field_simplify_eq; [lra | exact Ht0]).
      rewrite Hc2.
      assert (0 <= (1 - t) / t) by (apply Rle_mult_inv_pos; lra).
      nra.
  - set (c3 := (a1x - b1x) * (b2y - b1y) - (a1y - b1y) * (b2x - b1x)).
    set (c4 := (a2x - b1x) * (b2y - b1y) - (a2y - b1y) * (b2x - b1x)).
    assert (H : (1 - s) * c3 + s * c4 = 0).
    { unfold c3, c4.
      replace ((1 - s) * ((a1x - b1x) * (b2y - b1y) - (a1y - b1y) * (b2x - b1x))
               + s * ((a2x - b1x) * (b2y - b1y) - (a2y - b1y) * (b2x - b1x)))
        with (((a1x + s * (a2x - a1x)) - b1x) * (b2y - b1y)
              - ((a1y + s * (a2y - a1y)) - b1y) * (b2x - b1x)) by ring.
      rewrite <- Hsx, <- Hsy, Htx, Hty. ring. }
    destruct (Req_dec_T s 0) as [Hs0 | Hs0].
    + subst s. assert (c3 = 0) by lra. replace c3 with 0 by lra. lra.
    + assert (Hc4 : c4 = - ((1 - s) / s) * c3) by (field_simplify_eq; [lra | exact Hs0]).
      rewrite Hc4.
      assert (0 <= (1 - s) / s) by (apply Rle_mult_inv_pos; lra).
      nra.
Qed.

Lemma unit_interval (t : R) : 0 <= t * (1 - t) -> 0 <= t <= 1.
Proof. intro H. nra. Qed.

Lemma linesIntersect_segments_meet (A B : segment) :
  ~ parallel A B -> linesIntersect A B = true -> segments_meet A B.
Proof.
  unfold parallel. intros HD H. apply linesIntersect_true in H.
  rewrite !crossProduct_eq in H.
  destruct A as [[a1x a1y] [a2x a2y]], B as [[b1x b1y] [b2x b2y]].
  cbn [fst snd getX getY] in *.
  set (D := (a2x - a1x) * (b2y - b1y) - (a2y - a1y) * (b2x - b1x)) in *.
  set (c1 := (b1x - a1x) * (a2y - a1y) - (b1y - a1y) * (a2x - a1x)) in *.
  set (c2 := (b2x - a1x) * (a2y - a1y) - (b2y - a1y) * (a2x - a1x)) in *.
  set (c3 := (a1x - b1x) * (b2y - b1y) - (a1y - b1y) * (b2x - b1x)) in *.
  set (c4 := (a2x - b1x) * (b2y - b1y) - (a2y - b1y) * (b2x - b1x)) in *.
  destruct H as [H12 H34].
  assert (E12 : c1 - c2 = D) by (unfold c1, c2, D; ring).
  assert (E34 : c3 - c4 = - D) by (unfold c3, c4, D; ring).
  assert (HD2 : 0 < D * D) by nra.
  assert (Ht : 0 <= c1 / D <= 1).
  { apply unit_interval.
    replace (c1 / D * (1 - c1 / D)) with ((- (c1 * c2)) / (D * D))
      by (field_simplify_eq; [nra | exact HD]).
    apply Rle_mult_inv_pos; lra. }
  assert (Hs : 0 <= - c3 / D <= 1).
  { apply unit_interval.
    replace (- c3 / D * (1 - - c3 / D)) with ((- (c3 * c4)) / (D * D))
      by (field_simplify_eq; [nra | exact HD]).
    apply Rle_mult_inv_pos; lra. }
  exists (pt (b1x + c1 / D * (b2x - b1x)) (b1y + c1 / D * (b2y - b1y))).
  split.
  - exists (- c3 / D). cbn [fst snd getX getY pt]. split; [exact Hs|].
    unfold c1, c3, D in *. split; field; exact HD.
  - exists (c1 / D). cbn [fst snd getX getY pt]. split; [exact Ht|].
    split; reflexivity.
Qed.

(** For parallel segments the test only asks whether the four points lie
    on one line; where on that line the segments lie plays no part. *)
Lemma linesIntersect_parallel (A B : segment) :
  parallel A B ->
  (linesIntersect A B = true
   <-> (crossProduct (fst A) (fst B) (snd A) : R) = 0
       /\ (crossProduct (fst B) (fst A) (snd B) : R) = 0).
Proof.
  unfold parallel. intro HD. rewrite linesIntersect_true, !crossProduct_eq.
  destruct A as [[a1x a1y] [a2x a2y]], B as [[b1x b1y] [b2x b2y]].
  cbn [fst snd getX getY] in *.
  set (c1 := (b1x - a1x) * (a2y - a1y) - (b1y - a1y) * (a2x - a1x)).
  set (c2 := (b2x - a1x) * (a2y - a1y) - (b2y - a1y) * (a2x - a1x)).
  set (c3 := (a1x - b1x) * (b2y - b1y) - (a1y - b1y) * (b2x - b1x)).
  set (c4 := (a2x - b1x) * (b2y - b1y) - (a2y - b1y) * (b2x - b1x)).
  assert (E12 : c2 = c1) by (unfold c1, c2; lra).
  assert (E34 : c4 = c3) by (unfold c3, c4; lra).
  rewrite E12, E34. split.
  - intros [H1 H3]. split; nra.
  - intros [H1 H3]. rewrite H1, H3. lra.
Qed.

(** ** Sums along the boundary of a polygon *)

(** The boundary of a polygon: its vertices, then the first one again. *)
Definition closed (vs : list point) : list point :=
  match vs with
  | [] => []
  | v :: _ => vs ++ [v]
  end.

Lemma closed_cons (v : point) (l : list point) : closed (v :: l) = v :: l ++ [v].
Proof. reflexivity. Qed.

Lemma closed_length (vs : list point) : (length (closed vs) - 1 = length vs)%nat.
Proof. destruct vs; [reflexivity|]. rewrite closed_cons. simpl. rewrite length_app. simpl. lia. Qed.

Lemma fold_left_map_seq (A B C : Type) (f : A -> B -> A) (g : C -> B) (l : list C) (a : A) :
  fold_left f (map g l) a = fold_left (fun acc x => f acc (g x)) l a.
Proof.
  revert a. induction l as [|x l IH]; intro a; simpl.
  - reflexivity.
  - apply IH.
Qed.

(** The index [(i + 1) % n] of the loops is the next position on the
    closed boundary. *)
Lemma next_vertex (vs : list point) (i : nat) :
  (i < length vs)%nat ->
  at_ vs i = nth i (closed vs) Cartesian_default
  /\ at_ vs ((i + 1) mod length vs) = nth (S i) (closed vs) Cartesian_default.
Proof.
  intro Hi. unfold at_.
  destruct vs as [|v vs]; [simpl in Hi; lia|].
  rewrite closed_cons. change (v :: vs ++ [v]) with ((v :: vs) ++ [v]).
  split.
  - rewrite app_nth1 by exact Hi. reflexivity.
  - destruct (Nat.eq_dec (S i) (length (v :: vs))) as [E | E].
    + replace (i + 1)%nat with (length (v :: vs)) by lia.
      rewrite Nat.Div0.mod_same. rewrite E.
      rewrite app_nth2 by lia. rewrite Nat.sub_diag. reflexivity.
    + rewrite Nat.mod_small by lia. rewrite app_nth1 by lia.
      f_equal. lia.
Qed.

Section PathSum.

Variable term : point -> point -> R.

(** The sum of [term] over the consecutive pairs of a path. *)
Fixpoint path_sum (path : list point) : R :=
  match path with
  | [] => 0
  | p :: rest =>
      match rest with
      | [] => 0
      | q :: _ => term p q + path_sum rest
      end
  end.

Definition boundary_sum (vs : list point) : R := path_sum (closed vs).

Lemma path_sum_cons2 (p q : point) (l : list point) :
  path_sum (p :: q :: l) = term p q + path_sum (q :: l).
Proof. reflexivity. Qed.

Lemma path_sum_join (u v : list point) (x : point) :
  path_sum (u ++ x :: v) = path_sum (u ++ [x]) + path_sum (x :: v).
Proof.
  induction u as [|a u IH].
  - simpl. lra.
  - destruct u as [|b u].
    + simpl app. rewrite !path_sum_cons2. simpl (path_sum [x]). lra.
    + change ((a :: b :: u) ++ x :: v) with (a :: b :: (u ++ x :: v)).
      change ((a :: b :: u) ++ [x]) with (a :: b :: (u ++ [x])).
      rewrite !path_sum_cons2.
      change (b :: (u ++ x :: v)) with ((b :: u) ++ x :: v).
      change (b :: (u ++ [x])) with ((b :: u) ++ [x]).
      rewrite IH. lra.
Qed.

Lemma boundary_sum_app (u v : list point) : boundary_sum (u ++ v) = boundary_sum (v ++ u).
Proof.
  destruct u as [|a u]; [now rewrite app_nil_r|].
  destruct v as [|b v]; [now rewrite app_nil_r|].
  unfold boundary_sum.
  change ((a :: u) ++ b :: v) with (a :: (u ++ b :: v)).
  change ((b :: v) ++ a :: u) with (b :: (v ++ a :: u)).
  rewrite !closed_cons.
  replace (a :: (u ++ b :: v) ++ [a]) with ((a :: u) ++ b :: (v ++ [a]))
    by (simpl; now rewrite <- app_assoc).
  replace (b :: (v ++ a :: u) ++ [b]) with ((b :: v) ++ a :: (u ++ [b]))
    by (simpl; now rewrite <- app_assoc).
  rewrite (path_sum_join (a :: u)), (path_sum_join (b :: v)).
  simpl app. lra.
Qed.

(** A loop over the positions of a path that adds [term] of each
    position and the next adds up [path_sum]. *)
Lemma fold_path_sum (l : list point) (a : R) :
  fold_left (fun acc i => acc + term (nth i l Cartesian_default)
                                     (nth (S i) l Cartesian_default))
            (seq 0 (length l - 1)) a
  = a + path_sum l.
Proof.
  revert a. induction l as [|x l IH]; intro a.
  - simpl. lra.
  - destruct l as [|y l].
    + simpl. lra.
    + replace (length (x :: y :: l) - 1)%nat with (S (length (y :: l) - 1))
        by (simpl; lia).
      rewrite <- cons_seq, <- seq_shift. cbn [fold_left].
      rewrite fold_left_map_seq. cbn [nth].
      rewrite IH. rewrite path_sum_cons2. lra.
Qed.

Hypothesis term_swap : forall p q : point, term q p = - term p q.

Lemma path_sum_rev (l : list point) : path_sum (rev l) = - path_sum l.
Proof.
  induction l as [|a l IH].
  - simpl. lra.
  - destruct l as [|b l].
    + simpl. lra.
    + rewrite path_sum_cons2.
      change (rev (a :: b :: l)) with (rev (b :: l) ++ [a]).
      simpl (rev (b :: l)). rewrite <- app_assoc. simpl ([b] ++ [a]).
      rewrite path_sum_join.
      change (rev l ++ [b]) with (rev (b :: l)).
      rewrite IH. rewrite path_sum_cons2. simpl (path_sum [a]).
      rewrite (term_swap a b). lra.
Qed.

Lemma boundary_sum_rev (vs : list point) : boundary_sum (rev vs) = - boundary_sum vs.
Proof.
  destruct vs as [|a r]; [unfold boundary_sum; simpl; lra|].
  simpl rev. rewrite boundary_sum_app. simpl app.
  unfold boundary_sum. rewrite !closed_cons.
  replace (a :: rev r ++ [a]) with (rev (a :: r ++ [a])).
  - apply path_sum_rev.
  - simpl. rewrite rev_app_distr. reflexivity.
Qed.

End PathSum.

(** ** polygonArea *)

(** The shoelace sum as the specification words it: the sum, over the
    consecutive vertex pairs of the closed boundary, of
    [Vi.x * Vj.y - Vi.y * Vj.x]. *)
Definition shoelace_term (p q : point) : R := getX p * getY q - getY p * getX q.

Definition shoelace (vs : list point) : R := boundary_sum shoelace_term vs.

Lemma shoelace_rotate (k : nat) (vs : list point) : shoelace (rotate k vs) = shoelace vs.
Proof.
  unfold rotate, shoelace. rewrite boundary_sum_app, firstn_skipn. reflexivity.
Qed.

Lemma shoelace_rev (vs : list point) : shoelace (rev vs) = - shoelace vs.
Proof.
  apply boundary_sum_rev. intros p q. unfold shoelace_term. ring.
Qed.

(** The loop of [polygonArea] adds up the shoelace sum. *)
Lemma polygonArea_loop (vs : list point) :
  fold_left (polygonArea_step vs) (seq 0 (length vs)) (flit RealArith 0) = shoelace vs.
Proof.
  unfold shoelace, boundary_sum.
  assert (H : forall (idx : list nat) (a : R),
             Forall (fun i => (i < length vs)%nat) idx ->
             fold_left (polygonArea_step vs) idx a
             = fold_left (fun acc i =>
                            acc + shoelace_term (nth i (closed vs) Cartesian_default)
                                    (nth (S i) (closed vs) Cartesian_default))
                 idx a).
  { induction idx as [|i idx IH]; intros a Hall.
    - reflexivity.
    - inversion Hall as [|? ? Hi Hrest]; subst. cbn [fold_left].
      rewrite <- IH by assumption. f_equal.
      destruct (next_vertex vs Hi) as [E1 E2].
      unfold polygonArea_step. rewrite E1, E2.
      unfold shoelace_term. cbn [narrow widen dadd dsub dmul RealArith]. lra. }
  rewrite H.
  - rewrite <- (closed_length vs) at 1.
    rewrite fold_path_sum. cbn [flit RealArith]. lra.
  - apply Forall_forall. intros i Hi. apply in_seq in Hi. lia.
Qed.

Lemma polygonArea_eq (P : polygon) :
  (polygonArea P : R) = Rabs (shoelace (getVertices P) / 2).
Proof.
  unfold polygonArea. rewrite polygonArea_loop. reflexivity.
Qed.

Lemma polygonArea_nonneg (P : polygon) : 0 <= polygonArea P.
Proof. rewrite polygonArea_eq. apply Rabs_pos. Qed.

Lemma polygonArea_rotated (k : nat) (P : polygon) :
  polygonArea (rotated k P) = polygonArea P.
Proof.
  apply (@eq_trans R _ (Rabs (shoelace (getVertices P) / 2))).
  - rewrite polygonArea_eq. unfold rotated. cbn [getVertices].
    rewrite shoelace_rotate. reflexivity.
  - symmetry. apply polygonArea_eq.
Qed.

Lemma polygonArea_reversed (P : polygon) :
  polygonArea (reversed P) = polygonArea P.
Proof.
  apply (@eq_trans R _ (Rabs (shoelace (getVertices P) / 2))).
  - rewrite polygonArea_eq. unfold reversed. cbn [getVertices].
    rewrite shoelace_rev.
    replace (- shoelace (getVertices P) / 2) with (- (shoelace (getVertices P) / 2)) by lra.
    apply Rabs_Ropp.
  - symmetry. apply polygonArea_eq.
Qed.

Definition unit_square : polygon := mkPolygon [pt 0 0; pt 1 0; pt 1 1; pt 0 1].

Lemma polygonArea_unit_square : (polygonArea unit_square : R) = 1.
Proof.
  rewrite polygonArea_eq. unfold shoelace, boundary_sum, shoelace_term. simpl.
  replace ((0 * 0 - 0 * 1 + (1 * 1 - 0 * 1 + (1 * 1 - 1 * 0 + (0 * 0 - 1 * 0 + 0)))) / 2)
    with 1 by lra.
  apply Rabs_R1.
Qed.

(** ** centroid *)

Definition centroid_term_x (p q : point) : R :=
  (getX p + getX q) * (getX p * getY q - getX q * getY p).

Definition centroid_term_y (p q : point) : R :=
  (getY p + getY q) * (getX p * getY q - getX q * getY p).

(** The area-weighted centroid as the specification words it:
    [cx = (1/6A) * sum (xi + xi+1)(xi yi+1 - xi+1 yi)], with [A] the signed
    area, and the same with [yi + yi+1] for [cy]. *)
Definition signed_area (vs : list point) : R := shoelace vs / 2.

Definition centroid_formula (P : polygon) : point :=
  let A := signed_area (getVertices P) in
  pt (1 / (6 * A) * boundary_sum centroid_term_x (getVertices P))
     (1 / (6 * A) * boundary_sum centroid_term_y (getVertices P)).

Lemma centroid_loop (vs : list point) :
  fold_left (centroid_step vs) (seq 0 (length vs)) (dlit RealArith 0, dlit RealArith 0)
  = (boundary_sum centroid_term_x vs, boundary_sum centroid_term_y vs).
Proof.
  unfold boundary_sum.
  assert (H : forall (idx : list nat) (a b : R),
             Forall (fun i => (i < length vs)%nat) idx ->
             fold_left (centroid_step vs) idx (a, b)
             = (fold_left (fun acc i =>
                             acc + centroid_term_x (nth i (closed vs) Cartesian_default)
                                     (nth (S i) (closed vs) Cartesian_default))
                  idx a,
                fold_left (fun acc i =>
                             acc + centroid_term_y (nth i (closed vs) Cartesian_default)
                                     (nth (S i) (closed vs) Cartesian_default))
                  idx b)).
  { induction idx as [|i idx IH]; intros a b Hall.
    - reflexivity.
    - inversion Hall as [|? ? Hi Hrest]; subst. cbn [fold_left].
      rewrite <- IH by assumption. f_equal.
      destruct (next_vertex vs Hi) as [E1 E2].
      unfold centroid_step. rewrite E1, E2. reflexivity. }
  rewrite H.
  - rewrite <- (closed_length vs) at 1 2.
    rewrite !fold_path_sum. cbn [dlit RealArith]. f_equal; lra.
  - apply Forall_forall. intros i Hi. apply in_seq in Hi. lia.
Qed.

Lemma centroid_eq (P : polygon) :
  centroid P
  = pt (Rabs (boundary_sum centroid_term_x (getVertices P)) / (polygonArea P * 6))
       (Rabs (boundary_sum centroid_term_y (getVertices P)) / (polygonArea P * 6)).
Proof.
  unfold centroid. rewrite centroid_loop. reflexivity.
Qed.

Lemma Rabs_quotient (s a : R) : a <> 0 -> Rabs s / (Rabs a * 6) = Rabs (1 / (6 * a) * s).
Proof.
  intro Ha.
  rewrite Rabs_mult. unfold Rdiv at 2. rewrite Rmult_1_l.
  rewrite Rabs_inv, Rabs_mult. rewrite (Rabs_pos_eq 6) by lra.
  assert (Rabs a <> 0) by (apply Rabs_no_R0; exact Ha).
  field. exact H.
Qed.

(** What [centroid] returns: the absolute values of the coordinates of
    the centroid. *)
Lemma centroid_abs (P : polygon) :
  signed_area (getVertices P) <> 0 ->
  centroid P = pt (Rabs (getX (centroid_formula P))) (Rabs (getY (centroid_formula P))).
Proof.
  intro HA. rewrite centroid_eq, polygonArea_eq.
  unfold centroid_formula. cbn [getX getY pt].
  fold (signed_area (getVertices P)).
  rewrite !Rabs_quotient by exact HA. reflexivity.
Qed.

Lemma centroid_correct_iff (P : polygon) :
  signed_area (getVertices P) <> 0 ->
  (centroid P = centroid_formula P
   <-> 0 <= getX (centroid_formula P) /\ 0 <= getY (centroid_formula P)).
Proof.
  intro HA. rewrite (centroid_abs P HA).
  destruct (centroid_formula P) as [cx cy]. cbn [getX getY]. unfold pt. split.
  - intro E. injection E as Ex Ey. split.
    + rewrite <- Ex. apply Rabs_pos.
    + rewrite <- Ey. apply Rabs_pos.
  - intros [Hx Hy]. rewrite !Rabs_pos_eq by assumption. reflexivity.
Qed.

(** The unit square that lies in the third quadrant, counter-clockwise. *)
Definition third_quadrant_square : polygon :=
  mkPolygon [pt (-1) (-1); pt 0 (-1); pt 0 0; pt (-1) 0].

Lemma third_quadrant_square_area : signed_area (getVertices third_quadrant_square) = 1.
Proof.
  unfold signed_area, shoelace, boundary_sum, shoelace_term. simpl. lra.
Qed.

Lemma third_quadrant_square_formula :
  centroid_formula third_quadrant_square = pt (- (1 / 2)) (- (1 / 2)).
Proof.
  unfold centroid_formula. rewrite third_quadrant_square_area.
  unfold boundary_sum, centroid_term_x, centroid_term_y. simpl.
  unfold pt. f_equal; lra.
Qed.

Lemma third_quadrant_square_centroid :
  centroid third_quadrant_square = pt (1 / 2) (1 / 2).
Proof.
  rewrite centroid_abs by (rewrite third_quadrant_square_area; lra).
  rewrite third_quadrant_square_formula. cbn [getX getY pt].
  rewrite Rabs_Ropp, Rabs_pos_eq by lra. reflexivity.
Qed.

(** ** getIntersectionPoint on the two diagonals of the unit square *)

Definition diagonal_up : segment := (pt 0 0, pt 1 1).
Definition diagonal_down : segment := (pt 0 1, pt 1 0).

Lemma diagonals_linesIntersect : linesIntersect diagonal_up diagonal_down = true.
Proof.
  apply linesIntersect_true. rewrite !crossProduct_eq.
  unfold diagonal_up, diagonal_down. cbn [fst snd getX getY pt]. lra.
Qed.

Lemma diagonals_getIntersectionPoint :
  getIntersectionPoint diagonal_up diagonal_down = Returned (pt (1 / 2) (1 / 2)).
Proof.
  unfold getIntersectionPoint. rewrite diagonals_linesIntersect. cbn [negb].
  unfold diagonal_up, diagonal_down.
  cbn [fst snd getX getY pt narrow widen fadd fsub fmul fdiv fsqrt RealArith].
  replace ((1 - 0) * (1 - 0) + (1 - 0) * (1 - 0)) with 2 by lra.
  assert (Hs : sqrt 2 * sqrt 2 = 2) by (apply sqrt_sqrt; lra).
  assert (Hp : 0 < sqrt 2) by (apply sqrt_lt_R0; lra).
  set (r := sqrt 2) in *.
  unfold pt. f_equal. f_equal.
  - field_simplify_eq; [nra | repeat split; nra].
  - field_simplify_eq; [nra | repeat split; nra].
Qed.

(** ** The order of the points and [std::sort] *)

Definition lex_lt (p q : point) : Prop :=
  getX p < getX q \/ ((getX p : R) = getX q /\ getY p < getY q).

Definition lex_le (p q : point) : Prop := lex_lt p q \/ p = q.

Lemma Cartesian_ltb_lex (p q : point) : Cartesian_ltb p q = true <-> lex_lt p q.
Proof.
  unfold Cartesian_ltb, lex_lt. cbn [dltb deqb RealArith].
  rewrite orb_true_iff, andb_true_iff, !Rltb_true, Reqb_true. reflexivity.
Qed.

Lemma lex_le_refl (p : point) : lex_le p p.
Proof. now right. Qed.

Lemma lex_lt_irrefl (p : point) : ~ lex_lt p p.
Proof. unfold lex_lt. lra. Qed.

Lemma lex_total (p q : point) : lex_lt p q \/ p = q \/ lex_lt q p.
Proof.
  unfold lex_lt.
  destruct (Rtotal_order (getX p) (getX q)) as [H | [H | H]].
  - left. left. exact H.
  - destruct (Rtotal_order (getY p) (getY q)) as [H' | [H' | H']].
    + left. right. split; assumption.
    + right. left. now apply point_eq.
    + right. right. right. split; [symmetry; exact H | exact H'].
  - right. right. left. exact H.
Qed.

Lemma lex_le_total (p q : point) : lex_le p q \/ lex_le q p.
Proof. unfold lex_le. destruct (lex_total p q) as [H | [H | H]]; auto. Qed.

Lemma lex_le_antisym (p q : point) : lex_le p q -> lex_le q p -> p = q.
Proof.
  unfold lex_le, lex_lt. intros [H1 | H1] [H2 | H2]; auto. exfalso. lra.
Qed.

Lemma lex_le_trans (p q r : point) : lex_le p q -> lex_le q r -> lex_le p r.
Proof.
  unfold lex_le, lex_lt. intros [H1 | H1] [H2 | H2]; subst; auto. left. lra.
Qed.

Lemma not_lex_lt (p q : point) : ~ lex_lt q p -> lex_le p q.
Proof. intro H. unfold lex_le. destruct (lex_total p q) as [H' | [H' | H']]; tauto. Qed.

Lemma sort_insert_perm (p : point) (l : list point) :
  Permutation (sort_insert p l) (p :: l).
Proof.
  induction l as [|q l IH]; simpl.
  - apply Permutation_refl.
  - destruct (Cartesian_ltb q p).
    + eapply perm_trans; [apply perm_skip; exact IH | apply perm_swap].
    + apply Permutation_refl.
Qed.

Lemma sort_perm (l : list point) : Permutation (sort l) l.
Proof.
  induction l as [|p l IH]; simpl.
  - apply perm_nil.
  - eapply perm_trans; [apply sort_insert_perm | apply perm_skip; exact IH].
Qed.

Lemma sort_insert_sorted (p : point) (l : list point) :
  StronglySorted lex_le l -> StronglySorted lex_le (sort_insert p l).
Proof.
  induction l as [|q l IH]; intro Hs; simpl.
  - constructor; [constructor | constructor].
  - inversion Hs as [|? ? Hl Hq]; subst.
    destruct (Cartesian_ltb q p) eqn:E.
    + apply Cartesian_ltb_lex in E.
      constructor; [apply IH; exact Hl|].
      apply Forall_forall. intros x Hx.
      apply (Permutation_in _ (sort_insert_perm p l)) in Hx.
      destruct Hx as [-> | Hx]; [now left|].
      rewrite Forall_forall in Hq. now apply Hq.
    + assert (Hpq : lex_le p q).
      { apply not_lex_lt. intro H. apply Cartesian_ltb_lex in H. congruence. }
      constructor; [exact Hs|].
      constructor; [exact Hpq|].
      apply Forall_forall. intros x Hx. rewrite Forall_forall in Hq.
      eapply lex_le_trans; [exact Hpq | now apply Hq].
Qed.

Lemma sort_sorted (l : list point) : StronglySorted lex_le (sort l).
Proof.
  induction l as [|p l IH]; simpl.
  - constructor.
  - apply sort_insert_sorted. exact IH.
Qed.

(** Whatever [std::sort] does with equivalent elements, over exact
    numbers there is one sorted arrangement only. *)
Lemma sorted_unique (l1 l2 : list point) :
  StronglySorted lex_le l1 -> StronglySorted lex_le l2 -> Permutation l1 l2 -> l1 = l2.
Proof.
  revert l2. induction l1 as [|a l1 IH]; intros l2 H1 H2 Hp.
  - apply Permutation_nil in Hp. now subst.
  - destruct l2 as [|b l2]; [apply Permutation_sym, Permutation_nil in Hp; discriminate|].
    inversion H1 as [|? ? S1 F1]; inversion H2 as [|? ? S2 F2]; subst.
    rewrite Forall_forall in F1, F2.
    assert (Hab : a = b).
    { apply lex_le_antisym.
      - assert (Hin : In b (a :: l1))
          by (apply (Permutation_in _ (Permutation_sym Hp)); now left).
        destruct Hin as [-> | Hin]; [apply lex_le_refl | now apply F1].
      - assert (Hin : In a (b :: l2)) by (apply (Permutation_in _ Hp); now left).
        destruct Hin as [-> | Hin]; [apply lex_le_refl | now apply F2]. }
    subst b. f_equal. apply IH; try assumption.
    eapply Permutation_cons_inv. exact Hp.
Qed.

(** ** Orientation in a half-plane

    [hp x y] says that the vector [(x, y)] points to the right or straight
    up: it is the difference [q - p] of points with [lex_le p q].  Among
    such vectors the sign of the cross product is transitive. *)

Definition hp (x y : R) : Prop := 0 < x \/ (x = 0 /\ 0 <= y).

Lemma hp_trans_cross (ux uy vx vy wx wy : R) :
  hp ux uy -> hp vx vy -> hp wx wy ->
  (vx <> 0 \/ vy <> 0) ->
  0 <= ux * vy - uy * vx ->
  0 <= vx * wy - vy * wx ->
  0 <= ux * wy - uy * wx.
Proof.
  unfold hp. intros Hu Hv Hw Hv0 Huv Hvw.
  destruct Hv as [Hv | [Hv Hv']].
  - assert (E : (ux * wy - uy * wx) * vx
                = (vx * wy - vy * wx) * ux + (ux * vy - uy * vx) * wx) by ring.
    assert (0 <= ux) by (destruct Hu; lra).
    assert (0 <= wx) by (destruct Hw; lra).
    assert (0 <= (ux * wy - uy * wx) * vx) by (rewrite E; nra).
    nra.
  - subst vx. assert (0 < vy) by (destruct Hv0; lra).
    assert (wx = 0) by (destruct Hw as [Hw | [Hw _]]; nra).
    assert (0 <= wy) by (destruct Hw as [Hw | [_ Hw]]; lra).
    assert (0 <= ux) by (destruct Hu; lra).
    subst wx. nra.
Qed.

Lemma hp_trans_cross_strict (ux uy vx vy wx wy : R) :
  hp ux uy -> hp vx vy -> hp wx wy ->
  0 < ux * vy - uy * vx ->
  0 < vx * wy - vy * wx ->
  0 < ux * wy - uy * wx.
Proof.
  unfold hp. intros Hu Hv Hw Huv Hvw.
  destruct Hv as [Hv | [Hv Hv']].
  - assert (E : (ux * wy - uy * wx) * vx
                = (vx * wy - vy * wx) * ux + (ux * vy - uy * vx) * wx) by ring.
    assert (0 <= wx) by (destruct Hw; lra).
    assert (0 < ux).
    { destruct Hu as [Hu | [Hu Hu']]; [exact Hu|]. subst ux. nra. }
    assert (0 < (ux * wy - uy * wx) * vx) by (rewrite E; nra).
    nra.
  - subst vx. exfalso. destruct Hw as [Hw | [Hw Hw']]; nra.
Qed.

(** Two parallel vectors of the half-plane, none of them zero, see every
    third vector on the same side. *)
Lemma hp_parallel_side (ux uy vx vy ex ey : R) :
  hp ux uy -> hp vx vy ->
  (ux <> 0 \/ uy <> 0) -> (vx <> 0 \/ vy <> 0) ->
  ux * vy - uy * vx = 0 ->
  0 <= vx * ey - vy * ex ->
  0 <= ux * ey - uy * ex.
Proof.
  unfold hp. intros Hu Hv Hu0 Hv0 Hpar Hve.
  assert (E : (ux * ey - uy * ex) * vx = (vx * ey - vy * ex) * ux + (ux * vy - uy * vx) * ex)
    by ring.
  assert (E' : (ux * ey - uy * ex) * vy = (vx * ey - vy * ex) * uy + (ux * vy - uy * vx) * ey)
    by ring.
  rewrite Hpar in E, E'.
  destruct Hv as [Hv | [Hv Hv']].
  - assert (0 <= ux) by (destruct Hu; lra).
    assert (0 <= (ux * ey - uy * ex) * vx) by (rewrite E; nra).
    nra.
  - subst vx. assert (0 < vy) by (destruct Hv0; lra).
    assert (ux = 0) by nra.
    assert (0 <= uy) by (destruct Hu as [Hu | [_ Hu]]; lra).
    assert (0 <= (ux * ey - uy * ex) * vy) by (rewrite E'; nra).
    nra.
Qed.

(** ** One monotone chain

    The two loops of [convexHull] run the same chain construction, the
    first over the points in increasing order and the second over the
    points in decreasing order.  [dle sgn] is the order of the points
    with [sgn = 1] and its converse with [sgn = -1]; the chain is studied
    once, for both. *)

Definition dle (sgn : R) (p q : point) : Prop :=
  hp (sgn * (getX q - getX p)) (sgn * (getY q - getY p)).

Lemma dle_lex (p q : point) : dle 1 p q <-> lex_le p q.
Proof.
  unfold dle, hp, lex_le, lex_lt. split.
  - intros [H | [H H']]; [left; left; lra|].
    destruct (Req_dec_T (getY p) (getY q)) as [E | E].
    + right. apply point_eq; lra.
    + left. right. split; lra.
  - intros [[H | [H H']] | ->]; [left; lra | right; lra | right; lra].
Qed.

Lemma dle_lex_conv (p q : point) : dle (-1) p q <-> lex_le q p.
Proof.
  rewrite <- dle_lex. unfold dle, hp. split; (intros [H | [H H']]; [left; lra | right; lra]).
Qed.

Section Chain.

Variable sgn : R.
Hypothesis sgn_unit : sgn = 1 \/ sgn = -1.

Local Notation "p <<= q" := (dle sgn p q) (at level 70).

Lemma dle_refl (p : point) : p <<= p.
Proof. unfold dle, hp. right. split; destruct sgn_unit; subst; lra. Qed.

Lemma dle_antisym (p q : point) : p <<= q -> q <<= p -> p = q.
Proof.
  unfold dle, hp. intros H1 H2.
  apply point_eq; destruct sgn_unit; subst sgn; lra.
Qed.

Lemma dle_total (p q : point) : p <<= q \/ q <<= p.
Proof.
  destruct sgn_unit; subst sgn.
  - rewrite !dle_lex. apply lex_le_total.
  - rewrite !dle_lex_conv. apply lex_le_total.
Qed.

Lemma dle_trans (p q r : point) : p <<= q -> q <<= r -> p <<= r.
Proof.
  destruct sgn_unit; subst sgn.
  - rewrite !dle_lex. apply lex_le_trans.
  - rewrite !dle_lex_conv. intros H1 H2. eapply lex_le_trans; eassumption.
Qed.

Lemma dle_neq (p q : point) :
  p <<= q -> p <> q ->
  sgn * (getX q - getX p) <> 0 \/ sgn * (getY q - getY p) <> 0.
Proof.
  intros _ Hne.
  destruct (Req_dec_T (getX q) (getX p)) as [Ex | Ex].
  - destruct (Req_dec_T (getY q) (getY p)) as [Ey | Ey].
    + exfalso. apply Hne. now apply point_eq.
    + right. destruct sgn_unit; subst sgn; lra.
  - left. destruct sgn_unit; subst sgn; lra.
Qed.

Lemma crossProduct_same (a b : point) : (crossProduct a b b : R) = 0.
Proof. rewrite crossProduct_eq. ring. Qed.

Lemma crossProduct_start (a b : point) : (crossProduct a b a : R) = 0.
Proof. rewrite crossProduct_eq. ring. Qed.

Lemma crossProduct_twice (a b : point) : (crossProduct a a b : R) = 0.
Proof. rewrite crossProduct_eq. ring. Qed.

(** Popping [b]: what lies on the left of [a -> b], seen from [a] beyond
    a point [q] on its right, lies on the left of [a -> q]. *)
Lemma pop_step (a b p q : point) :
  a <<= b -> a <> b -> a <<= p -> a <<= q ->
  0 <= crossProduct a b p -> crossProduct a b q <= 0 ->
  0 <= crossProduct a q p.
Proof.
  intros Hab Hne Hap Haq Hp Hq.
  pose proof (dle_neq Hab Hne) as Hv0.
  rewrite !crossProduct_eq in *. unfold dle in *.
  pose proof (@hp_trans_cross
                (sgn * (getX q - getX a)) (sgn * (getY q - getY a))
                (sgn * (getX b - getX a)) (sgn * (getY b - getY a))
                (sgn * (getX p - getX a)) (sgn * (getY p - getY a))
                Haq Hab Hap Hv0) as H.
  destruct sgn_unit; subst sgn; lra.
Qed.

(** Pushing [q] on [b]: what lies before [b] and on the left of [a -> b]
    lies on the left of [b -> q] when [q] is on the left of [a -> b]. *)
Lemma push_left (a b p q : point) :
  a <<= b -> a <> b -> p <<= b -> b <<= q ->
  0 <= crossProduct a b p -> 0 < crossProduct a b q ->
  0 <= crossProduct b q p.
Proof.
  intros Hab Hne Hpb Hbq Hp Hq.
  pose proof (dle_neq Hab Hne) as Hv0.
  rewrite !crossProduct_eq in *. unfold dle in *.
  pose proof (@hp_trans_cross
                (sgn * (getX b - getX p)) (sgn * (getY b - getY p))
                (sgn * (getX b - getX a)) (sgn * (getY b - getY a))
                (sgn * (getX q - getX b)) (sgn * (getY q - getY b))
                Hpb Hab Hbq Hv0) as H.
  destruct sgn_unit; subst sgn; lra.
Qed.

(** Two left turns in a row along increasing points: the last point is
    on the left of the first edge as well. *)
Lemma left_of_deeper (z a b q : point) :
  z <<= a -> a <<= b -> b <<= q ->
  0 < crossProduct z a b -> 0 < crossProduct a b q ->
  0 < crossProduct z a q.
Proof.
  intros Hza Hab Hbq H1 H2.
  rewrite !crossProduct_eq in *. unfold dle in *.
  pose proof (@hp_trans_cross_strict
                (sgn * (getX a - getX z)) (sgn * (getY a - getY z))
                (sgn * (getX b - getX a)) (sgn * (getY b - getY a))
                (sgn * (getX q - getX b)) (sgn * (getY q - getY b))
                Hza Hab Hbq) as H.
  destruct sgn_unit; subst sgn; lra.
Qed.

(** *** The stack during the construction

    Stacks are written with the top first.  [chain_ok P st] says, of every
    two neighbours [b] below [c]: [b] comes before [c], every point of [P]
    is on the left of [b -> c] or on it, and the stack turns left at [b]. *)

Fixpoint chain_ok (P : list point) (st : list point) : Prop :=
  match st with
  | c :: ((b :: r) as st') =>
      b <<= c /\ b <> c
      /\ (forall p, In p P -> 0 <= crossProduct b c p)
      /\ match r with a :: _ => 0 < crossProduct a b c | [] => True end
      /\ chain_ok P st'
  | _ => True
  end.

(** [q] is strictly on the left of every edge of the stack. *)
Fixpoint left_of_all (q : point) (st : list point) : Prop :=
  match st with
  | b :: ((a :: _) as st') => 0 < crossProduct a b q /\ left_of_all q st'
  | _ => True
  end.

Definition top (st : list point) : point := hd Cartesian_default st.
Definition bottom (st : list point) : point := last st Cartesian_default.

(** The regular state: a stack on the processed points [P] whose bottom
    is the first and whose top is the last of them. *)
Definition Good (st P : list point) : Prop :=
  st <> []
  /\ (forall x, In x st -> In x P)
  /\ (forall p, In p P -> p <<= top st)
  /\ (forall p, In p P -> bottom st <<= p)
  /\ chain_ok P st.

(** The state after reading only copies of one point. *)
Definition Deg (st P : list point) : Prop :=
  exists t, st = [t; t] /\ In t P /\ forall p, In p P -> p = t.

Definition Inv (st P : list point) : Prop :=
  (st = [] /\ P = []) \/ Deg st P \/ Good st P.

Lemma popS_one (b q : point) : popS 2 [b] q = [b].
Proof. reflexivity. Qed.

Lemma popS_two (b a : point) (r : list point) (q : point) :
  popS 2 (b :: a :: r) q
  = if Rleb (crossProduct a b q) 0 then popS 2 (a :: r) q else b :: a :: r.
Proof. reflexivity. Qed.

Lemma chain_ok_tail (P : list point) (c : point) (st : list point) :
  chain_ok P (c :: st) -> chain_ok P st.
Proof.
  destruct st as [|b r]; [intros _; exact I|].
  cbn [chain_ok]. tauto.
Qed.

Lemma chain_ok_extend (P : list point) (q : point) (st : list point) :
  chain_ok P st -> left_of_all q st -> chain_ok (q :: P) st.
Proof.
  induction st as [|c st IH]; [intros; exact I|].
  destruct st as [|b r]; [intros; exact I|].
  cbn [chain_ok left_of_all]. intros (Hle & Hne & Hin & Hturn & Hok) (Hq & Hrest).
  repeat split; try assumption.
  - intros p [<- | Hp]; [lra | now apply Hin].
  - apply IH; assumption.
Qed.

Lemma left_of_all_stack (P : list point) (q : point) (r : list point) (a b : point) :
  chain_ok P (b :: a :: r) -> b <<= q -> 0 < crossProduct a b q ->
  left_of_all q (b :: a :: r).
Proof.
  revert a b. induction r as [|z r IH]; intros a b Hok Hbq Hq.
  - cbn [left_of_all]. auto.
  - cbn [left_of_all]. split; [exact Hq|].
    change (left_of_all q (a :: z :: r)).
    cbn [chain_ok] in Hok. destruct Hok as (Hab & Hne & _ & Hturn & Hza & Hne' & Hrest).
    apply IH.
    + cbn [chain_ok]. auto.
    + eapply dle_trans; eassumption.
    + eapply left_of_deeper; eassumption.
Qed.

(** The inner [while]. *)
Lemma pop_inv (P : list point) (q : point) :
  (forall p, In p P -> p <<= q) ->
  forall st : list point,
    st <> [] ->
    chain_ok P st ->
    (forall x, In x st -> In x P) ->
    (forall p, In p P -> bottom st <<= p) ->
    (forall p, In p P -> top st <<= p -> 0 <= crossProduct (top st) q p) ->
    popS 2 st q <> []
    /\ chain_ok P (popS 2 st q)
    /\ (forall x, In x (popS 2 st q) -> In x st)
    /\ bottom (popS 2 st q) = bottom st
    /\ (forall p, In p P -> 0 <= crossProduct (top (popS 2 st q)) q p)
    /\ left_of_all q (popS 2 st q).
Proof.
  intros Hq st. induction st as [|b st IH]; intros Hne Hok Hin Hbot Htan.
  - contradiction.
  - destruct st as [|a r].
    + rewrite popS_one.
      repeat split; auto.
    + rewrite popS_two.
      pose proof Hok as Hok'.
      cbn [chain_ok] in Hok'. destruct Hok' as (Hab & Hab' & Hleft & Hturn & Hrest).
      destruct (Rleb (crossProduct a b q) 0) eqn:E.
      * apply Rleb_true in E.
        destruct IH as (I1 & I2 & I3 & I4 & I5 & I6).
        -- discriminate.
        -- exact Hrest.
        -- intros x Hx. apply Hin. now right.
        -- exact Hbot.
        -- intros p Hp Hap. cbn [top hd] in *.
           apply (@pop_step a b p q); auto.
           apply Hq. apply Hin. right. now left.
        -- repeat split; auto. intros x Hx. right. now apply I3.
      * apply Rleb_false in E.
        assert (Hbq : b <<= q) by (apply Hq, Hin; now left).
        split; [discriminate|]. split; [exact Hok|]. split; [auto|].
        split; [reflexivity|]. split.
        -- intros p Hp. cbn [top hd] in *.
           destruct (dle_total b p) as [Hbp | Hpb].
           ++ now apply Htan.
           ++ apply (@push_left a b p q); auto.
        -- eapply left_of_all_stack; eassumption.
Qed.

Lemma bottom_cons (q : point) (st : list point) :
  st <> [] -> bottom (q :: st) = bottom st.
Proof. destruct st; [contradiction | reflexivity]. Qed.

Lemma bottom_in (st : list point) : st <> [] -> In (bottom st) st.
Proof.
  induction st as [|a st IH]; [contradiction|]. intros _.
  destruct st as [|b st]; [now left|].
  right. apply IH. discriminate.
Qed.

(** One round of a loop, from the regular state. *)
Lemma push_good (P : list point) (q : point) (st : list point) :
  Good st P -> (forall p, In p P -> p <<= q) ->
  Good (pushS 2 st q) (q :: P) \/ Deg (pushS 2 st q) (q :: P).
Proof.
  intros (Hne & Hin & Htop & Hbot & Hok) Hq.
  destruct (@pop_inv P q Hq st Hne Hok Hin Hbot) as (I1 & I2 & I3 & I4 & I5 & I6).
  { intros p Hp Htp.
    assert (p = top st) by (apply dle_antisym; auto).
    subst p. rewrite crossProduct_start. lra. }
  unfold pushS.
  destruct (popS 2 st q) as [|b r] eqn:Est; [contradiction|].
  assert (Hb : In b P) by (apply Hin, I3; now left).
  assert (Hlast : bottom (q :: b :: r) = bottom st) by (rewrite bottom_cons; [exact I4 | discriminate]).
  assert (Hcase : b <> q \/ (b = q /\ r = [])).
  { destruct r as [|a r']; [destruct (point_eq_dec b q); auto|].
    left. intro Hbq. subst q. cbn [left_of_all] in I6. destruct I6 as [I6 _].
    rewrite crossProduct_same in I6. lra. }
  destruct Hcase as [Hbq | [Hbq Hr]].
  - left. unfold Good.
    split; [discriminate|]. split; [|split; [|split]].
    + intros x [<- | Hx]; [now left | right; apply Hin, I3; exact Hx].
    + intros p [<- | Hp]; cbn [top hd]; [apply dle_refl | now apply Hq].
    + rewrite Hlast. intros p [<- | Hp]; [|now apply Hbot].
      apply Hq, Hin, bottom_in, Hne.
    + cbn [chain_ok]. split; [now apply Hq|]. split; [exact Hbq|]. split; [|split].
      * intros p [<- | Hp]; [rewrite crossProduct_same; lra | now apply I5].
      * destruct r as [|a r']; [exact I | apply I6].
      * change (chain_ok (q :: P) (b :: r)). apply chain_ok_extend; assumption.
  - right. subst r b. exists q. split; [reflexivity|]. split; [now left|].
    intros p [<- | Hp]; [reflexivity|].
    apply dle_antisym; [now apply Hq|].
    cbn [bottom last] in I4. rewrite I4. now apply Hbot.
Qed.

Lemma push_deg (P : list point) (q : point) (st : list point) :
  Deg st P -> (forall p, In p P -> p <<= q) ->
  Good (pushS 2 st q) (q :: P) \/ Deg (pushS 2 st q) (q :: P).
Proof.
  intros (t & -> & Ht & Hall) Hq.
  assert (E : pushS 2 [t; t] q = [q; t]).
  { unfold pushS. rewrite popS_two.
    replace (Rleb (crossProduct t t q) 0) with true; [reflexivity|].
    symmetry. apply Rleb_true. rewrite crossProduct_twice. lra. }
  rewrite E.
  destruct (point_eq_dec t q) as [Htq | Htq].
  - right. subst q. exists t. split; [reflexivity|]. split; [now left|].
    intros p [<- | Hp]; [reflexivity | now apply Hall].
  - left. unfold Good.
    split; [discriminate|]. split; [|split; [|split]].
    + intros x [<- | [<- | []]]; [now left | now right].
    + intros p [<- | Hp]; cbn [top hd]; [apply dle_refl | now apply Hq].
    + cbn [bottom last]. intros p [<- | Hp]; [now apply Hq|].
      rewrite (Hall p Hp). apply dle_refl.
    + cbn [chain_ok]. split; [now apply Hq|]. split; [exact Htq|]. split; [|auto].
      intros p [<- | Hp]; [rewrite crossProduct_same; lra|].
      rewrite (Hall p Hp). rewrite crossProduct_start. lra.
Qed.

Lemma push_inv (P : list point) (q : point) (st : list point) :
  Inv st P -> (forall p, In p P -> p <<= q) -> Inv (pushS 2 st q) (q :: P).
Proof.
  intros [[-> ->] | [Hdeg | Hgood]] Hq.
  - right. right. change (pushS 2 [] q) with [q]. unfold Good.
    split; [discriminate|]. split; [auto|]. split; [|split; [|exact I]].
    + intros p [<- | []]. apply dle_refl.
    + intros p [<- | []]. apply dle_refl.
  - destruct (push_deg Hdeg Hq); [right; right | right; left]; assumption.
  - destruct (push_good Hgood Hq); [right; right | right; left]; assumption.
Qed.

Lemma fold_inv (rest : list point) :
  forall st P : list point,
    Inv st P ->
    StronglySorted (dle sgn) rest ->
    (forall p q, In p P -> In q rest -> p <<= q) ->
    Inv (fold_left (pushS 2) rest st) (rev rest ++ P).
Proof.
  induction rest as [|q rest IH]; intros st P HI Hs Hle.
  - exact HI.
  - cbn [fold_left rev]. rewrite <- app_assoc. cbn [app].
    inversion Hs as [|? ? Hs' Hq]; subst. rewrite Forall_forall in Hq.
    apply IH.
    + apply push_inv; [exact HI|]. intros p Hp. apply Hle; [exact Hp | now left].
    + exact Hs'.
    + intros p q' [<- | Hp] Hq'; [now apply Hq|]. apply Hle; [exact Hp | now right].
Qed.

(** The chain of a sorted list that holds two different points is in the
    regular state, on all the points of the list. *)
Lemma chain_Good (points : list point) :
  StronglySorted (dle sgn) points ->
  (exists x y, In x points /\ In y points /\ x <> y) ->
  Good (chain points) points.
Proof.
  intros Hs (x & y & Hx & Hy & Hxy).
  pose proof (@fold_inv points [] [] (or_introl (conj eq_refl eq_refl)) Hs) as H.
  fold (chain points) in H.
  destruct H as [[_ HP] | [Hdeg | Hgood]].
  - intros p q [].
  - rewrite app_nil_r in HP. apply (f_equal (@rev point)) in HP.
    rewrite rev_involutive in HP. rewrite HP in Hx. destruct Hx.
  - destruct Hdeg as (t & _ & _ & Hall). exfalso. apply Hxy.
    rewrite (Hall x), (Hall y); [reflexivity | |];
      rewrite app_nil_r; apply -> in_rev; assumption.
  - destruct Hgood as (G1 & G2 & G3 & G4 & G5).
    assert (Hiff : forall p, In p (rev points ++ []) <-> In p points).
    { intro p. rewrite app_nil_r. symmetry. apply in_rev. }
    unfold Good. split; [exact G1|]. split; [|split; [|split]].
    + intros p Hp. apply Hiff. now apply G2.
    + intros p Hp. apply G3. now apply Hiff.
    + intros p Hp. apply G4. now apply Hiff.
    + revert G5. generalize (chain points). intro st.
      induction st as [|c st IHst]; [auto|].
      destruct st as [|b r]; [auto|].
      cbn [chain_ok]. intros (A1 & A2 & A3 & A4 & A5).
      split; [exact A1|]. split; [exact A2|]. split; [|split; [exact A4|]].
      * intros p Hp. apply A3. now apply Hiff.
      * apply IHst. exact A5.
Qed.

(** *** The chain from bottom to top *)

(** Where the chain of the increasing and the chain of the decreasing
    points meet, the boundary turns left, unless all points lie on one
    line.  [x -> m] is the last edge of one chain and [m -> y] the first
    edge of the other; [x] and [y] both come before [m]. *)
Lemma parallel_common (dx dy ux uy vx vy : R) :
  (dx <> 0 \/ dy <> 0) ->
  dx * uy - dy * ux = 0 -> dx * vy - dy * vx = 0 ->
  ux * vy - uy * vx = 0.
Proof.
  intros Hd Hu Hv.
  assert (Ex : (ux * vy - uy * vx) * dx = (dx * vy - dy * vx) * ux - (dx * uy - dy * ux) * vx)
    by ring.
  assert (Ey : (ux * vy - uy * vx) * dy = (dx * vy - dy * vx) * uy - (dx * uy - dy * ux) * vy)
    by ring.
  rewrite Hu, Hv in Ex, Ey.
  assert (Ex0 : (ux * vy - uy * vx) * dx = 0) by lra.
  assert (Ey0 : (ux * vy - uy * vx) * dy = 0) by lra.
  destruct Hd as [Hd | Hd]; [apply Rmult_integral in Ex0 | apply Rmult_integral in Ey0]; tauto.
Qed.

Lemma junction (P : list point) (x m y : point) :
  x <<= m -> x <> m -> y <<= m -> y <> m -> In y P ->
  (forall p, In p P -> 0 <= crossProduct x m p) ->
  (forall p, In p P -> 0 <= crossProduct m y p) ->
  (exists a b c, In a P /\ In b P /\ In c P /\ (crossProduct a b c : R) <> 0) ->
  0 < crossProduct x m y.
Proof.
  intros Hxm Hxm' Hym Hym' Hy Hleft1 Hleft2 (a & b & c & Ha & Hb & Hc & Habc).
  destruct (Rle_lt_dec (crossProduct x m y) 0) as [Hle | Hlt]; [exfalso | exact Hlt].
  assert (H0 : (crossProduct x m y : R) = 0) by (pose proof (Hleft1 y Hy); lra).
  pose proof (dle_neq Hxm Hxm') as Hv0.
  pose proof (dle_neq Hym Hym') as Hw0.
  assert (Hline : forall p, In p P -> (crossProduct x m p : R) = 0).
  { intros p Hp. pose proof (Hleft1 p Hp) as H1. pose proof (Hleft2 p Hp) as H2.
    rewrite !crossProduct_eq in *. unfold dle in *.
    pose proof (@hp_parallel_side
                  (sgn * (getX m - getX x)) (sgn * (getY m - getY x))
                  (sgn * (getX m - getX y)) (sgn * (getY m - getY y))
                  (- sgn * (getX p - getX m)) (- sgn * (getY p - getY m))
                  Hxm Hym Hv0 Hw0) as HA.
    destruct sgn_unit; subst sgn; lra. }
  apply Habc.
  pose proof (Hline a Ha) as La. pose proof (Hline b Hb) as Lb. pose proof (Hline c Hc) as Lc.
  rewrite !crossProduct_eq in *.
  apply (@parallel_common (getX m - getX x) (getY m - getY x)).
  - destruct sgn_unit; subst sgn; lra.
  - lra.
  - lra.
Qed.

End Chain.

(** *** Consecutive vertices of a path *)

Fixpoint pairs_of (l : list point) : list (point * point) :=
  match l with
  | a :: ((b :: _) as rest) => (a, b) :: pairs_of rest
  | _ => []
  end.

Fixpoint triples_of (l : list point) : list (point * point * point) :=
  match l with
  | a :: ((b :: rest') as rest) =>
      match rest' with
      | c :: _ => (a, b, c) :: triples_of rest
      | [] => []
      end
  | _ => []
  end.

Lemma pairs_of_app (X Y : list point) (m : point) :
  pairs_of (X ++ m :: Y) = pairs_of (X ++ [m]) ++ pairs_of (m :: Y).
Proof.
  induction X as [|a X IH].
  - reflexivity.
  - destruct X as [|b X].
    + reflexivity.
    + change (pairs_of ((a :: b :: X) ++ m :: Y)) with ((a, b) :: pairs_of ((b :: X) ++ m :: Y)).
      change (pairs_of ((a :: b :: X) ++ [m])) with ((a, b) :: pairs_of ((b :: X) ++ [m])).
      rewrite IH. reflexivity.
Qed.

Lemma triples_of_app (X Y : list point) (a b : point) :
  triples_of (X ++ a :: b :: Y) = triples_of (X ++ [a; b]) ++ triples_of (a :: b :: Y).
Proof.
  induction X as [|x X IH].
  - reflexivity.
  - destruct X as [|y X].
    + reflexivity.
    + destruct X as [|z X].
      * change (triples_of ([x; y] ++ a :: b :: Y))
          with ((x, y, a) :: triples_of ([y] ++ a :: b :: Y)).
        change (triples_of ([x; y] ++ [a; b])) with ((x, y, a) :: triples_of ([y] ++ [a; b])).
        rewrite IH. reflexivity.
      * change (triples_of ((x :: y :: z :: X) ++ a :: b :: Y))
          with ((x, y, z) :: triples_of ((y :: z :: X) ++ a :: b :: Y)).
        change (triples_of ((x :: y :: z :: X) ++ [a; b]))
          with ((x, y, z) :: triples_of ((y :: z :: X) ++ [a; b])).
        rewrite IH. reflexivity.
Qed.

Lemma pairs_of_nth (l : list point) (i : nat) :
  (i + 1 < length l)%nat -> In (at_ l i, at_ l (i + 1)) (pairs_of l).
Proof.
  unfold at_. revert i. induction l as [|a l IH]; intros i Hi; [simpl in Hi; lia|].
  destruct l as [|b l]; [simpl in Hi; lia|].
  destruct i as [|i].
  - left. reflexivity.
  - right. apply (IH i). simpl in *. lia.
Qed.

Lemma triples_of_nth (l : list point) (i : nat) :
  (i + 2 < length l)%nat -> In (at_ l i, at_ l (i + 1), at_ l (i + 2)) (triples_of l).
Proof.
  unfold at_. revert i. induction l as [|a l IH]; intros i Hi; [simpl in Hi; lia|].
  destruct l as [|b l]; [simpl in Hi; lia|].
  destruct l as [|c l]; [simpl in Hi; lia|].
  destruct i as [|i].
  - left. reflexivity.
  - right. apply (IH i). simpl in *. lia.
Qed.

Definition edges_left (P path : list point) : Prop :=
  forall a b, In (a, b) (pairs_of path) -> forall p, In p P -> 0 <= crossProduct a b p.

Definition turns_left (path : list point) : Prop :=
  forall a b c, In (a, b, c) (triples_of path) -> 0 < crossProduct a b c.

Definition ascending (sgn : R) (path : list point) : Prop :=
  forall a b, In (a, b) (pairs_of path) -> dle sgn a b /\ a <> b.

Lemma chain_ok_rev (sgn : R) (P st : list point) :
  chain_ok sgn P st ->
  edges_left P (rev st) /\ turns_left (rev st) /\ ascending sgn (rev st).
Proof.
  assert (Hnone : forall l : list point,
             pairs_of l = [] -> triples_of l = [] ->
             edges_left P l /\ turns_left l /\ ascending sgn l).
  { intros l E1 E2. unfold edges_left, turns_left, ascending. rewrite E1, E2.
    split; [intros ? ? [] | split; [intros ? ? ? [] | intros ? ? []]]. }
  induction st as [|c st IH]; [intros _; now apply Hnone|].
  destruct st as [|b r]; [intros _; now apply Hnone|].
  intro Hok. pose proof Hok as Hok'.
  cbn [chain_ok] in Hok'. destruct Hok' as (Hbc & Hne & Hleft & Hturn & Hrest).
  destruct (IH Hrest) as (IH1 & IH2 & IH3).
  assert (Epairs : pairs_of (rev (c :: b :: r)) = pairs_of (rev (b :: r)) ++ [(b, c)]).
  { cbn [rev]. rewrite <- app_assoc. cbn [app]. rewrite pairs_of_app. reflexivity. }
  assert (Etriples : triples_of (rev (c :: b :: r))
                     = triples_of (rev (b :: r))
                       ++ match r with a :: _ => [(a, b, c)] | [] => [] end).
  { destruct r as [|a r'].
    - reflexivity.
    - cbn [rev]. rewrite <- !app_assoc. cbn [app].
      rewrite (triples_of_app (rev r') [c] a b). reflexivity. }
  split; [|split].
  - intros x y Hxy. rewrite Epairs in Hxy. apply in_app_or in Hxy.
    destruct Hxy as [Hxy | [Hxy | []]]; [now apply IH1|].
    injection Hxy as <- <-. exact Hleft.
  - intros x y z Hxyz. rewrite Etriples in Hxyz. apply in_app_or in Hxyz.
    destruct Hxyz as [Hxyz | Hxyz]; [now apply IH2|].
    destruct r as [|a r']; [destruct Hxyz|].
    destruct Hxyz as [Hxyz | []]. injection Hxyz as <- <- <-. exact Hturn.
  - intros x y Hxy. rewrite Epairs in Hxy. apply in_app_or in Hxy.
    destruct Hxy as [Hxy | [Hxy | []]]; [now apply IH3|].
    injection Hxy as <- <-. auto.
Qed.

(** ** convexHull *)

Definition not_all_collinear (points : list point) : Prop :=
  exists a b c : point,
    In a points /\ In b points /\ In c points /\ (crossProduct a b c : R) <> 0.

(** [v] is a corner of the convex hull of [points]: some line through
    [v] has every other point strictly on one side of it.  [(nx, ny)] is
    the normal of the line, on the side of the points.  A point inside
    the hull, or inside one of its edges, is no corner. *)
Definition hull_corner (points : list point) (v : point) : Prop :=
  exists nx ny : R,
    forall p, In p points -> p <> v ->
              0 < nx * (getX p - getX v) + ny * (getY p - getY v).

(** What it is for the vertex list [H] to be the convex hull of [points],
    counter-clockwise and closed: it ends where it starts; going round,
    no vertex comes twice; its vertices are input points; every input
    point is on the left of every edge or on it; at every vertex, the
    closing one included, the boundary turns left; and its vertices are
    the corners of the hull of the input, all of them and nothing else. *)
Record closed_ccw_hull (points H : list point) : Prop := {
  hull_length : (4 <= length H)%nat;
  hull_closed : last H Cartesian_default = hd Cartesian_default H;
  hull_nodup : NoDup (removelast H);
  hull_vertices : forall v, In v H -> In v points;
  hull_encloses :
    forall i p, (i + 1 < length H)%nat -> In p points ->
                0 <= crossProduct (at_ H i) (at_ H (i + 1)) p;
  hull_ccw :
    forall i, (i + 2 < length H)%nat ->
              0 < crossProduct (at_ H i) (at_ H (i + 1)) (at_ H (i + 2));
  hull_ccw_closing : 0 < crossProduct (at_ H (length H - 2)) (at_ H 0) (at_ H 1);
  hull_corners : forall v, In v H -> hull_corner points v;
  hull_complete : forall v, In v points -> hull_corner points v -> In v H
}.

Lemma two_last (A : Type) (l : list A) :
  (2 <= length l)%nat -> exists init x y, l = init ++ [x; y].
Proof.
  intro Hl.
  destruct (last_or_nil l) as [-> | (l1 & y & ->)]; [simpl in Hl; lia|].
  destruct (last_or_nil l1) as [-> | (l2 & x & ->)]; [simpl in Hl; lia|].
  exists l2, x, y. now rewrite <- app_assoc.
Qed.

Lemma at_snoc2 (K : list point) (u z : point) :
  at_ (K ++ [u; z]) (length (K ++ [u; z]) - 2) = u
  /\ last (K ++ [u; z]) Cartesian_default = z.
Proof.
  split.
  - unfold at_. rewrite length_app. cbn [length].
    replace (length K + 2 - 2)%nat with (length K) by lia.
    rewrite app_nth2 by lia. now rewrite Nat.sub_diag.
  - change [u; z] with ([u] ++ [z]). rewrite app_assoc. apply last_last.
Qed.

Lemma ascending_lt (sgn : R) (l : list point) :
  sgn = 1 \/ sgn = -1 -> ascending sgn l ->
  forall (l1 l2 : list point) (a b : point),
    l = l1 ++ a :: l2 -> In b l2 -> dle sgn a b /\ a <> b.
Proof.
  intros Hs Hasc l1 l2. revert l l1 Hasc.
  induction l2 as [|c l2 IH]; intros l l1 Hasc a b El Hb; [destruct Hb|].
  assert (Hac : dle sgn a c /\ a <> c).
  { apply Hasc. rewrite El, pairs_of_app. apply in_or_app. right. now left. }
  destruct Hb as [<- | Hb]; [exact Hac|].
  destruct (IH l (l1 ++ [a]) Hasc c b) as [Hcb Hne].
  - rewrite El, <- app_assoc. reflexivity.
  - exact Hb.
  - destruct Hac as [Hac Hne'].
    split; [eapply dle_trans; eassumption|].
    intros <-. apply Hne'. apply (dle_antisym Hs); assumption.
Qed.

Lemma ascending_NoDup (sgn : R) (l : list point) :
  sgn = 1 \/ sgn = -1 -> ascending sgn l -> NoDup l.
Proof.
  intros Hs Hasc.
  assert (H : forall l1 l2, l = l1 ++ l2 -> NoDup l2).
  { intros l1 l2. revert l1. induction l2 as [|a l2 IH]; intros l1 El; constructor.
    - intro Hin. destruct (@ascending_lt sgn l Hs Hasc l1 l2 a a El Hin) as [_ Hne]. now apply Hne.
    - apply (IH (l1 ++ [a])). rewrite El, <- app_assoc. reflexivity. }
  apply (H []). reflexivity.
Qed.

(** A vertex at which the boundary turns left, with all points on the
    left of both its edges, is a corner: the line through it along the
    chord of its two neighbours has every other point strictly on its
    left. *)
Lemma corner_supporting (points : list point) (a v e : point) :
  (forall p, In p points -> 0 <= crossProduct a v p) ->
  (forall p, In p points -> 0 <= crossProduct v e p) ->
  0 < crossProduct a v e ->
  hull_corner points v.
Proof.
  intros H1 H2 Hturn.
  exists (- (getY e - getY a)), (getX e - getX a).
  intros p Hp Hne.
  pose proof (H1 p Hp) as P1. pose proof (H2 p Hp) as P2.
  rewrite !crossProduct_eq in *.
  set (dx := getX v - getX a) in *. set (dy := getY v - getY a) in *.
  set (ex := getX e - getX v) in *. set (ey := getY e - getY v) in *.
  set (wx := getX p - getX v). set (wy := getY p - getY v).
  assert (Hde : 0 < dx * ey - dy * ex) by (unfold dx, dy, ex, ey in *; lra).
  assert (D : 0 <= dx * wy - dy * wx) by (unfold dx, dy, wx, wy in *; lra).
  assert (E : 0 <= ex * wy - ey * wx) by (unfold ex, ey, wx, wy in *; lra).
  replace (- (getY e - getY a) * wx + (getX e - getX a) * wy)
    with ((dx * wy - dy * wx) + (ex * wy - ey * wx))
    by (unfold dx, dy, ex, ey; ring).
  destruct (Rle_lt_or_eq_dec _ _ D) as [D' | D']; [lra|].
  destruct (Rle_lt_or_eq_dec _ _ E) as [E' | E']; [lra|].
  exfalso. apply Hne.
  assert (Wx : (dx * ey - dy * ex) * wx = 0).
  { replace ((dx * ey - dy * ex) * wx)
      with ((dx * wy - dy * wx) * ex - (ex * wy - ey * wx) * dx) by ring.
    rewrite <- D', <- E'. ring. }
  assert (Wy : (dx * ey - dy * ex) * wy = 0).
  { replace ((dx * ey - dy * ex) * wy)
      with ((dx * wy - dy * wx) * ey - (ex * wy - ey * wx) * dy) by ring.
    rewrite <- D', <- E'. ring. }
  apply Rmult_integral in Wx. apply Rmult_integral in Wy.
  apply point_eq; unfold wx, wy in *; lra.
Qed.

(** At a left turn [a], [h], [e], a point [w] on the left of both edges
    is no nearer along [(nx, ny)] than [h], when neither neighbour of [h]
    is. *)
Lemma corner_least (nx ny : R) (a h e w : point) :
  0 < crossProduct a h e ->
  0 <= crossProduct a h w ->
  0 <= crossProduct h e w ->
  0 <= nx * (getX a - getX h) + ny * (getY a - getY h) ->
  0 <= nx * (getX e - getX h) + ny * (getY e - getY h) ->
  0 <= nx * (getX w - getX h) + ny * (getY w - getY h).
Proof.
  rewrite !crossProduct_eq. intros Hturn W1 W2 Na Ne.
  set (dx := getX h - getX a) in *. set (dy := getY h - getY a) in *.
  set (ex := getX e - getX h) in *. set (ey := getY e - getY h) in *.
  set (wx := getX w - getX h) in *. set (wy := getY w - getY h) in *.
  assert (Hde : 0 < dx * ey - dy * ex) by (unfold dx, dy, ex, ey in *; lra).
  assert (D : 0 <= dx * wy - dy * wx) by (unfold dx, dy, wx, wy in *; lra).
  assert (Nd : 0 <= - (nx * dx + ny * dy)) by (unfold dx, dy; lra).
  assert (I : (dx * ey - dy * ex) * (nx * wx + ny * wy)
              = (ex * wy - ey * wx) * - (nx * dx + ny * dy)
                + (dx * wy - dy * wx) * (nx * ex + ny * ey)) by ring.
  pose proof (Rmult_le_pos _ _ W2 Nd) as T1.
  pose proof (Rmult_le_pos _ _ D Ne) as T2.
  destruct (Rle_lt_dec 0 (nx * wx + ny * wy)) as [Hok | Hneg]; [exact Hok|].
  exfalso.
  assert (Hprod : (dx * ey - dy * ex) * (nx * wx + ny * wy) < 0).
  { replace 0 with ((dx * ey - dy * ex) * 0) by ring.
    apply Rmult_lt_compat_l; assumption. }
  lra.
Qed.

Lemma least_vertex (g : point -> R) (l : list point) :
  l <> [] -> exists x, In x l /\ forall y, In y l -> g x <= g y.
Proof.
  induction l as [|a l IH]; [contradiction|]. intros _.
  destruct l as [|b l].
  - exists a. split; [now left|]. intros y [<- | []]. lra.
  - destruct IH as (x & Hx & Hmin); [discriminate|].
    destruct (Rle_lt_dec (g a) (g x)) as [Hax | Hxa].
    + exists a. split; [now left|].
      intros y [<- | Hy]; [lra|]. specialize (Hmin y Hy). lra.
    + exists x. split; [now right|].
      intros y [<- | Hy]; [lra | now apply Hmin].
Qed.

Lemma In_point_dec (v : point) (l : list point) : In v l \/ ~ In v l.
Proof.
  induction l as [|a l IH]; [right; intros []|].
  destruct (point_eq_dec a v) as [-> | Hne]; [left; now left|].
  destruct IH as [Hin | Hnot]; [left; now right|].
  right. intros [E | Hin]; [now apply Hne | now apply Hnot].
Qed.

(** *** The corners of a closed counter-clockwise boundary *)

Section Corners.

Variables (P H : list point).

Hypothesis H_length : (4 <= length H)%nat.
Hypothesis H_closed : last H Cartesian_default = hd Cartesian_default H.
Hypothesis H_vertices : forall v, In v H -> In v P.
Hypothesis H_encloses :
  forall i p, (i + 1 < length H)%nat -> In p P ->
              0 <= crossProduct (at_ H i) (at_ H (i + 1)) p.
Hypothesis H_ccw :
  forall i, (i + 2 < length H)%nat ->
            0 < crossProduct (at_ H i) (at_ H (i + 1)) (at_ H (i + 2)).
Hypothesis H_closing : 0 < crossProduct (at_ H (length H - 2)) (at_ H 0) (at_ H 1).

(** Every vertex has a vertex before it and a vertex after it, the
    boundary turns left there, and all points are on the left of the two
    edges. *)
Lemma vertex_neighbours (v : point) :
  In v H ->
  exists a e : point,
    In a H /\ In e H /\ 0 < crossProduct a v e
    /\ (forall p, In p P -> 0 <= crossProduct a v p)
    /\ (forall p, In p P -> 0 <= crossProduct v e p).
Proof.
  intro Hv.
  destruct (In_nth H v Cartesian_default Hv) as (i & Hi & Ev).
  fold (at_ H i) in Ev. subst v.
  assert (Hin : forall j, (j < length H)%nat -> In (at_ H j) H)
    by (intros j Hj; now apply nth_In).
  assert (Hlast : at_ H (length H - 1) = at_ H 0).
  { rewrite <- last_at, H_closed. destruct H; reflexivity. }
  assert (Hfirst : exists a e : point,
             In a H /\ In e H /\ 0 < crossProduct a (at_ H 0) e
             /\ (forall p, In p P -> 0 <= crossProduct a (at_ H 0) p)
             /\ (forall p, In p P -> 0 <= crossProduct (at_ H 0) e p)).
  { exists (at_ H (length H - 2)), (at_ H 1).
    split; [apply Hin; lia|]. split; [apply Hin; lia|].
    split; [exact H_closing|]. split.
    - intros p Hp. rewrite <- Hlast.
      replace (length H - 1)%nat with (length H - 2 + 1)%nat by lia.
      apply H_encloses; [lia | exact Hp].
    - intros p Hp. apply (H_encloses 0%nat); [lia | exact Hp]. }
  destruct i as [|j]; [exact Hfirst|].
  destruct (Nat.eq_dec (S j) (length H - 1)) as [E | E]; [rewrite E, Hlast; exact Hfirst|].
  exists (at_ H j), (at_ H (S (S j))).
  split; [apply Hin; lia|]. split; [apply Hin; lia|].
  split; [|split].
  - replace (S j) with (j + 1)%nat by lia.
    replace (S (j + 1)) with (j + 2)%nat by lia. apply H_ccw. lia.
  - intros p Hp. replace (S j) with (j + 1)%nat by lia.
    apply H_encloses; [lia | exact Hp].
  - intros p Hp. replace (S (S j)) with (S j + 1)%nat by lia.
    apply H_encloses; [lia | exact Hp].
Qed.

Lemma vertices_corners (v : point) : In v H -> hull_corner P v.
Proof.
  intro Hv. destruct (@vertex_neighbours v Hv) as (a & e & _ & _ & Hturn & H1 & H2).
  exact (@corner_supporting P a v e H1 H2 Hturn).
Qed.

(** A corner of the input that were no vertex would be cut off by the
    two edges at the vertex nearest to its line. *)
Lemma corners_vertices (v : point) : In v P -> hull_corner P v -> In v H.
Proof.
  intros Hv (nx & ny & Hn).
  destruct (In_point_dec v H) as [Hin | Hnot]; [exact Hin | exfalso].
  set (g := fun p : point => nx * (getX p - getX v) + ny * (getY p - getY v)).
  destruct (@least_vertex g H) as (h & Hh & Hmin).
  { intros E. rewrite E in H_length. simpl in H_length. lia. }
  assert (Hpos : 0 < g h).
  { apply Hn; [now apply H_vertices|]. intros ->. now apply Hnot. }
  destruct (@vertex_neighbours h Hh) as (a & e & Ha & He & Hturn & H1 & H2).
  pose proof (Hmin a Ha) as Ga. pose proof (Hmin e He) as Ge.
  pose proof (@corner_least nx ny a h e v Hturn (H1 v Hv) (H2 v Hv)) as Hleast.
  unfold g in *. lra.
Qed.

End Corners.

(** *** The two chains put together

    [lo] is the chain of the increasing points and [up] the chain of the
    decreasing points, both from bottom to top: [lo] runs from the least
    point to the greatest and [up] runs back. *)

Section Glue.

Variables (P lo up : list point).

Hypothesis lo_edges : edges_left P lo.
Hypothesis lo_turns : turns_left lo.
Hypothesis lo_asc : ascending 1 lo.
Hypothesis up_edges : edges_left P up.
Hypothesis up_turns : turns_left up.
Hypothesis up_asc : ascending (-1) up.
Hypothesis lo_in : forall v, In v lo -> In v P.
Hypothesis up_in : forall v, In v up -> In v P.
Hypothesis lo_first : hd Cartesian_default lo = last up Cartesian_default.
Hypothesis lo_last : last lo Cartesian_default = hd Cartesian_default up.
Hypothesis lo_two : (2 <= length lo)%nat.
Hypothesis up_two : (2 <= length up)%nat.
Hypothesis spread : not_all_collinear P.

Let unit_pos : 1 = 1 \/ 1 = -1 := or_introl eq_refl.
Let unit_neg : -1 = 1 \/ -1 = -1 := or_intror eq_refl.

Lemma dle_flip (p q : point) : dle (-1) p q <-> dle 1 q p.
Proof. rewrite dle_lex_conv, dle_lex. reflexivity. Qed.

(** No vertex strictly inside [up] is a vertex of [lo]. *)
Lemma chains_disjoint (v : point) :
  In v lo -> In v (removelast (tl up)) -> False.
Proof.
  intros Hlo Hup.
  destruct up as [|M rest] eqn:Eup; [simpl in up_two; lia|].
  destruct rest as [|y B]; [simpl in up_two; lia|].
  cbn [tl] in Hup.
  assert (Hrest : y :: B = removelast (y :: B) ++ [last (y :: B) Cartesian_default])
    by (apply app_removelast_last; discriminate).
  set (mid := removelast (y :: B)) in *.
  assert (Hm0 : last (M :: y :: B) Cartesian_default = last (y :: B) Cartesian_default)
    by reflexivity.
  set (m0 := last (y :: B) Cartesian_default) in *.
  (* [v] lies strictly between the ends of [up] *)
  apply in_split in Hup. destruct Hup as (u1 & u2 & Emid).
  assert (Eup1 : M :: y :: B = (M :: u1) ++ v :: (u2 ++ [m0])).
  { rewrite Hrest, Emid. cbn [app]. rewrite <- app_assoc. reflexivity. }
  assert (Hvm0 : dle (-1) v m0 /\ v <> m0).
  { apply (@ascending_lt (-1) (M :: y :: B) unit_neg up_asc (M :: u1) (u2 ++ [m0]) v m0 Eup1).
    apply in_or_app. right. now left. }
  (* the neighbour of [v] in [up] on the side of [M] *)
  destruct (last_or_nil (M :: u1)) as [E | (u1' & g & Eg)]; [discriminate|].
  assert (Eup2 : M :: y :: B = u1' ++ g :: v :: (u2 ++ [m0])).
  { rewrite Eup1, Eg, <- app_assoc. reflexivity. }
  assert (Hgv_pair : In (g, v) (pairs_of (M :: y :: B))).
  { rewrite Eup2, pairs_of_app. apply in_or_app. right. now left. }
  destruct (up_asc g v Hgv_pair) as [Hgv Hgv'].
  assert (Hg : In g P).
  { apply up_in. rewrite Eup2. apply in_or_app. right. now left. }
  (* the neighbours of [v] in [lo] *)
  apply in_split in Hlo. destruct Hlo as (l1 & l2 & Elo).
  destruct l1 as [|h l1].
  { exfalso. rewrite Elo in lo_first. cbn [app hd] in lo_first.
    rewrite Hm0 in lo_first. tauto. }
  destruct l2 as [|e l2].
  { exfalso. rewrite Elo in lo_last. rewrite last_last in lo_last. cbn [hd] in lo_last.
    subst v.
    destruct (@ascending_lt (-1) (M :: y :: B) unit_neg up_asc [] (y :: B) M M eq_refl) as [_ Hne].
    - rewrite Hrest, Emid. apply in_or_app. left. apply in_or_app. right. now left.
    - now apply Hne. }
  destruct (last_or_nil (h :: l1)) as [E | (l1' & a & Ea)]; [discriminate|].
  assert (Elo2 : lo = l1' ++ a :: v :: e :: l2).
  { rewrite Elo, Ea, <- app_assoc. reflexivity. }
  assert (Hav_pair : In (a, v) (pairs_of lo)).
  { rewrite Elo2, pairs_of_app. apply in_or_app. right. now left. }
  assert (Hturn : In (a, v, e) (triples_of lo)).
  { rewrite Elo2, triples_of_app. apply in_or_app. right. now left. }
  destruct (lo_asc a v Hav_pair) as [Hav Hav'].
  assert (Ha : In a P).
  { apply lo_in. rewrite Elo2. apply in_or_app. right. now left. }
  assert (He : In e P).
  { apply lo_in. rewrite Elo2. apply in_or_app. right. right. right. now left. }
  pose proof (lo_edges a v Hav_pair g Hg) as F1.
  pose proof (up_edges g v Hgv_pair a Ha) as F2.
  pose proof (up_edges g v Hgv_pair e He) as F3.
  pose proof (lo_turns a v e Hturn) as F4.
  apply dle_flip in Hgv.
  pose proof (dle_neq unit_pos Hav Hav') as Hd0.
  assert (Hvg' : v <> g) by (intros ->; now apply Hgv').
  pose proof (dle_neq unit_pos Hgv Hvg') as Hg0.
  rewrite !crossProduct_eq in *. unfold dle in *.
  pose proof (@hp_parallel_side
                (1 * (getX v - getX a)) (1 * (getY v - getY a))
                (1 * (getX g - getX v)) (1 * (getY g - getY v))
                (- (getX e - getX v)) (- (getY e - getY v))
                Hav Hgv Hd0 Hg0) as HA.
  lra.
Qed.

Lemma two_first (A : Type) (l : list A) :
  (2 <= length l)%nat -> exists a b rest, l = a :: b :: rest.
Proof.
  destruct l as [|a [|b rest]]; simpl; intro; try lia. now exists a, b, rest.
Qed.

(** The ends of the two chains and the left turns where they meet. *)
Lemma glue_ends :
  exists (A A' B B' : list point) (x M m0 l1 y u : point),
    lo = A ++ [x; M] /\ lo = m0 :: l1 :: A'
    /\ up = M :: y :: B /\ up = B' ++ [u; m0]
    /\ 0 < crossProduct x M y /\ 0 < crossProduct u m0 l1.
Proof.
  destruct (two_last lo lo_two) as (A & x & M & Elo1).
  destruct (two_first lo lo_two) as (m0 & l1 & A' & Elo2).
  destruct (two_first up up_two) as (M' & y & B & Eup1).
  destruct (two_last up up_two) as (B' & u & z & Eup2).
  assert (EM : M = M').
  { pose proof lo_last as H. rewrite Elo1 in H at 1. rewrite Eup1 in H.
    change [x; M] with ([x] ++ [M]) in H. rewrite app_assoc, last_last in H. exact H. }
  assert (Ez : m0 = z).
  { pose proof lo_first as H. rewrite Elo2 in H at 1. rewrite Eup2 in H.
    change [u; z] with ([u] ++ [z]) in H. rewrite app_assoc, last_last in H. exact H. }
  subst M' z.
  exists A, A', B, B', x, M, m0, l1, y, u.
  repeat (split; [assumption|]).
  assert (PxM : In (x, M) (pairs_of lo)).
  { rewrite Elo1, pairs_of_app. apply in_or_app. right. now left. }
  assert (PMy : In (M, y) (pairs_of up)) by (rewrite Eup1; now left).
  assert (Pum : In (u, m0) (pairs_of up)).
  { rewrite Eup2, pairs_of_app. apply in_or_app. right. now left. }
  assert (Pml : In (m0, l1) (pairs_of lo)) by (rewrite Elo2; now left).
  destruct (lo_asc x M PxM) as [HxM HxM'].
  destruct (up_asc M y PMy) as [HMy HMy'].
  destruct (up_asc u m0 Pum) as [Hum Hum'].
  destruct (lo_asc m0 l1 Pml) as [Hml Hml'].
  assert (HyM : dle 1 y M) by now apply dle_flip.
  assert (HyM' : y <> M) by (intros ->; now apply HMy').
  assert (Hy : In y P) by (apply up_in; rewrite Eup1; right; now left).
  assert (Hlm : dle (-1) l1 m0) by now apply dle_flip.
  assert (Hlm' : l1 <> m0) by (intros ->; now apply Hml').
  assert (Hl : In l1 P) by (apply lo_in; rewrite Elo2; right; now left).
  split.
  - exact (@junction 1 unit_pos P x M y HxM HxM' HyM HyM' Hy
             (lo_edges x M PxM) (up_edges M y PMy) spread).
  - exact (@junction (-1) unit_neg P u m0 l1 Hum Hum' Hlm Hlm' Hl
             (up_edges u m0 Pum) (lo_edges m0 l1 Pml) spread).
Qed.

Theorem glue : closed_ccw_hull P (lo ++ tl up).
Proof.
  destruct glue_ends as (A & A' & B & B' & x & M & m0 & l1 & y & u
                         & Elo1 & Elo2 & Eup1 & Eup2 & J1 & J2).
  assert (Etl : tl up = y :: B) by (rewrite Eup1; reflexivity).
  set (H := lo ++ tl up).
  (* the edges and the corners of [H] *)
  assert (Epairs : pairs_of H = pairs_of lo ++ pairs_of up).
  { unfold H. rewrite Etl. rewrite Elo1 at 1.
    replace ((A ++ [x; M]) ++ y :: B) with ((A ++ [x]) ++ M :: y :: B)
      by (rewrite <- !app_assoc; reflexivity).
    rewrite pairs_of_app. rewrite <- app_assoc. cbn [app].
    rewrite <- Elo1, <- Eup1. reflexivity. }
  assert (Etriples : triples_of H = triples_of lo ++ (x, M, y) :: triples_of up).
  { unfold H. rewrite Etl. rewrite Elo1 at 1.
    replace ((A ++ [x; M]) ++ y :: B) with (A ++ x :: M :: y :: B)
      by (rewrite <- !app_assoc; reflexivity).
    rewrite triples_of_app. rewrite <- Elo1.
    change (triples_of (x :: M :: y :: B)) with ((x, M, y) :: triples_of (M :: y :: B)).
    rewrite <- Eup1. reflexivity. }
  assert (Hfront : H = m0 :: l1 :: (A' ++ tl up)) by (unfold H; rewrite Elo2; reflexivity).
  assert (Hback : exists K, H = K ++ [u; m0]).
  { unfold H. destruct B' as [|b B''].
    - cbn [app] in Eup2. rewrite Eup2. cbn [tl].
      assert (M = u) by congruence. subst u.
      exists (A ++ [x]). rewrite Elo1, <- !app_assoc. reflexivity.
    - rewrite Eup2. cbn [app tl]. exists (lo ++ B''). rewrite <- app_assoc. reflexivity. }
  destruct Hback as (K & Hback).
  destruct (at_snoc2 K u m0) as [Hu Hm0]. rewrite <- Hback in Hu, Hm0.
  assert (Hlen : (4 <= length H)%nat).
  { assert (Hl : length H = (length lo + S (length B))%nat)
      by (unfold H; rewrite Etl, length_app; reflexivity).
    destruct A' as [|a2 A'']; [|rewrite Hl, Elo2; simpl; lia].
    destruct B as [|b2 B'']; [exfalso|rewrite Hl, Elo2; simpl; lia].
    assert (length A = 0%nat).
    { apply (f_equal (@length point)) in Elo1. rewrite Elo2, length_app in Elo1.
      simpl in Elo1. lia. }
    destruct A; [|discriminate].
    assert (length B' = 0%nat).
    { apply (f_equal (@length point)) in Eup2. rewrite Eup1, length_app in Eup2.
      simpl in Eup2. lia. }
    destruct B'; [|discriminate].
    cbn [app] in *.
    assert (x = m0) by congruence. assert (y = m0) by congruence. subst x y.
    rewrite crossProduct_start in J1. lra. }
  assert (Henc : forall i p, (i + 1 < length H)%nat -> In p P ->
                             0 <= crossProduct (at_ H i) (at_ H (i + 1)) p).
  { intros i p Hi Hp. pose proof (pairs_of_nth H i Hi) as Hin.
    rewrite Epairs in Hin. apply in_app_or in Hin.
    destruct Hin as [Hin | Hin]; [exact (lo_edges _ _ Hin p Hp) | exact (up_edges _ _ Hin p Hp)]. }
  assert (Hccw : forall i, (i + 2 < length H)%nat ->
                           0 < crossProduct (at_ H i) (at_ H (i + 1)) (at_ H (i + 2))).
  { intros i Hi. pose proof (triples_of_nth H i Hi) as Hin.
    rewrite Etriples in Hin. apply in_app_or in Hin.
    destruct Hin as [Hin | [Hin | Hin]].
    - exact (lo_turns _ _ _ Hin).
    - injection Hin as <- <- <-. exact J1.
    - exact (up_turns _ _ _ Hin). }
  assert (H0 : at_ H 0 = m0) by (rewrite Hfront; reflexivity).
  assert (H1 : at_ H 1 = l1) by (rewrite Hfront; reflexivity).
  assert (Hclosing : 0 < crossProduct (at_ H (length H - 2)) (at_ H 0) (at_ H 1)).
  { rewrite Hu, H0, H1. exact J2. }
  assert (Hclosed : last H Cartesian_default = hd Cartesian_default H)
    by (rewrite Hm0, Hfront; reflexivity).
  assert (Hvertices : forall v, In v H -> In v P).
  { intros v Hv. unfold H in Hv. apply in_app_or in Hv.
    destruct Hv as [Hv | Hv]; [now apply lo_in|].
    apply up_in. rewrite Eup1. right. rewrite <- Etl. exact Hv. }
  constructor.
  - exact Hlen.
  - exact Hclosed.
  - unfold H. rewrite removelast_app by (rewrite Etl; discriminate).
    apply NoDup_app.
    + apply (@ascending_NoDup 1); [exact unit_pos | exact lo_asc].
    + pose proof (@ascending_NoDup (-1) up unit_neg up_asc) as Hnd.
      rewrite Eup1 in Hnd. apply NoDup_cons_iff in Hnd. destruct Hnd as [_ Hnd].
      rewrite Etl.
      rewrite (app_removelast_last Cartesian_default (l := y :: B)) in Hnd by discriminate.
      apply NoDup_app_remove_r in Hnd. exact Hnd.
    + intros v Hv1 Hv2. exact (chains_disjoint v Hv1 Hv2).
  - exact Hvertices.
  - exact Henc.
  - exact Hccw.
  - exact Hclosing.
  - intros v Hv. now apply (@vertices_corners P H).
  - intros v Hv Hcorner. now apply (@corners_vertices P H).
Qed.

End Glue.

(** *** The two loops on the sorted points *)

Lemma StronglySorted_weaken (R1 R2 : point -> point -> Prop) (l : list point) :
  (forall x y, R1 x y -> R2 x y) -> StronglySorted R1 l -> StronglySorted R2 l.
Proof.
  intros HR Hs. induction Hs as [|a l Hs IH Ha]; constructor.
  - exact IH.
  - rewrite Forall_forall in *. intros x Hx. apply HR. now apply Ha.
Qed.

Lemma StronglySorted_snoc (R0 : point -> point -> Prop) (l : list point) (a : point) :
  StronglySorted R0 l -> (forall x, In x l -> R0 x a) -> StronglySorted R0 (l ++ [a]).
Proof.
  intros Hs Ha. induction Hs as [|b l Hs IH Hb]; cbn [app].
  - constructor; [constructor | constructor].
  - constructor.
    + apply IH. intros x Hx. apply Ha. now right.
    + rewrite Forall_forall in *. intros x Hx. apply in_app_or in Hx.
      destruct Hx as [Hx | [<- | []]]; [now apply Hb | apply Ha; now left].
Qed.

Lemma StronglySorted_rev (R0 : point -> point -> Prop) (l : list point) :
  StronglySorted R0 l -> StronglySorted (fun x y => R0 y x) (rev l).
Proof.
  intro Hs. induction Hs as [|a l Hs IH Ha]; cbn [rev].
  - constructor.
  - apply StronglySorted_snoc; [exact IH|].
    rewrite Forall_forall in Ha. intros x Hx. apply Ha. now apply in_rev.
Qed.

Lemma hd_rev_last (l : list point) :
  hd Cartesian_default (rev l) = last l Cartesian_default.
Proof.
  destruct (last_or_nil l) as [-> | (init & m & ->)]; [reflexivity|].
  rewrite rev_app_distr, last_last. reflexivity.
Qed.

Lemma last_rev_hd (l : list point) :
  last (rev l) Cartesian_default = hd Cartesian_default l.
Proof.
  destruct l as [|a l]; [reflexivity|]. cbn [rev hd]. apply last_last.
Qed.

Lemma Good_two (sgn : R) (st P : list point) :
  sgn = 1 \/ sgn = -1 ->
  Good sgn st P -> (exists x y, In x P /\ In y P /\ x <> y) -> (2 <= length st)%nat.
Proof.
  intros Hs (G1 & G2 & G3 & G4 & _) (x & y & Hx & Hy & Hxy).
  destruct st as [|t [|s r]]; [contradiction | exfalso | simpl; lia].
  unfold top, bottom in *. cbn [hd last] in *.
  apply Hxy. transitivity t.
  - apply (dle_antisym Hs); auto.
  - apply (dle_antisym Hs); auto.
Qed.

Lemma top_in (st : list point) : st <> [] -> In (top st) st.
Proof. destruct st; [contradiction | intros _; now left]. Qed.

(** Where the claim speaks of the input: the vertices of all polygons. *)
Definition input_points (polygons : list polygon) : list point :=
  flat_map getVertices polygons.

(** When the points are not all on one line (so that there are at least
    three of them), the two chains joined are the convex hull of the
    points, counter-clockwise and closed, over the real numbers. *)
Lemma convexHull_closed_ccw_hull (polygons : list polygon) :
  not_all_collinear (input_points polygons) ->
  closed_ccw_hull (input_points polygons) (getVertices (convexHull polygons)).
Proof.
  intro Hspread. rewrite convexHull_chains.
  fold (input_points polygons).
  set (points := input_points polygons) in *.
  set (sorted := sort points).
  assert (Hperm : forall p, In p points <-> In p sorted).
  { intro p. split; apply Permutation_in;
      [apply Permutation_sym|]; apply sort_perm. }
  assert (Hs1 : StronglySorted (dle 1) sorted).
  { apply (StronglySorted_weaken (R1 := lex_le)); [intros x y; apply dle_lex | apply sort_sorted]. }
  assert (Hs2 : StronglySorted (dle (-1)) (rev sorted)).
  { apply (StronglySorted_weaken (R1 := fun x y => lex_le y x));
      [intros x y; apply dle_lex_conv | apply StronglySorted_rev, sort_sorted]. }
  assert (Hdiff : exists x y, In x sorted /\ In y sorted /\ x <> y).
  { destruct Hspread as (a & b & c & Ha & Hb & Hc & Habc).
    exists a, b. split; [now apply Hperm|]. split; [now apply Hperm|].
    intros ->. apply Habc. apply crossProduct_twice. }
  assert (Hdiff' : exists x y, In x (rev sorted) /\ In y (rev sorted) /\ x <> y).
  { destruct Hdiff as (x & y & Hx & Hy & Hxy). exists x, y.
    split; [now apply -> in_rev|]. split; [now apply -> in_rev | exact Hxy]. }
  pose proof (@chain_Good 1 (or_introl eq_refl) sorted Hs1 Hdiff) as GL.
  pose proof (@chain_Good (-1) (or_intror eq_refl) (rev sorted) Hs2 Hdiff') as GU.
  pose proof (Good_two (or_introl eq_refl) GL Hdiff) as HL2.
  pose proof (Good_two (or_intror eq_refl) GU Hdiff') as HU2.
  destruct GL as (L1 & L2 & L3 & L4 & L5).
  destruct GU as (U1 & U2 & U3 & U4 & U5).
  destruct (@chain_ok_rev 1 _ _ L5) as (Le & Lt & La).
  destruct (@chain_ok_rev (-1) _ _ U5) as (Ue & Ut & Ua).
  set (L := chain sorted) in *. set (U := chain (rev sorted)) in *.
  assert (HinU : forall p, In p points <-> In p (rev sorted)).
  { intro p. rewrite Hperm. apply in_rev. }
  apply glue.
  - intros a b Hab p Hp. apply (Le a b Hab). now apply Hperm.
  - exact Lt.
  - exact La.
  - intros a b Hab p Hp. apply (Ue a b Hab). now apply HinU.
  - exact Ut.
  - exact Ua.
  - intros v Hv. apply Hperm, L2. now apply in_rev.
  - intros v Hv. apply HinU, U2. now apply in_rev.
  - (* the least point: the bottom of the first chain, the top of the second *)
    rewrite hd_rev_last, last_rev_hd. fold (bottom L) (top U).
    apply (@dle_antisym 1 (or_introl eq_refl)).
    + apply L4. apply in_rev, U2, top_in, U1.
    + apply dle_lex, dle_lex_conv. apply U3. apply -> in_rev. apply L2, bottom_in, L1.
  - rewrite hd_rev_last, last_rev_hd. fold (bottom U) (top L).
    apply (@dle_antisym 1 (or_introl eq_refl)).
    + apply dle_lex, dle_lex_conv. apply U4. apply -> in_rev. apply L2, top_in, L1.
    + apply L3. apply in_rev, U2, bottom_in, U1.
  - rewrite length_rev. exact HL2.
  - rewrite length_rev. exact HU2.
  - exact Hspread.
Qed.

(** *** What the library and the element type leave open

    [std::sort] may arrange equivalent elements as it likes, and the
    elements [hull] starts with are whatever the default constructor of
    [Cartesian] makes.  Neither shows in the result. *)

(** An arrangement [std::sort] may leave: no element is less than an
    earlier one. *)
Definition sorted_by_less (s : list point) : Prop :=
  StronglySorted (fun a b => Cartesian_ltb b a = false) s.

Lemma sorted_by_less_sort (points s : list point) :
  Permutation s points -> sorted_by_less s -> s = sort points.
Proof.
  intros Hperm Hs. apply sorted_unique.
  - apply (StronglySorted_weaken (R1 := fun a b => Cartesian_ltb b a = false)); [|exact Hs].
    intros x y H. apply not_lex_lt. intro Hlt. apply Cartesian_ltb_lex in Hlt. congruence.
  - apply sort_sorted.
  - eapply perm_trans; [exact Hperm | apply Permutation_sym, sort_perm].
Qed.

Lemma polygon_eq (P Q : polygon) : getVertices P = getVertices Q -> P = Q.
Proof. destruct P, Q. simpl. now intros ->. Qed.

Lemma hull_loops_any_arrangement (polygons : list polygon) (s hull0 : list point) :
  Permutation s (input_points polygons) ->
  sorted_by_less s ->
  length hull0 = (2 * length s)%nat ->
  hull_loops (length s) s hull0 = convexHull polygons.
Proof.
  intros Hperm Hs H0. apply polygon_eq.
  rewrite hull_loops_chains by exact H0.
  rewrite convexHull_chains.
  rewrite (sorted_by_less_sort Hperm Hs). reflexivity.
Qed.

End Exact.

(** * Machine arithmetic: the operations at concrete inputs *)

Module Machine.

Import IEEE754.

Definition point : Type := Cartesian arith.

(** A single-precision number given as [z * 2^e]. *)
Definition single (z e : Z) : spec_float := binary_normalize prec32 emax32 z e false.

Definition half : spec_float := mk 1 (-1).
Definition one : spec_float := mk 1 0.

(** Results are compared through their coordinates, which are plain
    floating-point data. *)
Definition coordinates (p : point) : spec_float * spec_float := (getX p, getY p).

Definition outcome_coordinates (o : outcome point) : option (spec_float * spec_float) :=
  match o with
  | Returned p => Some (coordinates p)
  | AssertionFailed => None
  end.

Definition segment_coordinates (s : Segment arith) :=
  (coordinates (fst s), coordinates (snd s)).

Lemma coordinates_eq (p q : point) : coordinates p = coordinates q -> p = q.
Proof. destruct p, q. unfold coordinates. simpl. intros [= -> ->]. reflexivity. Qed.

Lemma outcome_coordinates_eq (o : outcome point) (p : point) :
  outcome_coordinates o = Some (coordinates p) -> o = Returned p.
Proof.
  destruct o as [q|]; cbn [outcome_coordinates]; [|discriminate].
  intro H. f_equal. apply coordinates_eq. congruence.
Qed.

Lemma map_coordinates_eq (l l' : list point) :
  map coordinates l = map coordinates l' -> l = l'.
Proof.
  revert l'. induction l as [|p l IH]; intros [|q l']; cbn [map]; try discriminate.
  - reflexivity.
  - intro H. injection H as H1 H2 H3.
    f_equal; [apply coordinates_eq; unfold coordinates; congruence | now apply IH].
Qed.

Lemma segment_coordinates_eq (s s' : Segment arith) :
  segment_coordinates s = segment_coordinates s' -> s = s'.
Proof.
  destruct s, s'. unfold segment_coordinates. cbn [fst snd].
  intro H. injection H as H1 H2 H3 H4.
  f_equal; apply coordinates_eq; unfold coordinates; congruence.
Qed.

Lemma map_segment_coordinates_eq (l l' : list (Segment arith)) :
  map segment_coordinates l = map segment_coordinates l' -> l = l'.
Proof.
  revert l'. induction l as [|p l IH]; intros [|q l']; cbn [map]; try discriminate.
  - reflexivity.
  - intro H. injection H as H1 H2 H3 H4 H5.
    f_equal; [|now apply IH].
    apply segment_coordinates_eq. unfold segment_coordinates, coordinates. congruence.
Qed.

(** ** crossProduct on three points of one line *)

Lemma crossProduct_on_x_axis : crossProduct (pt 0 0) (pt 1 0) (pt 2 0) = mk 0 0.
Proof. vm_compute. reflexivity. Qed.

(** ** The two diagonals of the unit square *)

Definition diagonal_up : Segment arith := (pt 0 0, pt 1 1).
Definition diagonal_down : Segment arith := (pt 0 1, pt 1 0).

Lemma machine_diagonals_linesIntersect : linesIntersect diagonal_up diagonal_down = true.
Proof. vm_compute. reflexivity. Qed.

(** The steps of getIntersectionPoint on the diagonals, in single
    precision: [distAB] is the square root of 2 rounded, 1.41421354;
    [theCos] and [theSin] are 1 divided by it, rounded, 0.70710677;
    [ABpos] is the same number; and [ABpos * theCos], rounded, is
    0.49999997, the single-precision number next below one half. *)
Lemma single_sqrt_2 : fsqrt arith (single 2 0) = single 11863283 (-23).
Proof. vm_compute. reflexivity. Qed.

Lemma single_theCos : fdiv arith (single 1 0) (single 11863283 (-23)) = single 11863283 (-24).
Proof. vm_compute. reflexivity. Qed.

Lemma single_square :
  fmul arith (single 11863283 (-24)) (single 11863283 (-24)) = single 16777215 (-25).
Proof. vm_compute. reflexivity. Qed.

Lemma below_half : SFltb (mk 16777215 (-25)) half = true.
Proof. vm_compute. reflexivity. Qed.

Lemma machine_diagonals_getIntersectionPoint :
  getIntersectionPoint diagonal_up diagonal_down
  = Returned (mkCartesian (Ar:=arith) (mk 16777215 (-25)) (mk 16777215 (-25))).
Proof. apply outcome_coordinates_eq. vm_compute. reflexivity. Qed.

(** ** Two disjoint segments of one line *)

Definition on_axis_near : Segment arith := (pt 0 0, pt 1 0).
Definition on_axis_far : Segment arith := (pt 2 0, pt 3 0).

Lemma collinear_disjoint_linesIntersect : linesIntersect on_axis_near on_axis_far = true.
Proof. vm_compute. reflexivity. Qed.

(** The assertion of getIntersectionPoint passes on them, and the
    division by [b2y - b1y = 0] that follows gives no number. *)
Lemma collinear_disjoint_getIntersectionPoint :
  getIntersectionPoint on_axis_near on_axis_far
  = Returned (mkCartesian (Ar:=arith) S754_nan S754_nan).
Proof. apply outcome_coordinates_eq. vm_compute. reflexivity. Qed.

Lemma parallel_apart_linesIntersect :
  linesIntersect (pt 0 0, pt 1 0) (pt 0 1, pt 1 1) = false.
Proof. vm_compute. reflexivity. Qed.

(** ** The unit square *)

Definition unit_square : Polygon arith := mkPolygon [pt 0 0; pt 1 0; pt 1 1; pt 0 1].

Lemma machine_polygonArea_unit_square :
  Forall (fun k => polygonArea (rotated k unit_square) = one
                   /\ polygonArea (reversed (rotated k unit_square)) = one)
         [0; 1; 2; 3]%nat.
Proof.
  repeat (apply Forall_cons; [split; vm_compute; reflexivity|]). apply Forall_nil.
Qed.

(** ** The unit square of the third quadrant *)

Definition third_quadrant_square : Polygon arith :=
  mkPolygon [pt (-1) (-1); pt 0 (-1); pt 0 0; pt (-1) 0].

Lemma machine_third_quadrant_square_centroid :
  centroid third_quadrant_square = mkCartesian (Ar:=arith) half half.
Proof. apply coordinates_eq. vm_compute. reflexivity. Qed.

(** ** A triangle *)

Definition triangle : Polygon arith := mkPolygon [pt 0 0; pt 1 0; pt 0 1].

Lemma triangle_getLineSegments :
  getLineSegments triangle
  = Some [(pt 0 1, pt 0 0); (pt 0 0, pt 1 0); (pt 1 0, pt 0 1)].
Proof. reflexivity. Qed.

Lemma triangle_first_segment :
  segment_coordinates (pt 0 1, pt 0 0) <> segment_coordinates (pt 0 0, pt 1 0).
Proof. vm_compute. discriminate. Qed.

(** ** Two unit squares placed apart *)

Definition two_squares : list (Polygon arith) :=
  [mkPolygon [pt 0 0; pt 1 0; pt 1 1; pt 0 1];
   mkPolygon [pt 3 0; pt 4 0; pt 4 1; pt 3 1]].

Lemma two_squares_convexHull :
  getVertices (convexHull two_squares) = [pt 0 0; pt 4 0; pt 4 1; pt 0 1; pt 0 0].
Proof. apply map_coordinates_eq. vm_compute. reflexivity. Qed.

End Machine.
(** * When the machine arithmetic is exact

    A number [z * 2^t] with [z] an integer of at most [prec] bits is a
    datum of the format; sums, differences and products of such numbers
    that are again of that form are computed without rounding, and so
    are halving, comparison and the conversion between the two formats.
    This is proved here from the definitions of [SpecFloat]. *)

Module Dyadic.

Local Open Scope Z_scope.

Lemma digits2_pos_size (m : positive) : digits2_pos m = Pos.size m.
Proof. induction m as [m IH | m IH |]; simpl; try rewrite IH; reflexivity. Qed.

Lemma digits2_pos_log2 (m : positive) : Zpos (digits2_pos m) = Z.log2 (Zpos m) + 1.
Proof.
  rewrite digits2_pos_size. destruct m as [m | m |]; simpl; try reflexivity; lia.
Qed.

Lemma iter_xO (m d : positive) : Zpos (Pos.iter xO m d) = Zpos m * 2 ^ Zpos d.
Proof.
  revert m. induction d as [| d IH] using Pos.peano_ind; intro m.
  - simpl. lia.
  - rewrite Pos.iter_succ, Pos2Z.inj_succ, Z.pow_succ_r by lia.
    rewrite Pos2Z.inj_xO, IH. lia.
Qed.

Lemma shr_1_double (m : Z) :
  0 <= m -> shr_1 (Build_shr_record (2 * m) false false) = Build_shr_record m false false.
Proof. intro H. destruct m as [| p | p]; [reflexivity | reflexivity | lia]. Qed.

Lemma pow2_xO (n : positive) : 2 ^ Zpos n~0 = 2 ^ Zpos n * 2 ^ Zpos n.
Proof. replace (Zpos n~0) with (Zpos n + Zpos n) by lia. apply Z.pow_add_r; lia. Qed.

Lemma pow2_xI (n : positive) : 2 ^ Zpos n~1 = 2 * (2 ^ Zpos n * 2 ^ Zpos n).
Proof.
  replace (Zpos n~1) with (Z.succ (Zpos n~0)) by lia.
  rewrite Z.pow_succ_r by lia. now rewrite pow2_xO.
Qed.

Lemma iter_pos_shr_1 (n : positive) :
  forall m : Z, 0 <= m ->
    iter_pos shr_1 n (Build_shr_record (m * 2 ^ Zpos n) false false)
    = Build_shr_record m false false.
Proof.
  induction n as [n IH | n IH |]; intros m Hm.
  - cbn [iter_pos]. rewrite pow2_xI.
    replace (m * (2 * (2 ^ Zpos n * 2 ^ Zpos n))) with (2 * ((m * 2 ^ Zpos n) * 2 ^ Zpos n)) by ring.
    assert (0 < 2 ^ Zpos n) by (apply Z.pow_pos_nonneg; lia).
    rewrite shr_1_double by nia. rewrite IH by nia. apply IH, Hm.
  - cbn [iter_pos]. rewrite pow2_xO.
    replace (m * (2 ^ Zpos n * 2 ^ Zpos n)) with ((m * 2 ^ Zpos n) * 2 ^ Zpos n) by ring.
    assert (0 < 2 ^ Zpos n) by (apply Z.pow_pos_nonneg; lia).
    rewrite IH by nia. apply IH, Hm.
  - cbn [iter_pos]. change (2 ^ 1) with 2. rewrite Z.mul_comm. apply shr_1_double, Hm.
Qed.

Lemma Zdigits2_log2 (n : Z) : 0 < n -> Zdigits2 n = Z.log2 n + 1.
Proof. destruct n as [| p | p]; try lia. intros _. apply digits2_pos_log2. Qed.

Lemma pow2_pos (k : Z) : 0 <= k -> 0 < 2 ^ k.
Proof. intro H. apply Z.pow_pos_nonneg; lia. Qed.

(** *** Symmetries of the operations, for every operand

    These hold for all data, finite or not, and need no bound. *)






Section Format.

Variables prec emax : Z.
Hypothesis Hprec : 1 < prec.
Hypothesis Hemax : prec < emax.

(** The exponents [E] of the normal numbers of the format. *)
Definition normal_exponent (E : Z) : Prop := 3 - emax - prec <= E <= emax - prec.

Lemma fexp_normal (E : Z) : normal_exponent E -> fexp prec emax (prec + E) = E.
Proof. unfold normal_exponent, fexp, emin. lia. Qed.

(** Rounding a mantissa that is a full mantissa [M] followed by [k] zero
    bits: the bits are dropped and nothing is rounded. *)
Lemma binary_round_aux_exact (s : bool) (M : positive) (k E : Z) :
  Zpos (digits2_pos M) = prec -> 0 <= k -> normal_exponent E ->
  binary_round_aux prec emax s (Zpos M * 2 ^ k) (E - k) loc_Exact = S754_finite s M E.
Proof.
  intros Hd Hk HE. unfold binary_round_aux.
  assert (Hdig : Zdigits2 (Zpos M * 2 ^ k) = prec + k).
  { rewrite Zdigits2_log2 by (pose proof (pow2_pos Hk); nia).
    rewrite Z.log2_mul_pow2 by lia. rewrite digits2_pos_log2 in Hd. lia. }
  assert (Hshift : shr_fexp prec emax (Zpos M * 2 ^ k) (E - k) loc_Exact
                   = (Build_shr_record (Zpos M) false false, E)).
  { unfold shr_fexp. rewrite Hdig.
    replace (prec + k + (E - k)) with (prec + E) by lia.
    rewrite fexp_normal by exact HE.
    replace (E - (E - k)) with k by lia.
    unfold shr, shr_record_of_loc.
    destruct k as [| k | k]; [| | lia].
    - rewrite Z.mul_1_r, Z.sub_0_r. reflexivity.
    - rewrite iter_pos_shr_1 by lia. f_equal. lia. }
  rewrite Hshift. cbn [shr_m loc_of_shr_record round_nearest_even].
  assert (Hstay : shr_fexp prec emax (Zpos M) E loc_Exact
                  = (Build_shr_record (Zpos M) false false, E)).
  { unfold shr_fexp. cbn [Zdigits2]. rewrite Hd, fexp_normal by exact HE.
    rewrite Z.sub_diag. reflexivity. }
  rewrite Hstay. cbn [shr_m].
  destruct HE as [_ HE]. apply Z.leb_le in HE. rewrite HE. reflexivity.
Qed.

(** *** The normal number of a magnitude

    [canon s n t] is the number [± n * 2^t] of the format, for a
    magnitude [n] of at most [prec] bits: its mantissa is [n] followed by
    [lead n] zero bits. *)

Definition small (n : Z) : Prop := 0 < n < 2 ^ prec.

Definition fits (t : Z) : Prop := 2 - emax <= t <= emax - prec.

Definition lead (n : Z) : Z := prec - (Z.log2 n + 1).

Definition canon (s : bool) (n t : Z) : spec_float :=
  S754_finite s (Z.to_pos (n * 2 ^ lead n)) (t - lead n).

Lemma lead_range (n : Z) : small n -> 0 <= lead n < prec.
Proof.
  intros [H0 H1]. unfold lead.
  pose proof (Z.log2_nonneg n).
  assert (Z.log2 n < prec) by (apply Z.log2_lt_pow2; lia).
  lia.
Qed.

Lemma canon_mantissa (n : Z) :
  small n -> Zpos (Z.to_pos (n * 2 ^ lead n)) = n * 2 ^ lead n.
Proof.
  intro Hn. pose proof (lead_range Hn) as [Hl _]. pose proof (pow2_pos Hl).
  destruct Hn. rewrite Z2Pos.id; [reflexivity | nia].
Qed.

Lemma canon_digits (n : Z) :
  small n -> Zpos (digits2_pos (Z.to_pos (n * 2 ^ lead n))) = prec.
Proof.
  intro Hn. rewrite digits2_pos_log2, canon_mantissa by exact Hn.
  pose proof (lead_range Hn) as [Hl _]. destruct Hn.
  rewrite Z.log2_mul_pow2 by lia. unfold lead. lia.
Qed.

Lemma canon_exponent (n t : Z) : small n -> fits t -> normal_exponent (t - lead n).
Proof.
  intros Hn Ht. pose proof (lead_range Hn). unfold fits in Ht. unfold normal_exponent. lia.
Qed.

Lemma round_canon_aux (s : bool) (n j t : Z) :
  small n -> lead n <= j -> fits t ->
  binary_round_aux prec emax s (n * 2 ^ j) (t - j) loc_Exact = canon s n t.
Proof.
  intros Hn Hj Ht. pose proof (lead_range Hn) as [Hl _].
  replace (n * 2 ^ j) with (Zpos (Z.to_pos (n * 2 ^ lead n)) * 2 ^ (j - lead n)).
  - replace (t - j) with (t - lead n - (j - lead n)) by lia.
    apply binary_round_aux_exact; [apply canon_digits, Hn | lia | apply canon_exponent; assumption].
  - rewrite canon_mantissa by exact Hn. rewrite <- Z.mul_assoc, <- Z.pow_add_r by lia.
    do 2 f_equal. lia.
Qed.

Lemma round_canon (s : bool) (m : positive) (n j t : Z) :
  small n -> 0 <= j -> fits t -> Zpos m = n * 2 ^ j ->
  binary_round prec emax s m (t - j) = canon s n t.
Proof.
  intros Hn Hj Ht Hm. pose proof (lead_range Hn) as [Hl Hl'].
  unfold binary_round.
  assert (Hdig : Zpos (digits2_pos m) = prec + (j - lead n)).
  { rewrite digits2_pos_log2, Hm. destruct Hn. rewrite Z.log2_mul_pow2 by lia.
    unfold lead. lia. }
  rewrite Hdig.
  replace (prec + (j - lead n) + (t - j)) with (prec + (t - lead n)) by lia.
  rewrite fexp_normal by (apply canon_exponent; assumption).
  unfold shl_align.
  replace (t - lead n - (t - j)) with (j - lead n) by lia.
  destruct (j - lead n) as [| d | d] eqn:Ed.
  - rewrite Hm. apply round_canon_aux; [assumption | lia | assumption].
  - rewrite Hm. apply round_canon_aux; [assumption | lia | assumption].
  - rewrite iter_xO, Hm, <- Z.mul_assoc, <- Z.pow_add_r by lia.
    replace (j + Zpos d) with (lead n) by lia.
    replace (t - lead n) with (t - lead n - 0) at 1 by lia.
    replace (n * 2 ^ lead n) with (n * 2 ^ lead n * 2 ^ 0) by (rewrite Z.pow_0_r; ring).
    rewrite <- Z.mul_assoc, <- Z.pow_add_r by lia. rewrite Z.add_0_r, Z.sub_0_r.
    apply round_canon_aux; [assumption | lia | assumption].
Qed.

(** *** The number [z * 2^t], as the format's own rounding builds it *)

Definition dy (z t : Z) : spec_float := binary_normalize prec emax z t false.

Definition sign_of (z : Z) : bool := z <? 0.

Lemma normalize_canon (z j t : Z) :
  z <> 0 -> Z.abs z < 2 ^ prec -> 0 <= j -> fits t ->
  binary_normalize prec emax (z * 2 ^ j) (t - j) false = canon (sign_of z) (Z.abs z) t.
Proof.
  intros Hz Hb Hj Ht. pose proof (pow2_pos Hj) as Hp.
  unfold binary_normalize, sign_of.
  destruct (z * 2 ^ j) as [| m | m] eqn:Em.
  - nia.
  - assert (0 < z) by nia. replace (z <? 0) with false by (symmetry; apply Z.ltb_ge; lia).
    apply round_canon; [unfold small; lia | lia | assumption |].
    rewrite Z.abs_eq by lia. rewrite Em. reflexivity.
  - assert (z < 0) by nia. replace (z <? 0) with true by (symmetry; apply Z.ltb_lt; lia).
    apply round_canon; [unfold small; lia | lia | assumption |].
    rewrite Z.abs_neq by lia. lia.
Qed.

Lemma dy_canon (z t : Z) :
  z <> 0 -> Z.abs z < 2 ^ prec -> fits t -> dy z t = canon (sign_of z) (Z.abs z) t.
Proof.
  intros Hz Hb Ht. unfold dy.
  replace z with (z * 2 ^ 0) at 1 by (rewrite Z.pow_0_r; ring).
  replace t with (t - 0) at 1 by lia.
  apply normalize_canon; [assumption | assumption | lia | assumption].
Qed.

Lemma dy_scaled (z j t : Z) :
  Z.abs z < 2 ^ prec -> 0 <= j -> fits t -> dy (z * 2 ^ j) (t - j) = dy z t.
Proof.
  intros Hb Hj Ht. destruct (Z.eq_dec z 0) as [-> | Hz].
  - reflexivity.
  - unfold dy at 1. rewrite normalize_canon, dy_canon by assumption. reflexivity.
Qed.

Lemma dy_aligned (z t ez : Z) :
  Z.abs z < 2 ^ prec -> ez <= t -> fits t ->
  binary_normalize prec emax (z * 2 ^ (t - ez)) ez false = dy z t.
Proof.
  intros Hb Hez Ht. replace ez with (t - (t - ez)) at 2 by lia.
  apply dy_scaled; [exact Hb | lia | exact Ht].
Qed.

(** *** Representation

    [Rep x z t]: the datum [x] is the number [z * 2^t], with [z] an
    integer of at most [prec] bits; zero has either sign. *)

Definition is_zero (x : spec_float) : Prop :=
  match x with S754_zero _ => True | _ => False end.

Definition Rep (x : spec_float) (z t : Z) : Prop :=
  Z.abs z < 2 ^ prec /\ if z =? 0 then is_zero x else x = dy z t.

Lemma Rep_dy (z t : Z) : Z.abs z < 2 ^ prec -> Rep (dy z t) z t.
Proof.
  intro H. split; [exact H|]. destruct (Z.eqb_spec z 0) as [-> | _]; [exact I | reflexivity].
Qed.

Lemma Rep_zero (x : spec_float) (t : Z) : Rep x 0 t <-> is_zero x.
Proof.
  unfold Rep. cbn [Z.eqb Z.abs]. pose proof (@pow2_pos prec ltac:(lia)). tauto.
Qed.

Lemma Rep_nonzero (x : spec_float) (z t : Z) :
  z <> 0 -> fits t -> (Rep x z t <-> Z.abs z < 2 ^ prec /\ x = canon (sign_of z) (Z.abs z) t).
Proof.
  intros Hz Ht. unfold Rep. destruct (Z.eqb_spec z 0) as [E | _]; [contradiction|].
  split; intros [Hb Hx]; (split; [exact Hb|]).
  - rewrite Hx. now apply dy_canon.
  - rewrite Hx. symmetry. now apply dy_canon.
Qed.

Lemma cond_Zopp_sign (z : Z) : cond_Zopp (sign_of z) (Z.abs z) = z.
Proof. unfold cond_Zopp, sign_of. destruct (Z.ltb_spec z 0); lia. Qed.

Lemma abs_small (z : Z) : z <> 0 -> Z.abs z < 2 ^ prec -> small (Z.abs z).
Proof. unfold small. lia. Qed.

Lemma shl_align_fst (mx : positive) (ex ez : Z) :
  ez <= ex -> Zpos (fst (shl_align mx ex ez)) = Zpos mx * 2 ^ (ex - ez).
Proof.
  intro H. unfold shl_align. destruct (ez - ex) as [| d | d] eqn:E.
  - replace (ex - ez) with 0 by lia. cbn [fst]. lia.
  - lia.
  - cbn [fst]. rewrite iter_xO. do 2 f_equal. lia.
Qed.

(** The aligned mantissa of a normal number, at an exponent below its
    own. *)
Lemma aligned (s : bool) (n t ez : Z) (mx : positive) (ex : Z) :
  small n -> canon s n t = S754_finite s mx ex -> ez <= ex ->
  cond_Zopp s (Zpos (fst (shl_align mx ex ez))) = cond_Zopp s n * 2 ^ (t - ez).
Proof.
  intros Hn E Hez. injection E as Em Ee. pose proof (lead_range Hn) as [Hl _].
  rewrite shl_align_fst by exact Hez. rewrite <- Em, canon_mantissa by exact Hn.
  rewrite <- Z.mul_assoc, <- Z.pow_add_r by lia.
  replace (lead n + (ex - ez)) with (t - ez) by lia.
  unfold cond_Zopp. destruct s; ring.
Qed.

Lemma SFadd_canon (sa sb : bool) (a b t : Z) :
  small a -> small b -> fits t ->
  Z.abs (cond_Zopp sa a + cond_Zopp sb b) < 2 ^ prec ->
  SFadd prec emax (canon sa a t) (canon sb b t) = dy (cond_Zopp sa a + cond_Zopp sb b) t.
Proof.
  intros Ha Hb Ht Hc.
  destruct (canon sa a t) as [| | | s1 m1 e1] eqn:E1; try discriminate E1.
  destruct (canon sb b t) as [| | | s2 m2 e2] eqn:E2; try discriminate E2.
  assert (s1 = sa) by (injection E1; auto). assert (s2 = sb) by (injection E2; auto). subst s1 s2.
  assert (He1 : e1 <= t) by (injection E1; pose proof (lead_range Ha); lia).
  assert (He2 : e2 <= t) by (injection E2; pose proof (lead_range Hb); lia).
  cbn [SFadd]. cbv zeta. change (IntDef.Z.min e1 e2) with (Z.min e1 e2).
  rewrite (aligned Ha E1 (Z.le_min_l e1 e2)), (aligned Hb E2 (Z.le_min_r e1 e2)).
  rewrite <- Z.mul_add_distr_r.
  apply dy_aligned; [exact Hc | lia | exact Ht].
Qed.

Lemma SFsub_canon (sa sb : bool) (a b t : Z) :
  small a -> small b -> fits t ->
  Z.abs (cond_Zopp sa a - cond_Zopp sb b) < 2 ^ prec ->
  SFsub prec emax (canon sa a t) (canon sb b t) = dy (cond_Zopp sa a - cond_Zopp sb b) t.
Proof.
  intros Ha Hb Ht Hc.
  destruct (canon sa a t) as [| | | s1 m1 e1] eqn:E1; try discriminate E1.
  destruct (canon sb b t) as [| | | s2 m2 e2] eqn:E2; try discriminate E2.
  assert (s1 = sa) by (injection E1; auto). assert (s2 = sb) by (injection E2; auto). subst s1 s2.
  assert (He1 : e1 <= t) by (injection E1; pose proof (lead_range Ha); lia).
  assert (He2 : e2 <= t) by (injection E2; pose proof (lead_range Hb); lia).
  cbn [SFsub]. cbv zeta. change (IntDef.Z.min e1 e2) with (Z.min e1 e2).
  rewrite (aligned Ha E1 (Z.le_min_l e1 e2)), (aligned Hb E2 (Z.le_min_r e1 e2)).
  rewrite <- Z.mul_sub_distr_r.
  apply dy_aligned; [exact Hc | lia | exact Ht].
Qed.

Lemma SFmul_canon (sa sb : bool) (a b ta tb : Z) :
  small a -> small b -> small (a * b) -> fits (ta + tb) ->
  SFmul prec emax (canon sa a ta) (canon sb b tb) = canon (xorb sa sb) (a * b) (ta + tb).
Proof.
  intros Ha Hb Hab Ht. unfold canon at 1 2. cbn [SFmul].
  pose proof (lead_range Ha) as [Hla _]. pose proof (lead_range Hb) as [Hlb _].
  rewrite Pos2Z.inj_mul, !canon_mantissa by assumption.
  replace (a * 2 ^ lead a * (b * 2 ^ lead b)) with (a * b * 2 ^ (lead a + lead b))
    by (rewrite Z.pow_add_r by lia; ring).
  replace (ta - lead a + (tb - lead b)) with (ta + tb - (lead a + lead b)) by lia.
  apply round_canon_aux; [exact Hab | | exact Ht].
  destruct Ha, Hb. pose proof (Z.log2_mul_below a b ltac:(lia) ltac:(lia)).
  pose proof (Z.log2_nonneg a). pose proof (Z.log2_nonneg b). unfold lead. lia.
Qed.

Lemma Rep_canon (x : spec_float) (z t : Z) :
  z <> 0 -> fits t -> Rep x z t ->
  x = canon (sign_of z) (Z.abs z) t /\ small (Z.abs z).
Proof.
  intros Hz Ht H. apply (Rep_nonzero x Hz Ht) in H. destruct H as [Hb Hx].
  split; [exact Hx | now apply abs_small].
Qed.

Lemma canon_Rep (z t : Z) :
  z <> 0 -> fits t -> Z.abs z < 2 ^ prec -> Rep (canon (sign_of z) (Z.abs z) t) z t.
Proof. intros Hz Ht Hb. apply (Rep_nonzero _ Hz Ht). split; [exact Hb | reflexivity]. Qed.

Lemma Rep_add (x y : spec_float) (a b t : Z) :
  fits t -> Rep x a t -> Rep y b t -> Z.abs (a + b) < 2 ^ prec ->
  Rep (SFadd prec emax x y) (a + b) t.
Proof.
  intros Ht Hx Hy Hc.
  destruct (Z.eq_dec a 0) as [-> | Ha].
  - apply Rep_zero in Hx. destruct x as [sx | | |]; try contradiction.
    destruct (Z.eq_dec b 0) as [-> | Hb].
    + apply Rep_zero in Hy. destruct y as [sy | | |]; try contradiction.
      apply Rep_zero. destruct sx, sy; exact I.
    + cbn [Z.add]. destruct (Rep_canon Hb Ht Hy) as [Ey _].
      replace (SFadd prec emax (S754_zero sx) y) with y by (rewrite Ey; reflexivity).
      exact Hy.
  - destruct (Rep_canon Ha Ht Hx) as [Ex Sa].
    destruct (Z.eq_dec b 0) as [-> | Hb].
    + apply Rep_zero in Hy. destruct y as [sy | | |]; try contradiction.
      rewrite Z.add_0_r.
      replace (SFadd prec emax x (S754_zero sy)) with x by (rewrite Ex; reflexivity).
      exact Hx.
    + destruct (Rep_canon Hb Ht Hy) as [Ey Sb].
      rewrite Ex, Ey, SFadd_canon; rewrite ?cond_Zopp_sign; try assumption.
      apply Rep_dy, Hc.
Qed.

Lemma sign_of_opp (z : Z) : z <> 0 -> sign_of (- z) = negb (sign_of z).
Proof. intro H. unfold sign_of. destruct (Z.ltb_spec z 0), (Z.ltb_spec (- z) 0); try reflexivity; lia. Qed.

Lemma Rep_opp (x : spec_float) (z t : Z) : fits t -> Rep x z t -> Rep (SFopp x) (- z) t.
Proof.
  intros Ht Hx. destruct (Z.eq_dec z 0) as [-> | Hz].
  - apply Rep_zero in Hx. apply Rep_zero. destruct x; try contradiction. exact I.
  - destruct (Rep_canon Hz Ht Hx) as [Ex Sz]. destruct Hx as [Hb _].
    rewrite Ex. unfold canon. cbn [SFopp].
    assert (R := @canon_Rep (- z) t ltac:(lia) Ht ltac:(lia)).
    rewrite sign_of_opp, Z.abs_opp in R by exact Hz. exact R.
Qed.

Lemma Rep_sub (x y : spec_float) (a b t : Z) :
  fits t -> Rep x a t -> Rep y b t -> Z.abs (a - b) < 2 ^ prec ->
  Rep (SFsub prec emax x y) (a - b) t.
Proof.
  intros Ht Hx Hy Hc.
  destruct (Z.eq_dec a 0) as [-> | Ha].
  - apply Rep_zero in Hx. destruct x as [sx | | |]; try contradiction.
    destruct (Z.eq_dec b 0) as [-> | Hb].
    + apply Rep_zero in Hy. destruct y as [sy | | |]; try contradiction.
      apply Rep_zero. destruct sx, sy; exact I.
    + cbn [Z.sub Z.add]. pose proof (Rep_opp Ht Hy) as Ho.
      destruct (Rep_canon Hb Ht Hy) as [Ey _].
      replace (SFsub prec emax (S754_zero sx) y) with (SFopp y) by (rewrite Ey; reflexivity).
      exact Ho.
  - destruct (Rep_canon Ha Ht Hx) as [Ex Sa].
    destruct (Z.eq_dec b 0) as [-> | Hb].
    + apply Rep_zero in Hy. destruct y as [sy | | |]; try contradiction.
      rewrite Z.sub_0_r.
      replace (SFsub prec emax x (S754_zero sy)) with x by (rewrite Ex; reflexivity).
      exact Hx.
    + destruct (Rep_canon Hb Ht Hy) as [Ey Sb].
      rewrite Ex, Ey, SFsub_canon; rewrite ?cond_Zopp_sign; try assumption.
      apply Rep_dy, Hc.
Qed.

Lemma sign_of_mul (a b : Z) :
  a <> 0 -> b <> 0 -> sign_of (a * b) = xorb (sign_of a) (sign_of b).
Proof.
  intros Ha Hb. unfold sign_of.
  destruct (Z.ltb_spec a 0), (Z.ltb_spec b 0), (Z.ltb_spec (a * b) 0); try reflexivity; nia.
Qed.

Lemma Rep_mul (x y : spec_float) (a b ta tb : Z) :
  fits ta -> fits tb -> fits (ta + tb) -> Rep x a ta -> Rep y b tb -> Z.abs (a * b) < 2 ^ prec ->
  Rep (SFmul prec emax x y) (a * b) (ta + tb).
Proof.
  intros Hta Htb Ht Hx Hy Hc.
  destruct (Z.eq_dec a 0) as [-> | Ha].
  - apply Rep_zero in Hx. destruct x as [sx | | |]; try contradiction.
    rewrite Z.mul_0_l. apply Rep_zero.
    destruct (Z.eq_dec b 0) as [-> | Hb].
    + apply Rep_zero in Hy. destruct y as [sy | | |]; try contradiction. exact I.
    + destruct (Rep_canon Hb Htb Hy) as [Ey _]. rewrite Ey. exact I.
  - destruct (Rep_canon Ha Hta Hx) as [Ex Sa].
    destruct (Z.eq_dec b 0) as [-> | Hb].
    + apply Rep_zero in Hy. destruct y as [sy | | |]; try contradiction.
      rewrite Z.mul_0_r. apply Rep_zero. rewrite Ex. exact I.
    + destruct (Rep_canon Hb Htb Hy) as [Ey Sb].
      assert (Hab : a * b <> 0) by nia.
      rewrite Ex, Ey, SFmul_canon; try assumption.
      * rewrite <- sign_of_mul, <- Z.abs_mul by assumption. apply canon_Rep; assumption.
      * rewrite <- Z.abs_mul. now apply abs_small.
Qed.

Lemma Rep_abs (x : spec_float) (z t : Z) : fits t -> Rep x z t -> Rep (SFabs x) (Z.abs z) t.
Proof.
  intros Ht Hx. destruct (Z.eq_dec z 0) as [-> | Hz].
  - apply Rep_zero in Hx. apply Rep_zero. destruct x; try contradiction. exact I.
  - destruct (Rep_canon Hz Ht Hx) as [Ex Sz]. destruct Hx as [Hb _].
    rewrite Ex. unfold canon. cbn [SFabs].
    assert (R := @canon_Rep (Z.abs z) t ltac:(lia) Ht ltac:(lia)).
    rewrite Z.abs_idemp in R.
    replace (sign_of (Z.abs z)) with false in R; [exact R|].
    unfold sign_of. symmetry. apply Z.ltb_ge. lia.
Qed.

Lemma Rep_is_dy (x : spec_float) (z t : Z) : z <> 0 -> Rep x z t -> x = dy z t.
Proof.
  intros Hz [_ H]. destruct (Z.eqb_spec z 0) as [E | _]; [contradiction | exact H].
Qed.

Lemma Rep_abs_dy (x : spec_float) (z t : Z) :
  fits t -> Rep x z t -> SFabs x = dy (Z.abs z) t.
Proof.
  intros Ht Hx. destruct (Z.eq_dec z 0) as [-> | Hz].
  - apply Rep_zero in Hx. destruct x; try contradiction. reflexivity.
  - apply Rep_is_dy; [lia | apply Rep_abs; assumption].
Qed.

(** *** The sign of a rounded product

    A product of two numbers of the format is rounded; away from
    underflow the result is not zero and has the sign of the exact
    product.  (It may be an infinity.) *)

Lemma shr_1_div2 (m : Z) (r s : bool) :
  0 <= m -> shr_m (shr_1 (Build_shr_record m r s)) = m / 2.
Proof.
  intro Hm. destruct m as [| p | p]; [reflexivity | | lia].
  destruct p as [p | p |]; cbn [shr_1 shr_m].
  - rewrite Pos2Z.inj_xI. apply (Z.div_unique _ 2 _ 1); lia.
  - rewrite Pos2Z.inj_xO. apply (Z.div_unique _ 2 _ 0); lia.
  - reflexivity.
Qed.

Lemma iter_shr_1_div (n : positive) :
  forall mrs : shr_record,
    0 <= shr_m mrs -> shr_m (iter_pos shr_1 n mrs) = shr_m mrs / 2 ^ Zpos n.
Proof.
  assert (H1 : forall mrs, 0 <= shr_m mrs -> shr_m (shr_1 mrs) = shr_m mrs / 2).
  { intros [m r s] Hm. apply shr_1_div2, Hm. }
  induction n as [n IH | n IH |]; intros mrs Hm; cbn [iter_pos].
  - assert (Hp : 0 < 2 ^ Zpos n) by (apply pow2_pos; lia).
    assert (H2 : 0 <= shr_m (shr_1 mrs)) by (rewrite H1 by exact Hm; apply Z.div_pos; lia).
    assert (H3 : 0 <= shr_m (iter_pos shr_1 n (shr_1 mrs)))
      by (rewrite IH by exact H2; apply Z.div_pos; lia).
    rewrite IH by exact H3. rewrite IH by exact H2. rewrite H1 by exact Hm.
    rewrite pow2_xI. rewrite !Z.div_div by lia. f_equal; ring.
  - assert (Hp : 0 < 2 ^ Zpos n) by (apply pow2_pos; lia).
    assert (H3 : 0 <= shr_m (iter_pos shr_1 n mrs))
      by (rewrite IH by exact Hm; apply Z.div_pos; lia).
    rewrite IH by exact H3. rewrite IH by exact Hm.
    rewrite pow2_xO. rewrite Z.div_div by lia. reflexivity.
  - rewrite H1 by exact Hm. reflexivity.
Qed.

Lemma shr_pos (mrs : shr_record) (e n : Z) :
  0 <= n -> 2 ^ n <= shr_m mrs -> 0 < shr_m (fst (shr mrs e n)).
Proof.
  intros Hn Hm. unfold shr. destruct n as [| p | p]; cbn [fst]; [| | lia].
  - change (2 ^ 0) with 1 in Hm. lia.
  - assert (Hp : 0 < 2 ^ Zpos p) by (apply pow2_pos; lia).
    rewrite iter_shr_1_div by lia.
    apply Z.div_str_pos. lia.
Qed.

Lemma round_nearest_even_range (q : Z) (l : location) :
  q <= round_nearest_even q l <= q + 1.
Proof.
  unfold round_nearest_even. destruct l as [| [| |]]; try lia.
  destruct (Z.even q); lia.
Qed.

Definition signed (s : bool) (x : spec_float) : Prop :=
  match x with
  | S754_finite s' _ _ | S754_infinity s' => s' = s
  | _ => False
  end.

Lemma binary_round_aux_signed (s : bool) (P e : Z) :
  0 < P -> prec <= Zdigits2 P -> 3 - emax - prec <= Zdigits2 P + e - prec ->
  signed s (binary_round_aux prec emax s P e loc_Exact).
Proof.
  intros HP Hd He. unfold binary_round_aux.
  assert (Hlog : Zdigits2 P = Z.log2 P + 1) by (apply Zdigits2_log2, HP).
  assert (E1 : shr_fexp prec emax P e loc_Exact
               = shr (shr_record_of_loc P loc_Exact) e (Zdigits2 P - prec)).
  { unfold shr_fexp. f_equal. unfold fexp, emin. lia. }
  rewrite E1. clear E1.
  set (d := Zdigits2 P) in *.
  pose proof (Z.log2_spec P HP) as [Hlo Hhi].
  destruct (shr (shr_record_of_loc P loc_Exact) e (d - prec)) as [mrs e'] eqn:E1.
  assert (He' : e' = e + (d - prec)).
  { unfold shr in E1. destruct (d - prec) as [| p | p] eqn:Edp; injection E1 as _ <-; lia. }
  assert (Hq : 2 ^ (prec - 1) <= shr_m mrs <= 2 ^ prec - 1).
  { assert (Hm : shr_m mrs = P / 2 ^ (d - prec)).
    { unfold shr in E1. destruct (d - prec) as [| p | p] eqn:Edp; injection E1 as <- _.
      - cbn [shr_record_of_loc shr_m]. now rewrite Z.div_1_r.
      - rewrite iter_shr_1_div by (cbn [shr_record_of_loc shr_m]; lia). reflexivity.
      - lia. }
    rewrite Hm.
    assert (Hp : 0 < 2 ^ (d - prec)) by (apply pow2_pos; lia).
    assert (Hs1 : 2 ^ (d - 1) = 2 ^ (prec - 1) * 2 ^ (d - prec)).
    { rewrite <- Z.pow_add_r by lia. f_equal. lia. }
    assert (Hs2 : 2 ^ d = 2 ^ prec * 2 ^ (d - prec)).
    { rewrite <- Z.pow_add_r by lia. f_equal. lia. }
    replace (Z.log2 P) with (d - 1) in Hlo by lia.
    replace (Z.succ (Z.log2 P)) with d in Hhi by lia.
    split.
    - apply Z.div_le_lower_bound; [exact Hp|]. rewrite Z.mul_comm, <- Hs1. exact Hlo.
    - assert (P / 2 ^ (d - prec) < 2 ^ prec); [|lia].
      apply Z.div_lt_upper_bound; [exact Hp|]. rewrite Z.mul_comm, <- Hs2. exact Hhi. }
  set (r1 := round_nearest_even (shr_m mrs) (loc_of_shr_record mrs)).
  pose proof (round_nearest_even_range (shr_m mrs) (loc_of_shr_record mrs)) as Hr. fold r1 in Hr.
  assert (Hp1 : 0 < 2 ^ (prec - 1)) by (apply pow2_pos; lia).
  assert (Hr1 : 2 ^ (prec - 1) <= r1 <= 2 ^ prec) by lia.
  assert (Hlr : prec - 1 <= Z.log2 r1 <= prec).
  { split.
    - rewrite <- (Z.log2_pow2 (prec - 1)) by lia. apply Z.log2_le_mono. lia.
    - rewrite <- (Z.log2_pow2 prec) by lia. apply Z.log2_le_mono. lia. }
  assert (E2 : shr_fexp prec emax r1 e' loc_Exact
               = shr (shr_record_of_loc r1 loc_Exact) e' (Z.log2 r1 + 1 - prec)).
  { unfold shr_fexp. rewrite (@Zdigits2_log2 r1) by lia. f_equal. unfold fexp, emin. lia. }
  rewrite E2. clear E2.
  assert (Hpos : 0 < shr_m (fst (shr (shr_record_of_loc r1 loc_Exact) e' (Z.log2 r1 + 1 - prec)))).
  { apply shr_pos; [lia|]. cbn [shr_record_of_loc shr_m].
    destruct (Z.eq_dec (Z.log2 r1) prec) as [El | El].
    - replace (Z.log2 r1 + 1 - prec) with 1 by lia. change (2 ^ 1) with 2.
      assert (1 <= 2 ^ (prec - 1 - 1)) by (pose proof (@pow2_pos (prec - 1 - 1)); lia).
      replace (prec - 1) with (Z.succ (prec - 1 - 1)) in Hr1 at 1 by lia.
      rewrite Z.pow_succ_r in Hr1 by lia. lia.
    - replace (Z.log2 r1 + 1 - prec) with 0 by lia. change (2 ^ 0) with 1. lia. }
  destruct (shr (shr_record_of_loc r1 loc_Exact) e' (Z.log2 r1 + 1 - prec)) as [mrs2 e2].
  cbn [fst] in Hpos.
  destruct (shr_m mrs2) as [| m2 | m2]; [lia | | lia].
  destruct (e2 <=? emax - prec); reflexivity.
Qed.

Lemma SFleb_signed (x : spec_float) (s b : bool) :
  signed s x -> SFleb x (S754_zero b) = s.
Proof.
  destruct x as [| s' | | s' m e]; cbn [signed]; try contradiction;
    intros ->; unfold SFleb; cbn [SFcompare]; destruct s; reflexivity.
Qed.

(** The test [x * y <= 0] on two numbers of the format, whatever the
    rounding of the product. *)
Lemma Rep_mul_leb (x y : spec_float) (a b ta tb : Z) (z : bool) :
  fits ta -> fits tb -> 2 - emax <= ta + tb ->
  Rep x a ta -> Rep y b tb ->
  SFleb (SFmul prec emax x y) (S754_zero z) = (a * b <=? 0).
Proof.
  intros Hta Htb Ht Hx Hy.
  destruct (Z.eq_dec a 0) as [-> | Ha].
  - apply Rep_zero in Hx. destruct x as [sx | | |]; try contradiction.
    rewrite Z.mul_0_l.
    destruct (Z.eq_dec b 0) as [-> | Hb].
    + apply Rep_zero in Hy. destruct y as [sy | | |]; try contradiction. reflexivity.
    + destruct (Rep_canon Hb Htb Hy) as [Ey _]. rewrite Ey. reflexivity.
  - destruct (Rep_canon Ha Hta Hx) as [Ex Sa].
    destruct (Z.eq_dec b 0) as [-> | Hb].
    + apply Rep_zero in Hy. destruct y as [sy | | |]; try contradiction.
      rewrite Z.mul_0_r, Ex. reflexivity.
    + destruct (Rep_canon Hb Htb Hy) as [Ey Sb]. rewrite Ex, Ey.
      unfold canon. cbn [SFmul].
      rewrite (@SFleb_signed _ (xorb (sign_of a) (sign_of b)) z).
      * rewrite <- sign_of_mul by assumption. unfold sign_of.
        destruct (Z.ltb_spec (a * b) 0), (Z.leb_spec (a * b) 0); try reflexivity; nia.
      * pose proof (lead_range Sa) as [La La']. pose proof (lead_range Sb) as [Lb Lb'].
        pose proof (canon_digits Sa) as Da. pose proof (canon_digits Sb) as Db.
        rewrite digits2_pos_log2 in Da, Db.
        assert (HP : 0 < Zpos (Z.to_pos (Z.abs a * 2 ^ lead (Z.abs a))
                               * Z.to_pos (Z.abs b * 2 ^ lead (Z.abs b)))) by lia.
        assert (Hd : 2 * prec - 1
                     <= Zdigits2 (Zpos (Z.to_pos (Z.abs a * 2 ^ lead (Z.abs a))
                                        * Z.to_pos (Z.abs b * 2 ^ lead (Z.abs b))))).
        { rewrite Zdigits2_log2 by exact HP. rewrite Pos2Z.inj_mul.
          pose proof (Z.log2_mul_below
                        (Zpos (Z.to_pos (Z.abs a * 2 ^ lead (Z.abs a))))
                        (Zpos (Z.to_pos (Z.abs b * 2 ^ lead (Z.abs b))))
                        ltac:(lia) ltac:(lia)).
          lia. }
        apply binary_round_aux_signed; [exact HP | lia | lia].
Qed.

(** *** Comparison *)

Lemma magnitude_compare (a b t : Z) :
  small a -> small b ->
  match t - lead a ?= t - lead b with
  | Lt => Lt
  | Gt => Gt
  | Eq => Pos.compare_cont Eq (Z.to_pos (a * 2 ^ lead a)) (Z.to_pos (b * 2 ^ lead b))
  end = (a ?= b).
Proof.
  intros Ha Hb. pose proof (lead_range Ha) as [Hla _]. pose proof (lead_range Hb) as [Hlb _].
  destruct (Z.compare_spec (t - lead a) (t - lead b)) as [E | E | E].
  - change (Pos.compare_cont Eq ?p ?q) with (Zpos p ?= Zpos q).
    rewrite !canon_mantissa by assumption.
    replace (lead b) with (lead a) by lia.
    symmetry. apply Zmult_compare_compat_r. pose proof (pow2_pos Hla). lia.
  - symmetry. apply Z.compare_lt_iff. apply Z.log2_lt_cancel. unfold lead in E. lia.
  - symmetry. apply Z.compare_gt_iff. apply Z.log2_lt_cancel. unfold lead in E. lia.
Qed.

Lemma Rep_compare (x y : spec_float) (a b t : Z) :
  fits t -> Rep x a t -> Rep y b t -> SFcompare x y = Some (a ?= b).
Proof.
  intros Ht Hx Hy.
  destruct (Z.eq_dec a 0) as [-> | Ha].
  - apply Rep_zero in Hx. destruct x as [sx | | |]; try contradiction.
    destruct (Z.eq_dec b 0) as [-> | Hb].
    + apply Rep_zero in Hy. destruct y as [sy | | |]; try contradiction. reflexivity.
    + destruct (Rep_canon Hb Ht Hy) as [Ey _]. rewrite Ey. unfold canon, sign_of.
      cbn [SFcompare]. destruct (Z.ltb_spec b 0); f_equal; symmetry.
      * apply Z.compare_gt_iff. lia.
      * apply Z.compare_lt_iff. lia.
  - destruct (Rep_canon Ha Ht Hx) as [Ex Sa].
    destruct (Z.eq_dec b 0) as [-> | Hb].
    + apply Rep_zero in Hy. destruct y as [sy | | |]; try contradiction.
      rewrite Ex. unfold canon, sign_of.
      cbn [SFcompare]. destruct (Z.ltb_spec a 0); f_equal; symmetry.
      * apply Z.compare_lt_iff. lia.
      * apply Z.compare_gt_iff. lia.
    + destruct (Rep_canon Hb Ht Hy) as [Ey Sb]. rewrite Ex, Ey.
      pose proof (@magnitude_compare (Z.abs a) (Z.abs b) t Sa Sb) as M.
      unfold canon, sign_of. cbn [SFcompare].
      destruct (Z.ltb_spec a 0), (Z.ltb_spec b 0); f_equal.
      * assert (Hopp : (a ?= b) = CompOpp (Z.abs a ?= Z.abs b)).
        { rewrite !Z.abs_neq by lia. rewrite Z.compare_opp. apply Z.compare_antisym. }
        rewrite Hopp, <- M.
        destruct (t - lead (Z.abs a) ?= t - lead (Z.abs b)); reflexivity.
      * symmetry. apply Z.compare_lt_iff. lia.
      * symmetry. apply Z.compare_gt_iff. lia.
      * rewrite M. rewrite !Z.abs_eq by lia. reflexivity.
Qed.

Lemma Rep_leb (x y : spec_float) (a b t : Z) :
  fits t -> Rep x a t -> Rep y b t -> SFleb x y = (a <=? b).
Proof.
  intros Ht Hx Hy. unfold SFleb, Z.leb. rewrite (Rep_compare Ht Hx Hy).
  destruct (a ?= b); reflexivity.
Qed.

Lemma Rep_ltb (x y : spec_float) (a b t : Z) :
  fits t -> Rep x a t -> Rep y b t -> SFltb x y = (a <? b).
Proof.
  intros Ht Hx Hy. unfold SFltb, Z.ltb. rewrite (Rep_compare Ht Hx Hy).
  destruct (a ?= b); reflexivity.
Qed.

Lemma Rep_eqb (x y : spec_float) (a b t : Z) :
  fits t -> Rep x a t -> Rep y b t -> SFeqb x y = (a =? b).
Proof.
  intros Ht Hx Hy. unfold SFeqb. rewrite Z.eqb_compare, (Rep_compare Ht Hx Hy).
  destruct (a ?= b); reflexivity.
Qed.

(** *** Halving *)

Lemma two_small : Z.abs 2 < 2 ^ prec.
Proof.
  change (Z.abs 2) with (2 ^ 1). apply Z.pow_lt_mono_r; lia.
Qed.

Lemma fits_0 : fits 0.
Proof. unfold fits. lia. Qed.

Lemma two_canon : dy 2 0 = S754_finite false (Z.to_pos (2 ^ (prec - 1))) (2 - prec).
Proof.
  rewrite dy_canon; [| lia | exact two_small | exact fits_0].
  unfold canon, lead, sign_of. change (Z.abs 2) with 2. change (Z.log2 2) with 1.
  change (2 <? 0) with false. f_equal.
  - f_equal. replace (prec - 1) with (Z.succ (prec - (1 + 1))) by lia.
    rewrite Z.pow_succ_r by lia. reflexivity.
  - lia.
Qed.

Lemma SFdiv_core_two (M : positive) (E : Z) :
  Zpos (digits2_pos M) = prec -> normal_exponent (E - 2) ->
  SFdiv_core_binary prec emax (Zpos M) E (Zpos (Z.to_pos (2 ^ (prec - 1)))) (2 - prec)
  = (Zpos M * 2 ^ 1, E - 2, loc_Exact).
Proof.
  intros Hd HE. unfold SFdiv_core_binary.
  assert (Hp : 0 < 2 ^ (prec - 1)) by (apply pow2_pos; lia).
  assert (Hd2 : Zdigits2 (Zpos (Z.to_pos (2 ^ (prec - 1)))) = prec).
  { rewrite Z2Pos.id by exact Hp. rewrite Zdigits2_log2 by exact Hp.
    rewrite Z.log2_pow2 by lia. lia. }
  rewrite Hd2. cbn [Zdigits2]. rewrite Hd.
  replace (prec + E - (prec + (2 - prec))) with (prec + (E - 2)) by lia.
  rewrite fexp_normal by exact HE.
  replace (Z.min (E - 2) (E - (2 - prec))) with (E - 2) by lia.
  replace (E - (2 - prec) - (E - 2)) with prec by lia.
  assert (Hm : forall sft : Z, sft = prec ->
                 match sft with
                 | Zpos _ => Z.shiftl (Zpos M) sft
                 | Z0 => Zpos M
                 | Zneg _ => 0
                 end = Zpos M * 2 * 2 ^ (prec - 1)).
  { intros sft Hs. destruct sft as [| p | p]; [lia | | lia].
    rewrite Z.shiftl_mul_pow2 by lia. rewrite Hs.
    replace prec with (Z.succ (prec - 1)) at 1 by lia.
    rewrite Z.pow_succ_r by lia. ring. }
  rewrite (Hm prec eq_refl). rewrite Z2Pos.id by exact Hp.
  destruct (Z.div_eucl (Zpos M * 2 * 2 ^ (prec - 1)) (2 ^ (prec - 1))) as [q r] eqn:Eqr.
  assert (Hq : q = Zpos M * 2).
  { change q with (fst (q, r)). rewrite <- Eqr.
    change (fst (Z.div_eucl ?a ?b)) with (a / b). apply Z.div_mul. lia. }
  assert (Hr : r = 0).
  { change r with (snd (q, r)). rewrite <- Eqr.
    change (snd (Z.div_eucl ?a ?b)) with (a mod b). apply Z.mod_mul. lia. }
  subst q r. change (2 ^ 1) with 2. f_equal.
  unfold new_location, new_location_even, new_location_odd.
  destruct (Z.even (2 ^ (prec - 1))); reflexivity.
Qed.

Lemma SFdiv_canon_two (s : bool) (n t : Z) :
  small n -> fits t -> fits (t - 2) ->
  SFdiv prec emax (canon s n t) (dy 2 0) = canon s n (t - 1).
Proof.
  intros Hn Ht Ht2. rewrite two_canon. unfold canon at 1. cbn [SFdiv].
  pose proof (lead_range Hn) as [Hl Hl'].
  rewrite SFdiv_core_two.
  - rewrite xorb_false_r.
    replace (t - lead n - 2) with (t - 1 - lead n - 1) by lia.
    rewrite binary_round_aux_exact.
    + reflexivity.
    + apply canon_digits, Hn.
    + lia.
    + unfold fits in Ht, Ht2. unfold normal_exponent. lia.
  - apply canon_digits, Hn.
  - unfold fits in Ht, Ht2. unfold normal_exponent. lia.
Qed.

Lemma Rep_half (x : spec_float) (z t : Z) :
  fits t -> fits (t - 2) -> Rep x z t -> Rep (SFdiv prec emax x (dy 2 0)) z (t - 1).
Proof.
  intros Ht Ht2 Hx.
  assert (Ht1 : fits (t - 1)) by (unfold fits in *; lia).
  destruct (Z.eq_dec z 0) as [-> | Hz].
  - apply Rep_zero in Hx. apply Rep_zero. destruct x; try contradiction.
    rewrite two_canon. exact I.
  - destruct (Rep_canon Hz Ht Hx) as [Ex Sz]. destruct Hx as [Hb _].
    rewrite Ex, SFdiv_canon_two by assumption. apply canon_Rep; assumption.
Qed.

End Format.

(** *** From one format to another *)

Lemma Rep_round_to (p1 e1 p2 e2 : Z) (x : spec_float) (z t : Z) :
  1 < p1 -> 1 < p2 ->
  fits p1 e1 t -> fits p2 e2 t -> Z.abs z < 2 ^ p2 ->
  Rep p1 e1 x z t -> Rep p2 e2 (IEEE754.round_to p2 e2 x) z t.
Proof.
  intros Hp1 Hp2 Ht1 Ht2 Hb Hx.
  destruct (Z.eq_dec z 0) as [-> | Hz].
  - apply (Rep_zero e1 Hp1) in Hx. apply (Rep_zero e2 Hp2). destruct x; try contradiction. exact I.
  - destruct (Rep_canon Hp1 Hz Ht1 Hx) as [Ex Sz]. rewrite Ex. unfold canon at 1.
    cbn [IEEE754.round_to].
    pose proof (lead_range Sz) as [Hl _].
    rewrite (@round_canon p2 e2 Hp2 (sign_of z) _ (Z.abs z) (lead p1 (Z.abs z)) t).
    + apply (canon_Rep Hp2); assumption.
    + unfold small. lia.
    + exact Hl.
    + exact Ht2.
    + apply (canon_mantissa Hp1 Sz).
Qed.

Lemma round_to_dy (p1 e1 p2 e2 : Z) (z t : Z) :
  1 < p1 -> 1 < p2 ->
  fits p1 e1 t -> fits p2 e2 t -> Z.abs z < 2 ^ p1 -> Z.abs z < 2 ^ p2 ->
  IEEE754.round_to p2 e2 (dy p1 e1 z t) = dy p2 e2 z t.
Proof.
  intros Hp1 Hp2 Ht1 Ht2 Hb1 Hb2. destruct (Z.eq_dec z 0) as [-> | Hz].
  - reflexivity.
  - apply (Rep_is_dy Hz). apply (Rep_round_to Hp1 Hp2 Ht1 Ht2 Hb2). apply Rep_dy, Hb1.
Qed.

(** *** The real number a datum stands for *)

Definition value (x : spec_float) : R :=
  match x with
  | S754_finite s m e => (IZR (cond_Zopp s (Zpos m)) * powerRZ 2 e)%R
  | _ => 0%R
  end.

Lemma IZR_pow2 (l : Z) : 0 <= l -> IZR (2 ^ l) = powerRZ 2 l.
Proof.
  intro H. rewrite <- (Z2Nat.id l H). rewrite <- pow_IZR, <- pow_powerRZ. reflexivity.
Qed.

Lemma Rep_value (prec emax : Z) (x : spec_float) (z t : Z) :
  1 < prec -> fits prec emax t -> Rep prec emax x z t ->
  value x = (IZR z * powerRZ 2 t)%R.
Proof.
  intros Hp Ht Hx.
  destruct (Z.eq_dec z 0) as [-> | Hz].
  - apply (Rep_zero emax Hp) in Hx. destruct x; try contradiction. cbn [value]. lra.
  - destruct (Rep_canon Hp Hz Ht Hx) as [Ex Sz]. rewrite Ex. unfold canon. cbn [value].
    pose proof (lead_range Sz) as [Hl _].
    rewrite (canon_mantissa Hp Sz).
    replace (cond_Zopp (sign_of z) (Z.abs z * 2 ^ lead prec (Z.abs z)))
      with (z * 2 ^ lead prec (Z.abs z)).
    + rewrite mult_IZR, IZR_pow2 by exact Hl. rewrite Rmult_assoc. f_equal.
      rewrite <- powerRZ_add by lra. f_equal. lia.
    + rewrite <- (cond_Zopp_sign z) at 1. unfold cond_Zopp. destruct (sign_of z); ring.
Qed.

End Dyadic.

(** * convexHull sees its points through two tests only

    [Cartesian::operator<] in the sort and the sign test on
    [crossProduct] in the two loops.  A map of the points into another
    arithmetic that keeps the answers of the two tests therefore maps
    the hull onto the hull. *)

Section Abstraction.

Context {Ar1 Ar2 : Arith}.

Variable dom : Cartesian Ar1 -> Prop.
Variable phi : Cartesian Ar1 -> Cartesian Ar2.

Hypothesis dom_default : dom Cartesian_default.
Hypothesis phi_default : phi Cartesian_default = Cartesian_default.
Hypothesis phi_less :
  forall p q, dom p -> dom q -> Cartesian_ltb (phi p) (phi q) = Cartesian_ltb p q.
Hypothesis phi_turn :
  forall a b c, dom a -> dom b -> dom c ->
    (crossProduct (phi a) (phi b) (phi c) <=? dlit Ar2 0)%dbl
    = (crossProduct a b c <=? dlit Ar1 0)%dbl.

Lemma sort_insert_map (p : Cartesian Ar1) (l : list (Cartesian Ar1)) :
  dom p -> Forall dom l ->
  map phi (sort_insert p l) = sort_insert (phi p) (map phi l)
  /\ Forall dom (sort_insert p l).
Proof.
  intros Hp Hl. induction Hl as [| q l Hq Hl IH].
  - split; [reflexivity | now constructor].
  - cbn [sort_insert map]. rewrite (phi_less Hq Hp).
    destruct (Cartesian_ltb q p).
    + destruct IH as [IH1 IH2]. cbn [map]. rewrite IH1. split; [reflexivity | now constructor].
    + split; [reflexivity | repeat constructor; assumption].
Qed.

Lemma sort_map (l : list (Cartesian Ar1)) :
  Forall dom l -> map phi (sort l) = sort (map phi l) /\ Forall dom (sort l).
Proof.
  intro Hl. induction Hl as [| p l Hp Hl IH].
  - split; [reflexivity | constructor].
  - destruct IH as [IH1 IH2]. unfold sort in *. cbn [fold_right map].
    destruct (sort_insert_map Hp IH2) as [S1 S2]. rewrite S1, IH1. split; [reflexivity | exact S2].
Qed.

Lemma popS_map (lo : nat) (st : list (Cartesian Ar1)) (p : Cartesian Ar1) :
  dom p -> Forall dom st ->
  map phi (popS lo st p) = popS lo (map phi st) (phi p) /\ Forall dom (popS lo st p).
Proof.
  intros Hp Hst. induction Hst as [| b st Hb Hst IH].
  - split; [reflexivity | constructor].
  - cbn [popS map length]. rewrite length_map.
    assert (Hn : dom (nth 0 st Cartesian_default)).
    { destruct Hst; [exact dom_default | assumption]. }
    rewrite <- phi_default at 1. rewrite map_nth. rewrite (phi_turn Hn Hb Hp).
    destruct ((lo <=? S (length st))%nat
              && (crossProduct (nth 0 st Cartesian_default) b p <=? dlit Ar1 0)%dbl).
    + exact IH.
    + split; [reflexivity | now constructor].
Qed.

Lemma fold_pushS_map (lo : nat) (points : list (Cartesian Ar1)) :
  Forall dom points ->
  forall st, Forall dom st ->
    map phi (fold_left (pushS lo) points st)
    = fold_left (pushS lo) (map phi points) (map phi st)
    /\ Forall dom (fold_left (pushS lo) points st).
Proof.
  intro Hpts. induction Hpts as [| p points Hp Hpts IH]; intros st Hst.
  - split; [reflexivity | exact Hst].
  - cbn [fold_left map]. destruct (popS_map lo Hp Hst) as [P1 P2].
    assert (Hpush : Forall dom (pushS lo st p)) by (unfold pushS; now constructor).
    destruct (IH _ Hpush) as [I1 I2]. rewrite I1. split; [|exact I2].
    f_equal. unfold pushS. cbn [map]. now rewrite P1.
Qed.

Lemma chain_map (points : list (Cartesian Ar1)) :
  Forall dom points ->
  map phi (chain points) = chain (map phi points) /\ Forall dom (chain points).
Proof. intro H. exact (fold_pushS_map 2 H (Forall_nil dom)). Qed.

Definition map_polygon (P : Polygon Ar1) : Polygon Ar2 := mkPolygon (map phi (getVertices P)).

Lemma flat_map_map_polygon (polygons : list (Polygon Ar1)) :
  flat_map getVertices (map map_polygon polygons)
  = map phi (flat_map getVertices polygons).
Proof.
  induction polygons as [| P polygons IH]; [reflexivity|].
  cbn [map flat_map]. rewrite IH, map_app. reflexivity.
Qed.

Lemma map_tail (A B : Type) (f : A -> B) (l : list A) : map f (tl l) = tl (map f l).
Proof. destruct l; reflexivity. Qed.

Lemma convexHull_map (polygons : list (Polygon Ar1)) :
  Forall dom (flat_map getVertices polygons) ->
  map phi (getVertices (convexHull polygons))
  = getVertices (convexHull (map map_polygon polygons))
  /\ Forall dom (getVertices (convexHull polygons)).
Proof.
  intro Hdom. rewrite !convexHull_chains, flat_map_map_polygon.
  destruct (sort_map Hdom) as [S1 S2]. rewrite <- S1.
  destruct (chain_map S2) as [C1 C2].
  assert (S3 : Forall dom (rev (sort (flat_map getVertices polygons)))).
  { apply Forall_rev, S2. }
  destruct (chain_map S3) as [D1 D2].
  rewrite <- map_rev, <- C1, <- D1. split.
  - rewrite map_app, map_tail, !map_rev. reflexivity.
  - apply Forall_app. split; [apply Forall_rev, C2|].
    apply Forall_rev in D2. destruct (rev (chain (rev (sort (flat_map getVertices polygons)))));
      [constructor | now inversion D2].
Qed.

(** The two loops on any sequence of points of the domain. *)
Lemma hull_loops_map (s hull0 : list (Cartesian Ar1)) :
  Forall dom s -> length hull0 = (2 * length s)%nat ->
  map phi (getVertices (hull_loops (length s) s hull0))
  = rev (chain (map phi s)) ++ tl (rev (chain (rev (map phi s)))).
Proof.
  intros Hs H0. rewrite hull_loops_chains by exact H0.
  destruct (chain_map Hs) as [C1 _].
  destruct (chain_map (Forall_rev Hs)) as [D1 _].
  rewrite <- map_rev, <- C1, <- D1, map_app, map_tail, !map_rev. reflexivity.
Qed.

End Abstraction.

(** * The kernel on a binary grid

    Points whose coordinates are integer multiples [k * 2^t] of one
    power of two, with [k] bounded.  On such points the arithmetic of
    the code makes no rounding error where the bounds below hold, and
    the machine results are the results of real arithmetic. *)

Module Grid.

Import Dyadic.
Local Open Scope Z_scope.

Abbreviation point := (Cartesian IEEE754.arith).

Definition Rep64 : spec_float -> Z -> Z -> Prop := Rep IEEE754.prec64 IEEE754.emax64.
Definition Rep32 : spec_float -> Z -> Z -> Prop := Rep IEEE754.prec32 IEEE754.emax32.

Lemma prec64_ok : 1 < IEEE754.prec64.
Proof. reflexivity. Qed.

Lemma prec32_ok : 1 < IEEE754.prec32.
Proof. reflexivity. Qed.

Lemma emax64_ok : IEEE754.prec64 < IEEE754.emax64.
Proof. reflexivity. Qed.

Lemma fits64 (t : Z) : -1022 <= t <= 971 -> fits IEEE754.prec64 IEEE754.emax64 t.
Proof. unfold fits, IEEE754.prec64, IEEE754.emax64. lia. Qed.

Lemma fits32 (t : Z) : -126 <= t <= 104 -> fits IEEE754.prec32 IEEE754.emax32 t.
Proof. unfold fits, IEEE754.prec32, IEEE754.emax32. lia. Qed.

(** [x] is the double [k * 2^t] for an integer [k] with [|k| <= B]; a
    zero may have either sign. *)
Definition on_grid (t B : Z) (x : spec_float) : Prop :=
  exists k : Z, Z.abs k <= B /\ (x = IEEE754.mk k t \/ (k = 0 /\ x = S754_zero true)).

Definition point_on_grid (t B : Z) (p : point) : Prop :=
  on_grid t B (getX p) /\ on_grid t B (getY p).

(** The point of the plane a machine point stands for. *)
Definition real (p : point) : Exact.point := Exact.pt (value (getX p)) (value (getY p)).

Definition real_polygon (P : Polygon IEEE754.arith) : Exact.polygon :=
  mkPolygon (map real (getVertices P)).

Lemma on_grid_Rep (t B : Z) (x : spec_float) :
  B < 2 ^ 53 -> on_grid t B x -> exists k : Z, Z.abs k <= B /\ Rep64 x k t.
Proof.
  intros HB (k & Hk & Hx). exists k. split; [exact Hk|].
  destruct Hx as [-> | [-> ->]].
  - apply Rep_dy. unfold IEEE754.prec64. lia.
  - apply (Rep_zero IEEE754.emax64 prec64_ok). exact I.
Qed.

Lemma Rep_on_grid (t B k : Z) (x : spec_float) :
  Z.abs k <= B -> Rep64 x k t -> on_grid t B x.
Proof.
  intros Hk [Hb Hx]. exists k. split; [exact Hk|].
  destruct (Z.eqb_spec k 0) as [-> | Hz].
  - destruct x as [[|] | | |]; try contradiction; [right | left]; auto.
  - left. exact Hx.
Qed.

(** ** crossProduct *)

Definition cross (zx zy ax ay bx by_ : Z) : Z :=
  (ax - zx) * (by_ - zy) - (ay - zy) * (bx - zx).

Lemma abs_mul_le (u v c d : Z) : Z.abs u <= c -> Z.abs v <= d -> Z.abs (u * v) <= c * d.
Proof.
  intros Hu Hv. rewrite Z.abs_mul.
  apply Z.mul_le_mono_nonneg; [apply Z.abs_nonneg | exact Hu | apply Z.abs_nonneg | exact Hv].
Qed.

Lemma abs_sub_le (u v c d : Z) : Z.abs u <= c -> Z.abs v <= d -> Z.abs (u - v) <= c + d.
Proof. lia. Qed.

Lemma abs_add_le (u v c d : Z) : Z.abs u <= c -> Z.abs v <= d -> Z.abs (u + v) <= c + d.
Proof. lia. Qed.

Lemma crossProduct_Rep (t : Z) (z a b : point) (zx zy ax ay bx by_ : Z) :
  -511 <= t <= 485 ->
  Z.abs zx < 2 ^ 25 -> Z.abs zy < 2 ^ 25 -> Z.abs ax < 2 ^ 25 ->
  Z.abs ay < 2 ^ 25 -> Z.abs bx < 2 ^ 25 -> Z.abs by_ < 2 ^ 25 ->
  Rep64 (getX z) zx t -> Rep64 (getY z) zy t ->
  Rep64 (getX a) ax t -> Rep64 (getY a) ay t ->
  Rep64 (getX b) bx t -> Rep64 (getY b) by_ t ->
  Rep64 (crossProduct z a b) (cross zx zy ax ay bx by_) (t + t).
Proof.
  intros Ht Bzx Bzy Bax Bay Bbx Bby Rzx Rzy Rax Ray Rbx Rby.
  assert (F1 : fits IEEE754.prec64 IEEE754.emax64 t) by (apply fits64; lia).
  assert (F2 : fits IEEE754.prec64 IEEE754.emax64 (t + t)) by (apply fits64; lia).
  set (c := 2 ^ 25) in *. set (top := 2 ^ IEEE754.prec64).
  set (d := c - 1 + (c - 1)).
  assert (Hd0 : 0 <= d) by (apply Z.leb_le; reflexivity).
  assert (Hd : d < top) by reflexivity.
  assert (Hdd : d * d < top) by reflexivity.
  assert (Htop : d * d + d * d < top) by reflexivity.
  assert (D1 : Z.abs (ax - zx) <= d) by (apply abs_sub_le; lia).
  assert (D2 : Z.abs (by_ - zy) <= d) by (apply abs_sub_le; lia).
  assert (D3 : Z.abs (ay - zy) <= d) by (apply abs_sub_le; lia).
  assert (D4 : Z.abs (bx - zx) <= d) by (apply abs_sub_le; lia).
  pose proof (abs_mul_le _ _ D1 D2) as P1. pose proof (abs_mul_le _ _ D3 D4) as P2.
  pose proof (abs_sub_le _ _ P1 P2) as P3.
  unfold crossProduct, cross. cbn [dsub dmul IEEE754.arith].
  apply (Rep_sub prec64_ok F2).
  - apply (Rep_mul prec64_ok F1 F1 F2).
    + apply (Rep_sub prec64_ok F1 Rax Rzx). fold top. eapply Z.le_lt_trans; eassumption.
    + apply (Rep_sub prec64_ok F1 Rby Rzy). fold top. eapply Z.le_lt_trans; eassumption.
    + fold top. eapply Z.le_lt_trans; eassumption.
  - apply (Rep_mul prec64_ok F1 F1 F2).
    + apply (Rep_sub prec64_ok F1 Ray Rzy). fold top. eapply Z.le_lt_trans; eassumption.
    + apply (Rep_sub prec64_ok F1 Rbx Rzx). fold top. eapply Z.le_lt_trans; eassumption.
    + fold top. eapply Z.le_lt_trans; eassumption.
  - fold top. eapply Z.le_lt_trans; eassumption.
Qed.

(** ** The real numbers behind the data *)

Definition step (t : Z) : R := powerRZ 2 t.

Lemma step_pos (t : Z) : (0 < step t)%R.
Proof. apply powerRZ_lt. lra. Qed.

Lemma step_add (s t : Z) : step (s + t) = (step s * step t)%R.
Proof. apply powerRZ_add. lra. Qed.

Lemma Rep64_value (x : spec_float) (k t : Z) :
  -1022 <= t <= 971 -> Rep64 x k t -> value x = (IZR k * step t)%R.
Proof. intros Ht H. exact (Rep_value prec64_ok (fits64 Ht) H). Qed.

Lemma Rltb_scaled (a b : Z) (l : R) :
  (0 < l)%R -> Rltb (IZR a * l) (IZR b * l) = (a <? b).
Proof.
  intro Hl. destruct (Z.ltb_spec a b) as [H | H].
  - apply Exact.Rltb_true. apply IZR_lt in H. nra.
  - apply Exact.Rltb_false. apply IZR_le in H. nra.
Qed.

Lemma Rleb_scaled (a b : Z) (l : R) :
  (0 < l)%R -> Rleb (IZR a * l) (IZR b * l) = (a <=? b).
Proof.
  intro Hl. destruct (Z.leb_spec a b) as [H | H].
  - apply Exact.Rleb_true. apply IZR_le in H. nra.
  - apply Exact.Rleb_false. apply IZR_lt in H. nra.
Qed.

Lemma Reqb_scaled (a b : Z) (l : R) :
  (0 < l)%R -> Reqb (IZR a * l) (IZR b * l) = (a =? b).
Proof.
  intro Hl. destruct (Z.eqb_spec a b) as [H | H].
  - apply Exact.Reqb_true. now subst.
  - unfold Reqb. destruct (Req_dec_T (IZR a * l) (IZR b * l)) as [E | E]; [|reflexivity].
    exfalso. apply H, eq_IZR. nra.
Qed.

(** The coordinates of a point of the grid. *)
Lemma point_coordinates (t B : Z) (p : point) :
  -1022 <= t <= 971 -> B < 2 ^ 53 -> point_on_grid t B p ->
  exists kx ky : Z,
    Z.abs kx <= B /\ Z.abs ky <= B
    /\ Rep64 (getX p) kx t /\ Rep64 (getY p) ky t
    /\ real p = Exact.pt (IZR kx * step t) (IZR ky * step t).
Proof.
  intros Ht HB [Hx Hy].
  destruct (on_grid_Rep HB Hx) as (kx & Bx & Rx).
  destruct (on_grid_Rep HB Hy) as (ky & By & Ry).
  exists kx, ky. repeat (split; [assumption|]).
  unfold real. now rewrite (Rep64_value Ht Rx), (Rep64_value Ht Ry).
Qed.

Lemma default_on_grid (t B : Z) : 0 <= B -> point_on_grid t B Cartesian_default.
Proof. intro HB. split; exists 0; (split; [exact HB | left; reflexivity]). Qed.

Lemma real_default : real Cartesian_default = Cartesian_default.
Proof. reflexivity. Qed.

Section OnGrid.

Variable t : Z.
Hypothesis t_range : -511 <= t <= 485.

Abbreviation dom := (point_on_grid t (2 ^ 25 - 1)).

Lemma dom_coordinates (p : point) :
  dom p ->
  exists kx ky : Z,
    Z.abs kx < 2 ^ 25 /\ Z.abs ky < 2 ^ 25
    /\ Rep64 (getX p) kx t /\ Rep64 (getY p) ky t
    /\ real p = Exact.pt (IZR kx * step t) (IZR ky * step t).
Proof.
  intro H.
  assert (Ht : -1022 <= t <= 971) by lia.
  assert (HB : 2 ^ 25 - 1 < 2 ^ 53) by reflexivity.
  destruct (point_coordinates Ht HB H) as (kx & ky & Bx & By & Rx & Ry & E).
  exists kx, ky. split; [lia|]. split; [lia|]. auto.
Qed.

Lemma real_less (p q : point) :
  dom p -> dom q -> Cartesian_ltb (real p) (real q) = Cartesian_ltb p q.
Proof.
  intros Hp Hq.
  destruct (dom_coordinates Hp) as (px & py & _ & _ & Rpx & Rpy & Ep).
  destruct (dom_coordinates Hq) as (qx & qy & _ & _ & Rqx & Rqy & Eq_).
  assert (F : fits IEEE754.prec64 IEEE754.emax64 t) by (apply fits64; lia).
  rewrite Ep, Eq_. unfold Cartesian_ltb.
  cbn [getX getY Exact.pt dltb deqb RealArith IEEE754.arith].
  rewrite !Rltb_scaled, Reqb_scaled by apply step_pos.
  rewrite (Rep_ltb prec64_ok F Rpx Rqx), (Rep_eqb prec64_ok F Rpx Rqx),
    (Rep_ltb prec64_ok F Rpy Rqy).
  reflexivity.
Qed.

(** On the grid crossProduct is computed without error. *)
Lemma crossProduct_exact (z a b : point) :
  dom z -> dom a -> dom b ->
  exists c : Z,
    Rep64 (crossProduct z a b) c (t + t)
    /\ (crossProduct (real z) (real a) (real b) : R) = (IZR c * step (t + t))%R.
Proof.
  intros Hz Ha Hb.
  destruct (dom_coordinates Hz) as (zx & zy & Bzx & Bzy & Rzx & Rzy & Ez).
  destruct (dom_coordinates Ha) as (ax & ay & Bax & Bay & Rax & Ray & Ea).
  destruct (dom_coordinates Hb) as (bx & by_ & Bbx & Bby & Rbx & Rby & Eb).
  exists (cross zx zy ax ay bx by_). split.
  - apply crossProduct_Rep; assumption.
  - rewrite Ez, Ea, Eb, Exact.crossProduct_eq. cbn [getX getY Exact.pt].
    unfold cross. rewrite step_add, minus_IZR, !mult_IZR, !minus_IZR. ring.
Qed.

Lemma real_turn (z a b : point) :
  dom z -> dom a -> dom b ->
  (crossProduct (real z) (real a) (real b) <=? dlit RealArith 0)%dbl
  = (crossProduct z a b <=? dlit IEEE754.arith 0)%dbl.
Proof.
  intros Hz Ha Hb. destruct (crossProduct_exact Hz Ha Hb) as (c & Rc & Ec).
  assert (F : fits IEEE754.prec64 IEEE754.emax64 (t + t)) by (apply fits64; lia).
  cbn [dleb dlit RealArith IEEE754.arith].
  assert (R0 : Rep64 (IEEE754.of_Z IEEE754.prec64 IEEE754.emax64 0) 0 (t + t)).
  { apply (Rep_zero IEEE754.emax64 prec64_ok). exact I. }
  rewrite (Rep_leb prec64_ok F Rc R0).
  change (crossProduct (real z) (real a) (real b))
    with (crossProduct (real z) (real a) (real b) : R).
  rewrite Ec. replace (IZR 0) with (IZR 0 * step (t + t))%R by ring.
  apply Rleb_scaled, step_pos.
Qed.

(** The machine hull, read as points of the plane, is the hull that
    real arithmetic gives on the same points. *)
Lemma convexHull_real (polygons : list (Polygon IEEE754.arith)) :
  Forall dom (flat_map getVertices polygons) ->
  map real (getVertices (convexHull polygons))
  = getVertices (convexHull (map real_polygon polygons))
  /\ Forall dom (getVertices (convexHull polygons)).
Proof.
  intro H.
  assert (H0 : 0 <= 2 ^ 25 - 1) by (apply Z.leb_le; reflexivity).
  exact (@convexHull_map IEEE754.arith RealArith dom real
           (default_on_grid t H0) real_default
           real_less real_turn polygons H).
Qed.

End OnGrid.

(** ** polygonArea

    The accumulator is a [float]: every partial sum has to fit in its 24
    bits.  With [n] vertices of numerators bounded by [B] the partial
    sums are bounded by [2 * n * B * B]. *)

Lemma area_bounds (S c q p1 p2 T24 T53 : Z) :
  Z.abs S <= c -> Z.abs p1 <= q -> Z.abs p2 <= q ->
  c + 2 * q < T24 -> T24 < T53 ->
  Z.abs S < T53 /\ Z.abs p1 < T53 /\ Z.abs p2 < T53
  /\ Z.abs (S + p1) < T53 /\ Z.abs (S + p1) < T24
  /\ Z.abs (S + p1 - p2) < T53 /\ Z.abs (S + p1 - p2) < T24
  /\ Z.abs (S + p1 - p2) <= c + 2 * q.
Proof. lia. Qed.

Lemma at_on_grid (t B : Z) (vs : list point) (i : nat) :
  0 <= B -> Forall (point_on_grid t B) vs -> point_on_grid t B (at_ vs i).
Proof.
  intros HB H. unfold at_. revert i. induction H as [| v vs Hv H IH]; intros [| i]; cbn [nth];
    try apply default_on_grid; auto.
Qed.

Lemma at_real (vs : list point) (i : nat) : at_ (map real vs) i = real (at_ vs i).
Proof. unfold at_. rewrite <- real_default. apply map_nth. Qed.

Section Area.

Variables t B : Z.
Hypothesis t_range : -62 <= t <= 52.
Hypothesis B_nonneg : 0 <= B.

Variable vs : list point.
Hypothesis vs_on_grid : Forall (point_on_grid t B) vs.

Let F64 : fits IEEE754.prec64 IEEE754.emax64 t.
Proof. apply fits64. lia. Qed.

Let F64' : fits IEEE754.prec64 IEEE754.emax64 (t + t).
Proof. apply fits64. lia. Qed.

Let F32' : fits IEEE754.prec32 IEEE754.emax32 (t + t).
Proof. apply fits32. lia. Qed.

Lemma polygonArea_step_exact (area : spec_float) (S c : Z) (i : nat) :
  Rep32 area S (t + t) -> Z.abs S <= c -> c + 2 * (B * B) < 2 ^ 24 ->
  exists S' : Z,
    Rep32 (polygonArea_step vs area i) S' (t + t)
    /\ Z.abs S' <= c + 2 * (B * B)
    /\ (polygonArea_step (Ar:=RealArith) (map real vs) (IZR S * step (t + t)) i
        = IZR S' * step (t + t))%R.
Proof.
  intros Harea HS Hc.
  assert (HBB : B <= B * B) by nia.
  assert (HB53 : B < 2 ^ 53) by (assert (2 ^ 24 < 2 ^ 53) by reflexivity; lia).
  assert (Ht : -1022 <= t <= 971) by lia.
  unfold polygonArea_step. rewrite length_map, !at_real.
  set (j := ((i + 1) mod length vs)%nat).
  destruct (point_coordinates Ht HB53 (at_on_grid i B_nonneg vs_on_grid))
    as (xi & yi & Bxi & Byi & Rxi & Ryi & Ei).
  destruct (point_coordinates Ht HB53 (at_on_grid j B_nonneg vs_on_grid))
    as (xj & yj & Bxj & Byj & Rxj & Ryj & Ej).
  rewrite Ei, Ej. cbn [getX getY Exact.pt].
  pose proof (abs_mul_le _ _ Bxi Byj) as P1. pose proof (abs_mul_le _ _ Byi Bxj) as P2.
  assert (T : 2 ^ IEEE754.prec32 < 2 ^ IEEE754.prec64) by reflexivity.
  change (2 ^ 24) with (2 ^ IEEE754.prec32) in Hc.
  destruct (@area_bounds _ _ _ _ _ _ _ HS P1 P2 Hc T) as (b1 & b2 & b3 & b4 & b5 & b6 & b7 & b8).
  exists (S + xi * yj - yi * xj). split; [|split].
  - cbn [narrow widen dadd dsub dmul IEEE754.arith].
    apply (Rep_round_to prec64_ok prec32_ok F64' F32' b7).
    apply (Rep_sub prec64_ok F64'); [| | exact b6].
    + apply (Rep_round_to prec32_ok prec64_ok F32' F64' b4).
      apply (Rep_round_to prec64_ok prec32_ok F64' F32' b5).
      apply (Rep_add prec64_ok F64'); [| | exact b4].
      * apply (Rep_round_to prec32_ok prec64_ok F32' F64' b1 Harea).
      * apply (Rep_mul prec64_ok F64 F64 F64' Rxi Ryj b2).
    + apply (Rep_mul prec64_ok F64 F64 F64' Ryi Rxj b3).
  - exact b8.
  - cbn [narrow widen dadd dsub dmul RealArith].
    rewrite minus_IZR, plus_IZR, !mult_IZR, step_add.
    match goal with |- ?l = ?r => change (@eq R l r) end. ring.
Qed.

Lemma polygonArea_fold_exact (idx : list nat) :
  forall (area : spec_float) (S c : Z),
    Rep32 area S (t + t) -> Z.abs S <= c ->
    c + 2 * Z.of_nat (length idx) * (B * B) < 2 ^ 24 ->
    exists S' : Z,
      Rep32 (fold_left (polygonArea_step vs) idx area) S' (t + t)
      /\ (fold_left (polygonArea_step (Ar:=RealArith) (map real vs)) idx
                    (IZR S * step (t + t))
          = IZR S' * step (t + t))%R.
Proof.
  induction idx as [| i idx IH]; intros area S c Harea HS Hc.
  - exists S. split; [exact Harea | reflexivity].
  - cbn [fold_left]. cbn [length] in Hc. rewrite Nat2Z.inj_succ in Hc.
    set (q := B * B) in *. set (n := Z.of_nat (length idx)) in *.
    assert (Hq : 0 <= q) by apply Z.square_nonneg.
    assert (Hn : 0 <= n * q) by (apply Z.mul_nonneg_nonneg; [apply Nat2Z.is_nonneg | exact Hq]).
    replace (2 * Z.succ n * q) with (2 * q + 2 * (n * q)) in Hc by ring.
    destruct (@polygonArea_step_exact area S c i Harea HS ltac:(fold q; lia))
      as (S1 & R1 & B1 & E1).
    rewrite E1. apply (IH _ S1 (c + 2 * q) R1 B1).
    fold n. replace (2 * n * q) with (2 * (n * q)) by ring. lia.
Qed.

Let F64h : fits IEEE754.prec64 IEEE754.emax64 (t + t - 1).
Proof. apply fits64. lia. Qed.

Let F32h : fits IEEE754.prec32 IEEE754.emax32 (t + t - 1).
Proof. apply fits32. lia. Qed.

Lemma step_half (s : Z) : step (s - 1) = (step s / 2)%R.
Proof.
  unfold Z.sub. rewrite step_add. unfold step at 2.
  replace (powerRZ 2 (- (1))) with (/ 2)%R by (simpl; lra). reflexivity.
Qed.

(** polygonArea on the grid: the value returned is exactly half the
    absolute value of the sum the loop forms without rounding. *)
Lemma polygonArea_exact :
  2 * Z.of_nat (length vs) * (B * B) < 2 ^ 24 ->
  exists S : Z,
    polygonArea (mkPolygon vs) = IEEE754.mk (Z.abs S) (t + t - 1)
    /\ Z.abs S < 2 ^ 24
    /\ (polygonArea (Ar:=RealArith) (mkPolygon (map real vs)) : R)
       = (IZR (Z.abs S) * step (t + t - 1))%R.
Proof.
  intro Hn. unfold polygonArea. cbn [getVertices]. rewrite length_map.
  assert (R0 : Rep32 (flit IEEE754.arith 0) 0 (t + t)).
  { apply (Rep_zero IEEE754.emax32 prec32_ok). exact I. }
  destruct (@polygonArea_fold_exact (seq 0 (length vs)) _ 0 0 R0 ltac:(cbn; lia)
              ltac:(rewrite length_seq; exact Hn)) as (S & RS & ES).
  replace (flit RealArith 0) with (IZR 0 * step (t + t))%R by (cbn [flit RealArith]; ring).
  rewrite ES. exists S.
  assert (b24 : Z.abs S < 2 ^ IEEE754.prec32) by apply RS.
  assert (b53 : Z.abs S < 2 ^ IEEE754.prec64).
  { eapply Z.lt_trans; [exact b24 | reflexivity]. }
  assert (b24' : Z.abs (Z.abs S) < 2 ^ IEEE754.prec32) by (rewrite Z.abs_idemp; exact b24).
  assert (b53' : Z.abs (Z.abs S) < 2 ^ IEEE754.prec64) by (rewrite Z.abs_idemp; exact b53).
  split; [|split].
  - cbn [narrow widen ddiv dlit fabs IEEE754.arith].
    pose proof (Rep_round_to prec32_ok prec64_ok F32' F64' b53 RS) as W.
    assert (F64'' : fits IEEE754.prec64 IEEE754.emax64 (t + t - 2)) by (apply fits64; lia).
    pose proof (Rep_half prec64_ok emax64_ok F64' F64'' W) as H.
    pose proof (Rep_round_to prec64_ok prec32_ok F64h F32h b24 H) as N.
    change (IEEE754.of_Z IEEE754.prec64 IEEE754.emax64 2)
      with (dy IEEE754.prec64 IEEE754.emax64 2 0).
    rewrite (Rep_abs_dy prec32_ok F32h N).
    apply (round_to_dy (Z.abs S) prec32_ok prec64_ok F32h F64h b24' b53').
  - exact b24.
  - cbn [narrow widen ddiv dlit fabs RealArith].
    rewrite abs_IZR, step_half.
    match goal with |- ?l = ?r => change (@eq R l r) end.
    pose proof (step_pos (t + t)) as Hs.
    unfold Rdiv. rewrite !Rabs_mult. rewrite (Rabs_pos_eq (step (t + t))) by lra.
    rewrite (Rabs_pos_eq (/ 2)) by lra. ring.
Qed.

End Area.

Lemma value_mk (z e : Z) :
  Z.abs z < 2 ^ 53 -> -1022 <= e <= 971 -> value (IEEE754.mk z e) = (IZR z * step e)%R.
Proof. intros Hz He. apply (Rep64_value He). apply Rep_dy. exact Hz. Qed.

Lemma real_pt (x y : Z) :
  Z.abs x < 2 ^ 53 -> Z.abs y < 2 ^ 53 -> real (IEEE754.pt x y) = Exact.pt (IZR x) (IZR y).
Proof.
  intros Hx Hy. unfold real, IEEE754.pt. cbn [getX getY].
  rewrite !value_mk by (assumption || lia). unfold step. cbn [powerRZ].
  now rewrite !Rmult_1_r.
Qed.

Lemma pt_on_grid (x y B : Z) :
  Z.abs x <= B -> Z.abs y <= B -> point_on_grid 0 B (IEEE754.pt x y).
Proof. intros Hx Hy. split; [exists x | exists y]; (split; [assumption | left; reflexivity]). Qed.

(** *** polygonArea, for every polygon of the grid *)

Lemma polygonArea_on_grid (t B : Z) (P : Polygon IEEE754.arith) :
  -62 <= t <= 52 ->
  Forall (point_on_grid t B) (getVertices P) ->
  2 * Z.of_nat (length (getVertices P)) * (B * B) < 2 ^ 24 ->
  exists S : Z,
    0 <= S < 2 ^ 24
    /\ polygonArea P = IEEE754.mk S (t + t - 1)
    /\ (IZR S * step (t + t - 1))%R
       = Rabs (Exact.shoelace (map real (getVertices P)) / 2).
Proof.
  intros Ht Hg Hn. destruct P as [vs]. cbn [getVertices] in *.
  assert (E : exists S : Z,
             polygonArea (mkPolygon vs) = IEEE754.mk (Z.abs S) (t + t - 1)
             /\ Z.abs S < 2 ^ 24
             /\ (polygonArea (Ar:=RealArith) (mkPolygon (map real vs)) : R)
                = (IZR (Z.abs S) * step (t + t - 1))%R).
  { destruct vs as [| v vs].
    - apply (@polygonArea_exact t 0 Ht (Z.le_refl 0) [] (Forall_nil _)). reflexivity.
    - apply (@polygonArea_exact t B Ht); [| exact Hg | exact Hn].
      inversion Hg as [| ? ? [(k & Hk & _) _] _]. lia. }
  destruct E as (S & E1 & E2 & E3). exists (Z.abs S).
  split; [lia|]. split; [exact E1|].
  rewrite <- E3. apply (Exact.polygonArea_eq (mkPolygon (map real vs))).
Qed.

Lemma rotate_Forall (A : Type) (Q : A -> Prop) (k : nat) (l : list A) :
  Forall Q l -> Forall Q (skipn k l ++ firstn k l).
Proof.
  intro H. rewrite <- (firstn_skipn k l) in H. apply Forall_app in H.
  apply Forall_app. tauto.
Qed.

Lemma rotate_length (A : Type) (k : nat) (l : list A) :
  length (skipn k l ++ firstn k l) = length l.
Proof.
  rewrite <- (firstn_skipn k l) at 3. rewrite !length_app. lia.
Qed.

Lemma real_rotated (k : nat) (vs : list point) :
  map real (rotate k vs) = rotate k (map real vs).
Proof. unfold rotate. now rewrite map_app, skipn_map, firstn_map. Qed.

(** Two polygons of the grid whose shoelace sums have the same absolute
    value get the same datum. *)
Lemma polygonArea_same (t B : Z) (P Q : Polygon IEEE754.arith) :
  -62 <= t <= 52 ->
  Forall (point_on_grid t B) (getVertices P) ->
  Forall (point_on_grid t B) (getVertices Q) ->
  2 * Z.of_nat (length (getVertices P)) * (B * B) < 2 ^ 24 ->
  length (getVertices Q) = length (getVertices P) ->
  Rabs (Exact.shoelace (map real (getVertices Q)) / 2)
  = Rabs (Exact.shoelace (map real (getVertices P)) / 2) ->
  polygonArea Q = polygonArea P.
Proof.
  intros Ht HP HQ Hn Hlen HR.
  destruct (@polygonArea_on_grid t B P Ht HP Hn) as (S & _ & E1 & E2).
  rewrite <- Hlen in Hn.
  destruct (@polygonArea_on_grid t B Q Ht HQ Hn) as (S' & _ & E1' & E2').
  rewrite E1, E1'. f_equal. apply eq_IZR.
  apply (Rmult_eq_reg_r (step (t + t - 1))).
  - rewrite E2, E2'. exact HR.
  - pose proof (step_pos (t + t - 1)). lra.
Qed.

Lemma polygonArea_readings (t B : Z) (P : Polygon IEEE754.arith) :
  -62 <= t <= 52 ->
  Forall (point_on_grid t B) (getVertices P) ->
  2 * Z.of_nat (length (getVertices P)) * (B * B) < 2 ^ 24 ->
  (forall k, polygonArea (rotated k P) = polygonArea P)
  /\ polygonArea (reversed P) = polygonArea P.
Proof.
  intros Ht Hg Hn. split.
  - intro k. apply (@polygonArea_same t B P (rotated k P) Ht Hg); [| exact Hn | |].
    + apply rotate_Forall, Hg.
    + apply rotate_length.
    + unfold rotated. cbn [getVertices]. rewrite real_rotated.
      pose proof (Exact.polygonArea_rotated k (mkPolygon (map real (getVertices P)))) as H.
      rewrite !Exact.polygonArea_eq in H. exact H.
  - apply (@polygonArea_same t B P (reversed P) Ht Hg); [| exact Hn | |].
    + apply Forall_rev, Hg.
    + apply length_rev.
    + unfold reversed. cbn [getVertices]. rewrite map_rev.
      pose proof (Exact.polygonArea_reversed (mkPolygon (map real (getVertices P)))) as H.
      rewrite !Exact.polygonArea_eq in H. exact H.
Qed.

(** *** crossProduct, for all points of the grid *)


(** *** crossProduct, for all points: exchanging the last two *)



(** *** linesIntersect, for segments of the grid

    The four cross products are narrowed to [float] and multiplied in
    [float].  On a grid whose cross products fit a [float] the narrowing
    is exact; the products are rounded, and away from underflow a
    rounded product keeps the sign of the exact one, which is all the
    test reads. *)

Definition real_segment (A : Segment IEEE754.arith) : Exact.segment :=
  (real (fst A), real (snd A)).

Definition segment_on_grid (t B : Z) (A : Segment IEEE754.arith) : Prop :=
  point_on_grid t B (fst A) /\ point_on_grid t B (snd A).

Lemma cross_bound (B zx zy ax ay bx by_ : Z) :
  Z.abs zx <= B -> Z.abs zy <= B -> Z.abs ax <= B -> Z.abs ay <= B ->
  Z.abs bx <= B -> Z.abs by_ <= B ->
  Z.abs (cross zx zy ax ay bx by_) <= 8 * (B * B).
Proof.
  intros Hzx Hzy Hax Hay Hbx Hby. unfold cross.
  pose proof (abs_mul_le _ _ (abs_sub_le _ _ Hax Hzx) (abs_sub_le _ _ Hby Hzy)) as P1.
  pose proof (abs_mul_le _ _ (abs_sub_le _ _ Hay Hzy) (abs_sub_le _ _ Hbx Hzx)) as P2.
  pose proof (abs_sub_le _ _ P1 P2) as P3.
  replace (8 * (B * B)) with ((B + B) * (B + B) + (B + B) * (B + B)) by ring.
  exact P3.
Qed.

Lemma small_grid (B k : Z) : 8 * (B * B) < 2 ^ 24 -> Z.abs k <= B -> B < 2 ^ 25.
Proof.
  intros HB Hk. assert (0 <= B) by lia.
  assert (E : 2 ^ 24 < 2 ^ 25) by reflexivity.
  set (T := 2 ^ 25) in *. set (U := 2 ^ 24) in *.
  destruct (Z.lt_ge_cases B T) as [|Hge]; [assumption|].
  assert (T * 1 <= B * B).
  { apply Z.mul_le_mono_nonneg; lia. }
  lia.
Qed.

Lemma crossProduct_narrow (t B : Z) (z a b : point) :
  -63 <= t <= 52 -> 8 * (B * B) < 2 ^ 24 ->
  point_on_grid t B z -> point_on_grid t B a -> point_on_grid t B b ->
  exists c : Z,
    Rep32 (narrow IEEE754.arith (crossProduct z a b)) c (t + t)
    /\ (crossProduct (real z) (real a) (real b) : R) = (IZR c * step (t + t))%R.
Proof.
  intros Ht HB Hz Ha Hb.
  assert (Ht' : -1022 <= t <= 971) by lia.
  assert (HB25 : B < 2 ^ 25).
  { destruct Hz as [(k & Hk & _) _]. exact (small_grid k HB Hk). }
  assert (HB53 : B < 2 ^ 53) by (assert (2 ^ 25 < 2 ^ 53) by reflexivity; lia).
  destruct (point_coordinates Ht' HB53 Hz) as (zx & zy & Bzx & Bzy & Rzx & Rzy & Ez).
  destruct (point_coordinates Ht' HB53 Ha) as (ax & ay & Bax & Bay & Rax & Ray & Ea).
  destruct (point_coordinates Ht' HB53 Hb) as (bx & by_ & Bbx & Bby & Rbx & Rby & Eb).
  exists (cross zx zy ax ay bx by_). split.
  - cbn [narrow IEEE754.arith].
    assert (F64 : fits IEEE754.prec64 IEEE754.emax64 (t + t)) by (apply fits64; lia).
    assert (F32 : fits IEEE754.prec32 IEEE754.emax32 (t + t)) by (apply fits32; lia).
    assert (Hc : Z.abs (cross zx zy ax ay bx by_) < 2 ^ IEEE754.prec32).
    { pose proof (cross_bound _ _ _ _ _ _ Bzx Bzy Bax Bay Bbx Bby) as Hc.
      change (2 ^ IEEE754.prec32) with (2 ^ 24). lia. }
    apply (Rep_round_to prec64_ok prec32_ok F64 F32 Hc).
    apply crossProduct_Rep; try assumption; lia.
  - rewrite Ez, Ea, Eb, Exact.crossProduct_eq. cbn [getX getY Exact.pt].
    unfold cross. rewrite step_add, minus_IZR, !mult_IZR, !minus_IZR. ring.
Qed.

Lemma product_test (t : Z) (x y : spec_float) (c d : Z) :
  -31 <= t <= 52 ->
  Rep32 x c (t + t) -> Rep32 y d (t + t) ->
  (fmul IEEE754.arith x y <=? flit IEEE754.arith 0)%flt
  = Rleb (IZR c * step (t + t) * (IZR d * step (t + t))) 0.
Proof.
  intros Ht Hx Hy.
  cbn [fmul fleb flit IEEE754.arith].
  change (IEEE754.of_Z IEEE754.prec32 IEEE754.emax32 0) with (S754_zero false).
  rewrite (@Rep_mul_leb IEEE754.prec32 IEEE754.emax32 prec32_ok x y c d (t + t) (t + t) false);
    [| apply fits32; lia | apply fits32; lia | unfold IEEE754.emax32; lia | exact Hx | exact Hy].
  replace (IZR c * step (t + t) * (IZR d * step (t + t)))%R
    with (IZR (c * d) * (step (t + t) * step (t + t)))%R by (rewrite mult_IZR; ring).
  assert (Hl : (0 < step (t + t) * step (t + t))%R) by (pose proof (step_pos (t + t)); nra).
  rewrite <- (Rleb_scaled (c * d) 0 Hl). f_equal. ring.
Qed.

Lemma linesIntersect_real (t B : Z) (A1 A2 : Segment IEEE754.arith) :
  -31 <= t <= 52 -> 8 * (B * B) < 2 ^ 24 ->
  segment_on_grid t B A1 -> segment_on_grid t B A2 ->
  linesIntersect A1 A2 = linesIntersect (real_segment A1) (real_segment A2).
Proof.
  intros Ht HB [H1 H2] [H3 H4].
  assert (Ht' : -63 <= t <= 52) by lia.
  destruct (crossProduct_narrow Ht' HB H1 H3 H2) as (c1 & R1 & E1).
  destruct (crossProduct_narrow Ht' HB H1 H4 H2) as (c2 & R2 & E2).
  destruct (crossProduct_narrow Ht' HB H3 H1 H4) as (c3 & R3 & E3).
  destruct (crossProduct_narrow Ht' HB H3 H2 H4) as (c4 & R4 & E4).
  unfold linesIntersect, real_segment. cbn [fst snd].
  rewrite (product_test Ht R1 R2), (product_test Ht R3 R4).
  cbn [narrow fmul fleb flit RealArith].
  rewrite E1, E2, E3, E4. reflexivity.
Qed.

(** *** convexHull and the arrangement the sort leaves

    [std::sort] promises a permutation of the points in which no point
    is less than an earlier one, and nothing about the order of points
    that compare equivalent.  On the grid, equivalent points have the
    same coordinates as numbers (a zero may differ in sign), and the
    hull that the two loops build is the same sequence of points of the
    plane for every such arrangement. *)

Definition arranged (s : list point) : Prop :=
  StronglySorted (fun a b => Cartesian_ltb b a = false) s.

Section Arrangement.

Variable t : Z.
Hypothesis t_range : -511 <= t <= 485.

Lemma arranged_real (s : list point) :
  Forall (point_on_grid t (2 ^ 25 - 1)) s -> arranged s ->
  Exact.sorted_by_less (map real s).
Proof.
  intros Hdom Hs. induction Hs as [| a l Hl IH Ha]; cbn [map]; [constructor|].
  inversion Hdom as [| ? ? Da Dl]; subst.
  constructor; [exact (IH Dl)|].
  rewrite Forall_forall in *. intros q Hq.
  apply in_map_iff in Hq. destruct Hq as (b & <- & Hb).
  rewrite (real_less t_range (Dl b Hb) Da). exact (Ha b Hb).
Qed.

Lemma hull_loops_arranged (polygons : list (Polygon IEEE754.arith)) (s hull0 : list point) :
  Forall (point_on_grid t (2 ^ 25 - 1)) (flat_map getVertices polygons) ->
  Permutation s (flat_map getVertices polygons) ->
  arranged s ->
  length hull0 = (2 * length s)%nat ->
  map real (getVertices (hull_loops (length s) s hull0))
  = map real (getVertices (convexHull polygons)).
Proof.
  intros Hdom Hperm Hs H0.
  assert (Hds : Forall (point_on_grid t (2 ^ 25 - 1)) s).
  { rewrite Forall_forall in *. intros p Hp. apply Hdom.
    exact (Permutation_in p Hperm Hp). }
  assert (HB : 0 <= 2 ^ 25 - 1) by (apply Z.leb_le; reflexivity).
  rewrite (@hull_loops_map IEEE754.arith RealArith (point_on_grid t (2 ^ 25 - 1)) real
             (default_on_grid t HB) real_default
             (real_turn t_range) s hull0 Hds H0).
  destruct (convexHull_real t_range polygons Hdom) as [-> _].
  rewrite convexHull_chains.
  assert (E : map real s
              = sort (flat_map getVertices (map real_polygon polygons))).
  { apply Exact.sorted_by_less_sort.
    - change (map real_polygon polygons) with (map (map_polygon real) polygons).
      rewrite (@flat_map_map_polygon IEEE754.arith RealArith real polygons).
      apply Permutation_map, Hperm.
    - exact (arranged_real Hds Hs). }
  rewrite E. reflexivity.
Qed.

End Arrangement.
End Grid.

(** * Where the machine arithmetic rounds

    Concrete inputs off the range in which the arithmetic is exact: the
    [float] accumulator of polygonArea and the [double] products of
    crossProduct lose the low bits, and the results differ from those
    of real arithmetic. *)

Module Rounded.

Import IEEE754.
Local Open Scope Z_scope.

(** The unit square with its lower left corner at (4096, 4096). *)
Definition far_square : Polygon arith :=
  mkPolygon [pt 4096 4096; pt 4097 4096; pt 4097 4097; pt 4096 4097].

Lemma far_square_area : polygonArea far_square = mk 0 0.
Proof. vm_compute. reflexivity. Qed.

Lemma far_square_reversed_area : polygonArea (reversed far_square) = mk 1 0.
Proof. vm_compute. reflexivity. Qed.

Lemma far_square_real :
  map Grid.real (getVertices far_square)
  = [Exact.pt 4096 4096; Exact.pt 4097 4096; Exact.pt 4097 4097; Exact.pt 4096 4097].
Proof.
  unfold far_square. cbn [getVertices map].
  rewrite !Grid.real_pt by reflexivity. reflexivity.
Qed.

Lemma far_square_shoelace :
  Rabs (Exact.shoelace (map Grid.real (getVertices far_square)) / 2) = 1%R.
Proof.
  rewrite far_square_real.
  unfold Exact.shoelace, Exact.boundary_sum, Exact.shoelace_term.
  cbn [Exact.closed app Exact.path_sum getX getY Exact.pt].
  match goal with |- Rabs ?x = _ => replace x with 1%R by lra end.
  apply Rabs_R1.
Qed.

(** Three points that are not on one line: (0, 0), (2^27 + 1, 2^27) and
    (2^27 + 2, 2^27 + 1). *)
Definition far_O : Cartesian arith := pt 0 0.
Definition far_A : Cartesian arith := pt 134217729 134217728.
Definition far_B : Cartesian arith := pt 134217730 134217729.

Definition far_triangle : list (Polygon arith) := [mkPolygon [far_O; far_A; far_B]].

Lemma far_triangle_hull :
  getVertices (convexHull far_triangle) = [far_O; far_B; far_O].
Proof. apply Machine.map_coordinates_eq. vm_compute. reflexivity. Qed.

Lemma far_triangle_real :
  map Grid.real (flat_map getVertices far_triangle)
  = [Exact.pt 0 0; Exact.pt 134217729 134217728; Exact.pt 134217730 134217729].
Proof.
  unfold far_triangle, far_O, far_A, far_B. cbn [flat_map getVertices app map].
  rewrite !Grid.real_pt by reflexivity. reflexivity.
Qed.

Lemma far_triangle_hull_real :
  map Grid.real (getVertices (convexHull far_triangle))
  = [Exact.pt 0 0; Exact.pt 134217730 134217729; Exact.pt 0 0].
Proof.
  rewrite far_triangle_hull. unfold far_O, far_B. cbn [map].
  rewrite !Grid.real_pt by reflexivity. reflexivity.
Qed.





End Rounded.


(** * The claims on concrete inputs and on both arithmetics *)

(** C1 (the code departs from the claim): the disjoint segments
    (0,0)-(1,0) and (2,0)-(3,0) of one line have no point in common, and
    linesIntersect returns true on them, in exact and in machine
    arithmetic alike: all four cross products are zero, so both products
    are zero and pass the test [<= 0]. *)
Theorem linesIntersect_collinear_disjoint :
  ~ Exact.segments_meet (Exact.pt 0 0, Exact.pt 1 0) (Exact.pt 2 0, Exact.pt 3 0)
  /\ linesIntersect (Exact.pt 0 0, Exact.pt 1 0) (Exact.pt 2 0, Exact.pt 3 0) = true
  /\ linesIntersect Machine.on_axis_near Machine.on_axis_far = true.
Proof.
  split; [|split].
  - intros (p & (s & Hs & Hsx & _) & (t & Ht & Htx & _)).
    cbn [fst snd getX Exact.pt] in Hsx, Htx. lra.
  - apply Exact.linesIntersect_true. rewrite !Exact.crossProduct_eq.
    cbn [fst snd getX getY Exact.pt]. lra.
  - exact Machine.collinear_disjoint_linesIntersect.
Qed.

(** C2, as stated, fails on the triangle (0,0), (1,0), (0,1): the
    segments do not come in the order "segment i connects vertex i to
    vertex i+1 mod n" (the first one returned connects vertex 2 to
    vertex 0). *)
Lemma getLineSegments_claimed_order_fails :
  (3 <= length (getVertices Machine.triangle))%nat
  /\ ~ (exists segments,
          getLineSegments Machine.triangle = Some segments
          /\ claimed_order Machine.triangle segments).
Proof.
  split; [simpl; lia|].
  intros (segments & E & _ & Hnth).
  rewrite Machine.triangle_getLineSegments in E. injection E as <-.
  specialize (Hnth 0%nat (IEEE754.pt 0 0, IEEE754.pt 0 0)).
  unfold Machine.triangle in Hnth. cbn [getVertices length nth at_ Nat.add] in Hnth.
  specialize (Hnth ltac:(lia)). change (1 mod 3)%nat with 1%nat in Hnth.
  cbn [nth] in Hnth.
  apply Machine.triangle_first_segment. now rewrite Hnth.
Qed.

Lemma getLineSegments_order_witness :
  (3 <= length (getVertices Machine.triangle))%nat
  /\ exists segments : list (Segment IEEE754.arith),
       getLineSegments Machine.triangle = Some segments
       /\ loop_order Machine.triangle segments
       /\ (forall d, nth 0 segments d
                     = (at_ (getVertices Machine.triangle)
                            (length (getVertices Machine.triangle) - 1),
                        at_ (getVertices Machine.triangle) 0))
       /\ (forall d, nth (length (getVertices Machine.triangle) - 1) segments d
                     = (at_ (getVertices Machine.triangle)
                            (length (getVertices Machine.triangle) - 2),
                        at_ (getVertices Machine.triangle)
                            (length (getVertices Machine.triangle) - 1))).
Proof.
  split; [simpl; lia|].
  apply (getLineSegments_order Machine.triangle). simpl. lia.
Defined.

(** C4, as stated, fails in the arithmetic of the code: for the unit
    square with its lower left corner at (4096, 4096), whose shoelace
    sum is 2 and whose area is 1, polygonArea returns 0; and read
    backwards from the same vertex it returns 1, so the result depends
    on the winding too. *)
Lemma polygonArea_far_square_not_shoelace :
  ~ (Dyadic.value (polygonArea Rounded.far_square)
     = Rabs (Exact.shoelace (map Grid.real (getVertices Rounded.far_square)) / 2)
     /\ polygonArea (reversed Rounded.far_square) = polygonArea Rounded.far_square).
Proof.
  intros [H _]. rewrite Rounded.far_square_area, Rounded.far_square_shoelace in H.
  cbn [IEEE754.mk binary_normalize Dyadic.value] in H. lra.
Qed.

(** C4, as amended: for every polygon with n vertices whose coordinates
    are integer multiples k * 2^t of one power of two (-62 <= t <= 52)
    with |k| <= B, where 2 * n * B^2 < 2^24, polygonArea returns exactly
    the absolute value of half the shoelace sum over the consecutive
    vertex pairs: the double S * 2^(2t-1), with S >= 0, that equals
    |sum / 2|.  The result is the same datum from whichever vertex the
    list starts and in whichever direction it winds.  In particular the
    unit square (0,0), (1,0), (1,1), (0,1) has area 1.0 from every
    starting vertex and in both directions. *)
Theorem polygonArea_shoelace_on_grid :
  (forall (t B : Z) (P : Polygon IEEE754.arith),
      (-62 <= t <= 52)%Z ->
      Forall (Grid.point_on_grid t B) (getVertices P) ->
      (2 * Z.of_nat (length (getVertices P)) * (B * B) < 2 ^ 24)%Z ->
      (exists S : Z,
          (0 <= S < 2 ^ 24)%Z
          /\ polygonArea P = IEEE754.mk S (t + t - 1)
          /\ (IZR S * powerRZ 2 (t + t - 1))%R
             = Rabs (Exact.shoelace (map Grid.real (getVertices P)) / 2))
      /\ (forall k : nat, polygonArea (rotated k P) = polygonArea P)
      /\ polygonArea (reversed P) = polygonArea P)
  /\ Forall (fun k => polygonArea (rotated k Machine.unit_square) = Machine.one
                      /\ polygonArea (reversed (rotated k Machine.unit_square)) = Machine.one)
            [0; 1; 2; 3]%nat.
Proof.
  split.
  - intros t B P Ht Hg Hn. split.
    + exact (Grid.polygonArea_on_grid P Ht Hg Hn).
    + exact (Grid.polygonArea_readings P Ht Hg Hn).
  - exact Machine.machine_polygonArea_unit_square.
Qed.

Lemma unit_square_on_grid :
  Forall (Grid.point_on_grid 0 1) (getVertices Machine.unit_square).
Proof.
  unfold Machine.unit_square. cbn [getVertices].
  repeat (apply Forall_cons; [apply Grid.pt_on_grid; apply Z.leb_le; reflexivity|]).
  apply Forall_nil.
Qed.

Lemma polygonArea_shoelace_on_grid_witness :
  (-62 <= 0 <= 52)%Z
  /\ Forall (Grid.point_on_grid 0 1) (getVertices Machine.unit_square)
  /\ (2 * Z.of_nat (length (getVertices Machine.unit_square)) * (1 * 1) < 2 ^ 24)%Z
  /\ (exists S : Z,
         (0 <= S < 2 ^ 24)%Z
         /\ polygonArea Machine.unit_square = IEEE754.mk S (0 + 0 - 1)
         /\ (IZR S * powerRZ 2 (0 + 0 - 1))%R
            = Rabs (Exact.shoelace (map Grid.real (getVertices Machine.unit_square)) / 2))
  /\ (forall k : nat,
         polygonArea (rotated k Machine.unit_square) = polygonArea Machine.unit_square)
  /\ polygonArea (reversed Machine.unit_square) = polygonArea Machine.unit_square.
Proof.
  assert (Ht : (-62 <= 0 <= 52)%Z) by lia.
  assert (Hn : (2 * Z.of_nat (length (getVertices Machine.unit_square)) * (1 * 1) < 2 ^ 24)%Z)
    by reflexivity.
  split; [exact Ht|]. split; [exact unit_square_on_grid|]. split; [exact Hn|].
  exact (proj1 polygonArea_shoelace_on_grid 0%Z 1%Z Machine.unit_square
           Ht unit_square_on_grid Hn).
Defined.

(** C5, as stated, fails in the arithmetic of the code: the points
    (0, 0), A = (2^27 + 1, 2^27) and B = (2^27 + 2, 2^27 + 1) are not on
    one line, and convexHull returns (0, 0), B, (0, 0): the two products
    of crossProduct are rounded to the same double, the three points
    pass for collinear, and A, which lies strictly on the right of the
    edge from (0, 0) to B, is left outside. *)
Lemma convexHull_far_triangle_not_hull :
  Exact.not_all_collinear (map Grid.real (flat_map getVertices Rounded.far_triangle))
  /\ ~ Exact.closed_ccw_hull
        (map Grid.real (flat_map getVertices Rounded.far_triangle))
        (map Grid.real (getVertices (convexHull Rounded.far_triangle))).
Proof.
  rewrite Rounded.far_triangle_real, Rounded.far_triangle_hull_real. split.
  - exists (Exact.pt 0 0), (Exact.pt 134217729 134217728), (Exact.pt 134217730 134217729).
    split; [simpl; tauto|]. split; [simpl; tauto|]. split; [simpl; tauto|].
    rewrite Exact.crossProduct_eq. cbn [getX getY Exact.pt]. lra.
  - intro H.
    pose proof (Exact.hull_encloses H 0 (Exact.pt 134217729 134217728)) as E.
    cbn [length Nat.add at_ nth] in E.
    specialize (E ltac:(lia) ltac:(simpl; tauto)).
    rewrite Exact.crossProduct_eq in E. cbn [getX getY Exact.pt] in E. lra.
Qed.

(** C5, as amended: for every sequence of input polygons whose vertices
    have coordinates that are integer multiples k * 2^t of one power of
    two (-511 <= t <= 485) with |k| < 2^25, and contain at least 3 points
    not all collinear, the vertex list convexHull returns is the convex
    hull of all the input vertices, counter-clockwise and closed: its
    last vertex repeats its first and no other vertex comes twice; its
    vertices are input vertices, and they are the corners of the hull of
    the input, all of them and nothing else (a vertex inside the hull or
    inside an edge is left out); every input vertex is on the left of
    every edge or on it; and the boundary turns left at every vertex. *)
Theorem convexHull_closed_ccw_hull_on_grid
  (t : Z) (polygons : list (Polygon IEEE754.arith)) :
  (-511 <= t <= 485)%Z ->
  Forall (Grid.point_on_grid t (2 ^ 25 - 1)) (flat_map getVertices polygons) ->
  Exact.not_all_collinear (map Grid.real (flat_map getVertices polygons)) ->
  Exact.closed_ccw_hull (map Grid.real (flat_map getVertices polygons))
                        (map Grid.real (getVertices (convexHull polygons))).
Proof.
  intros Ht Hg Hspread.
  destruct (Grid.convexHull_real Ht polygons Hg) as [E _]. rewrite E.
  rewrite <- (flat_map_map_polygon Grid.real polygons) in *.
  apply (Exact.convexHull_closed_ccw_hull (map (map_polygon Grid.real) polygons)).
  exact Hspread.
Qed.

Lemma two_squares_on_grid :
  Forall (Grid.point_on_grid 0 (2 ^ 25 - 1)) (flat_map getVertices Machine.two_squares).
Proof.
  unfold Machine.two_squares. cbn [flat_map getVertices app].
  repeat (apply Forall_cons; [apply Grid.pt_on_grid; apply Z.leb_le; reflexivity|]).
  apply Forall_nil.
Qed.

Lemma two_squares_spread :
  Exact.not_all_collinear (map Grid.real (flat_map getVertices Machine.two_squares)).
Proof.
  exists (Exact.pt 0 0), (Exact.pt 1 0), (Exact.pt 1 1).
  unfold Machine.two_squares. cbn [flat_map getVertices app map].
  rewrite !Grid.real_pt by reflexivity.
  split; [simpl; tauto|]. split; [simpl; tauto|]. split; [simpl; tauto|].
  rewrite Exact.crossProduct_eq. cbn [getX getY Exact.pt]. lra.
Qed.

Lemma convexHull_closed_ccw_hull_on_grid_witness :
  (-511 <= 0 <= 485)%Z
  /\ Forall (Grid.point_on_grid 0 (2 ^ 25 - 1)) (flat_map getVertices Machine.two_squares)
  /\ Exact.not_all_collinear (map Grid.real (flat_map getVertices Machine.two_squares))
  /\ Exact.closed_ccw_hull (map Grid.real (flat_map getVertices Machine.two_squares))
                           (map Grid.real (getVertices (convexHull Machine.two_squares))).
Proof.
  assert (Ht : (-511 <= 0 <= 485)%Z) by lia.
  split; [exact Ht|]. split; [exact two_squares_on_grid|]. split; [exact two_squares_spread|].
  exact (@convexHull_closed_ccw_hull_on_grid 0%Z Machine.two_squares Ht
           two_squares_on_grid two_squares_spread).
Defined.

(** C6 (the code departs from the claim): on the unit square of the third
    quadrant, (-1,-1), (0,-1), (0,0), (-1,0), whose centroid is
    (-1/2, -1/2), centroid returns (1/2, 1/2), in exact and in machine
    arithmetic alike: it takes the absolute value of each sum before it
    divides by six times the (absolute) area. *)
Theorem centroid_third_quadrant :
  Exact.centroid_formula Exact.third_quadrant_square = Exact.pt (- (1 / 2)) (- (1 / 2))
  /\ centroid Exact.third_quadrant_square = Exact.pt (1 / 2) (1 / 2)
  /\ centroid Machine.third_quadrant_square
     = mkCartesian (Ar:=IEEE754.arith) Machine.half Machine.half.
Proof.
  split; [|split].
  - exact Exact.third_quadrant_square_formula.
  - exact Exact.third_quadrant_square_centroid.
  - exact Machine.machine_third_quadrant_square_centroid.
Qed.





(** C8, as stated, fails in the arithmetic of the code: on the segments
    (0,0)-(1,1) and (0,1)-(1,0) linesIntersect is true, and the point
    getIntersectionPoint returns is not (0.5, 0.5). *)
Lemma getIntersectionPoint_diagonals_not_half :
  ~ (linesIntersect Machine.diagonal_up Machine.diagonal_down = true
     /\ getIntersectionPoint Machine.diagonal_up Machine.diagonal_down
        = Returned (mkCartesian (Ar:=IEEE754.arith) Machine.half Machine.half)).
Proof.
  intros [_ H]. rewrite Machine.machine_diagonals_getIntersectionPoint in H.
  apply (f_equal Machine.outcome_coordinates) in H.
  vm_compute in H. discriminate H.
Qed.

(** C8, as amended: on the segments (0,0)-(1,1) and (0,1)-(1,0)
    linesIntersect returns true; getIntersectionPoint returns (1/2, 1/2)
    in exact arithmetic, and in the single precision of the code it
    returns the point whose two coordinates are 16777215 * 2^-25
    (0.49999997), the single-precision number next below 0.5. *)
Theorem getIntersectionPoint_diagonals :
  linesIntersect Exact.diagonal_up Exact.diagonal_down = true
  /\ getIntersectionPoint Exact.diagonal_up Exact.diagonal_down
     = Returned (Exact.pt (1 / 2) (1 / 2))
  /\ linesIntersect Machine.diagonal_up Machine.diagonal_down = true
  /\ getIntersectionPoint Machine.diagonal_up Machine.diagonal_down
     = Returned (mkCartesian (Ar:=IEEE754.arith)
                   (IEEE754.mk 16777215 (-25)) (IEEE754.mk 16777215 (-25)))
  /\ SFltb (IEEE754.mk 16777215 (-25)) Machine.half = true.
Proof.
  split; [exact Exact.diagonals_linesIntersect|].
  split; [exact Exact.diagonals_getIntersectionPoint|].
  split; [exact Machine.machine_diagonals_linesIntersect|].
  split; [exact Machine.machine_diagonals_getIntersectionPoint|].
  exact Machine.below_half.
Qed.


(** * More of the kernel, for every arithmetic *)

Section Structure.

Context {Ar : Arith}.

Implicit Types (p q : Cartesian Ar) (st l : list (Cartesian Ar)).

(** ** getLineSegments: the segments chain up *)

Lemma segments_from_ends (vs : list (Cartesian Ar)) (p : Cartesian Ar) :
  map snd (segments_from p vs) = vs
  /\ map fst (segments_from p vs) = removelast (p :: vs).
Proof.
  revert p. induction vs as [|v vs IH]; intro p.
  - split; reflexivity.
  - destruct (IH v) as [IH1 IH2]. cbn [segments_from map fst snd]. split.
    + now rewrite IH1.
    + rewrite IH2. reflexivity.
Qed.

(** X9: the segments of a polygon that has a vertex: their ends are the
    vertices, in order; the first one starts at the last vertex and
    every other one starts where the one before it ends. *)
Theorem getLineSegments_chain (P : Polygon Ar) :
  getVertices P <> [] ->
  exists segments : list (Segment Ar),
    getLineSegments P = Some segments
    /\ map snd segments = getVertices P
    /\ map fst segments
       = last (getVertices P) Cartesian_default :: removelast (getVertices P).
Proof.
  destruct P as [vs]. cbn [getVertices]. intro Hne.
  destruct vs as [|v vs]; [contradiction|].
  unfold getLineSegments. cbn [getVertices].
  eexists. split; [reflexivity|].
  destruct (segments_from_ends (v :: vs) (last (v :: vs) Cartesian_default)) as [E1 E2].
  split; [exact E1|]. rewrite E2. reflexivity.
Qed.

(** ** convexHull: what holds in every arithmetic *)


















(** X7: convexHull of one vertex, and of two, whatever the arithmetic: the
    vertex alone; the two vertices as sorted and the first one again. *)
Theorem convexHull_one_or_two (p q : Cartesian Ar) :
  getVertices (convexHull [mkPolygon [p]]) = [p]
  /\ getVertices (convexHull [mkPolygon [p; q]])
     = (if Cartesian_ltb q p then [q; p; q] else [p; q; p]).
Proof.
  split; [reflexivity|].
  unfold convexHull. cbn [flat_map getVertices app length sort fold_right sort_insert].
  destruct (Cartesian_ltb q p); reflexivity.
Qed.

End Structure.


(** * More geometry of the plane

    Laws of the kernel read over the real numbers; they are carried over
    to the program, on the grid, further down. *)

Module Laws.

Import Exact.
Local Open Scope R_scope.

(** ** Moving a polygon *)

Definition translate_point (dx dy : R) (p : point) : point :=
  pt (getX p + dx) (getY p + dy).

(** ** polygonArea *)

Definition translated (dx dy : R) (P : polygon) : polygon :=
  mkPolygon (map (translate_point dx dy) (getVertices P)).

Lemma closed_map (f : point -> point) (vs : list point) :
  closed (map f vs) = map f (closed vs).
Proof.
  destruct vs as [|v vs]; [reflexivity|].
  cbn [map]. rewrite !closed_cons. cbn [map]. rewrite map_app. reflexivity.
Qed.

(** Along a path that is moved, the shoelace sum changes by what the ends
    of the path contribute. *)
Lemma path_sum_translated (dx dy : R) (p : point) (l : list point) :
  path_sum shoelace_term (map (translate_point dx dy) (p :: l))
  = path_sum shoelace_term (p :: l)
    + dx * (getY (last (p :: l) Cartesian_default) - getY p)
    - dy * (getX (last (p :: l) Cartesian_default) - getX p).
Proof.
  revert p. induction l as [|q l IH]; intro p.
  - cbn. lra.
  - change (map (translate_point dx dy) (p :: q :: l))
      with (translate_point dx dy p :: map (translate_point dx dy) (q :: l)).
    cbn [map]. rewrite path_sum_cons2.
    change (translate_point dx dy q :: map (translate_point dx dy) l)
      with (map (translate_point dx dy) (q :: l)).
    rewrite IH. rewrite path_sum_cons2.
    change (last (p :: q :: l) Cartesian_default) with (last (q :: l) Cartesian_default).
    unfold shoelace_term, translate_point. cbn [getX getY pt]. ring.
Qed.

Lemma shoelace_translated (dx dy : R) (vs : list point) :
  shoelace (map (translate_point dx dy) vs) = shoelace vs.
Proof.
  unfold shoelace, boundary_sum. rewrite closed_map.
  destruct vs as [|v vs]; [reflexivity|].
  rewrite closed_cons.
  rewrite (path_sum_translated dx dy v (vs ++ [v])).
  replace (last (v :: vs ++ [v]) Cartesian_default) with v.
  - lra.
  - change (v :: vs ++ [v]) with ((v :: vs) ++ [v]). symmetry. apply last_last.
Qed.

(** The area does not change when the polygon is moved. *)
Lemma polygonArea_translated (dx dy : R) (P : polygon) :
  polygonArea (translated dx dy P) = polygonArea P.
Proof.
  apply (@eq_trans R _ (Rabs (shoelace (getVertices P) / 2))).
  - rewrite polygonArea_eq. unfold translated. cbn [getVertices].
    rewrite shoelace_translated. reflexivity.
  - symmetry. apply polygonArea_eq.
Qed.

(** The area of a triangle is half the absolute value of the cross
    product of its corners; a polygon of fewer than three vertices has
    area 0. *)
Lemma polygonArea_small (Z A B : point) (vs : list point) :
  (polygonArea (mkPolygon [Z; A; B]) : R) = Rabs (crossProduct Z A B) / 2
  /\ ((length vs < 3)%nat -> (polygonArea (mkPolygon vs) : R) = 0).
Proof.
  split.
  - rewrite polygonArea_eq, crossProduct_eq. cbn [getVertices].
    unfold shoelace, boundary_sum, shoelace_term. cbn [closed app path_sum].
    unfold Rdiv at 1. rewrite Rabs_mult, (Rabs_pos_eq (/ 2)) by lra.
    unfold Rdiv. f_equal. f_equal. ring.
  - intro Hl. rewrite polygonArea_eq. cbn [getVertices].
    destruct vs as [|a [|b [|c vs]]]; [| | |simpl in Hl; lia];
      unfold shoelace, boundary_sum, shoelace_term; cbn [closed app path_sum];
      match goal with |- Rabs (?x / 2) = 0 => replace (x / 2) with 0 by lra end;
      apply Rabs_R0.
Qed.

(** ** convexHull *)

(** The result depends on the input vertices only, not on how they are
    spread over the polygons nor on their order. *)
Lemma convexHull_order_free (polygons polygons' : list polygon) :
  Permutation (input_points polygons) (input_points polygons') ->
  convexHull polygons = convexHull polygons'.
Proof.
  intro Hperm. apply polygon_eq. rewrite !convexHull_chains.
  fold (input_points polygons) (input_points polygons').
  replace (sort (input_points polygons')) with (sort (input_points polygons)); [reflexivity|].
  apply sorted_unique; try apply sort_sorted.
  eapply perm_trans; [apply sort_perm|].
  eapply perm_trans; [exact Hperm|].
  apply Permutation_sym, sort_perm.
Qed.

(** What the two chains are on sorted points that hold two different
    points. *)
Lemma chains_Good (points : list point) :
  (exists x y, In x points /\ In y points /\ x <> y) ->
  Good 1 (chain (sort points)) (sort points)
  /\ Good (-1) (chain (rev (sort points))) (rev (sort points)).
Proof.
  intros (x & y & Hx & Hy & Hxy).
  set (sorted := sort points).
  assert (Hperm : forall p, In p points <-> In p sorted).
  { intro p. split; apply Permutation_in; [apply Permutation_sym|]; apply sort_perm. }
  split.
  - apply (@chain_Good 1 (or_introl eq_refl)).
    + apply (StronglySorted_weaken (R1 := lex_le)); [intros a b; apply dle_lex | apply sort_sorted].
    + exists x, y. split; [now apply Hperm|]. split; [now apply Hperm | exact Hxy].
  - apply (@chain_Good (-1) (or_intror eq_refl)).
    + apply (StronglySorted_weaken (R1 := fun a b => lex_le b a));
        [intros a b; apply dle_lex_conv | apply StronglySorted_rev, sort_sorted].
    + exists x, y. split; [apply -> in_rev; now apply Hperm|].
      split; [apply -> in_rev; now apply Hperm | exact Hxy].
Qed.

(** A stack in the regular state on points of one line has two entries:
    the last point on top of the first. *)
Lemma Good_collinear (sgn : R) (st P : list point) :
  sgn = 1 \/ sgn = -1 ->
  Good sgn st P ->
  (exists x y, In x P /\ In y P /\ x <> y) ->
  (forall a b c, In a P -> In b P -> In c P -> (crossProduct a b c : R) = 0) ->
  exists b c, st = [c; b] /\ b <> c.
Proof.
  intros Hs HG Hdiff Hline.
  pose proof (Good_two Hs HG Hdiff) as H2.
  destruct HG as (G1 & G2 & G3 & G4 & G5).
  destruct st as [|c [|b [|a r]]]; [simpl in H2; lia | simpl in H2; lia | |].
  - exists b, c. split; [reflexivity|]. cbn [chain_ok] in G5. tauto.
  - exfalso. cbn [chain_ok] in G5. destruct G5 as (_ & _ & _ & Hturn & _).
    rewrite (Hline a b c) in Hturn.
    + lra.
    + apply G2. right. right. now left.
    + apply G2. right. now left.
    + apply G2. now left.
Qed.

(** When the input vertices all lie on one line and are not all the same
    point, convexHull returns the least vertex, the greatest one and the
    least one again. *)
Lemma convexHull_collinear (polygons : list polygon) :
  (exists x y, In x (input_points polygons) /\ In y (input_points polygons) /\ x <> y) ->
  (forall a b c,
      In a (input_points polygons) -> In b (input_points polygons) ->
      In c (input_points polygons) -> (crossProduct a b c : R) = 0) ->
  exists m M : point,
    getVertices (convexHull polygons) = [m; M; m]
    /\ In m (input_points polygons) /\ In M (input_points polygons) /\ m <> M
    /\ forall p, In p (input_points polygons) -> lex_le m p /\ lex_le p M.
Proof.
  intros Hdiff Hline. rewrite convexHull_chains. fold (input_points polygons).
  set (points := input_points polygons) in *.
  set (sorted := sort points).
  assert (Hperm : forall p, In p points <-> In p sorted).
  { intro p. split; apply Permutation_in; [apply Permutation_sym|]; apply sort_perm. }
  destruct (@chains_Good points Hdiff) as [GL GU]. fold sorted in GL, GU.
  assert (Hdiff1 : exists x y, In x sorted /\ In y sorted /\ x <> y).
  { destruct Hdiff as (x & y & Hx & Hy & Hxy). exists x, y.
    split; [now apply Hperm|]. split; [now apply Hperm | exact Hxy]. }
  assert (Hdiff2 : exists x y, In x (rev sorted) /\ In y (rev sorted) /\ x <> y).
  { destruct Hdiff1 as (x & y & Hx & Hy & Hxy). exists x, y.
    split; [now apply -> in_rev|]. split; [now apply -> in_rev | exact Hxy]. }
  destruct (@Good_collinear 1 _ _ (or_introl eq_refl) GL Hdiff1) as (m & M & EL & HmM).
  { intros a b c Ha Hb Hc. apply Hline; now apply Hperm. }
  destruct (@Good_collinear (-1) _ _ (or_intror eq_refl) GU Hdiff2) as (M' & m' & EU & _).
  { intros a b c Ha Hb Hc. apply Hline; apply Hperm; now apply in_rev. }
  destruct GL as (_ & L2 & L3 & L4 & _). destruct GU as (_ & U2 & U3 & U4 & _).
  rewrite EL in *. rewrite EU in *.
  unfold top, bottom in *. cbn [hd last] in *.
  assert (Em : m' = m).
  { apply (@dle_antisym 1 (or_introl eq_refl)).
    - apply dle_lex, dle_lex_conv. apply U3. apply -> in_rev. apply L2. right. now left.
    - apply L4. apply in_rev. apply U2. now left. }
  assert (EM : M' = M).
  { apply (@dle_antisym 1 (or_introl eq_refl)).
    - apply L3. apply in_rev. apply U2. right. now left.
    - apply dle_lex, dle_lex_conv. apply U4. apply -> in_rev. apply L2. now left. }
  subst m' M'.
  exists m, M. split; [reflexivity|].
  split; [apply Hperm, L2; right; now left|].
  split; [apply Hperm, L2; now left|].
  split; [exact HmM|].
  intros p Hp. apply Hperm in Hp. split; apply dle_lex; [now apply L4 | now apply L3].
Qed.

End Laws.

(** * convexHull of a convex hull *)

Module Again.

Import Exact.
Local Open Scope R_scope.

(** ** One path only fits a set of points *)

Lemma edges_left_tail (P : list point) (a : point) (l : list point) :
  edges_left P (a :: l) -> edges_left P l.
Proof.
  intros H x y Hxy. apply H. destruct l as [|b r]; [destruct Hxy | now right].
Qed.

Lemma ascending_tail (sgn : R) (a : point) (l : list point) :
  ascending sgn (a :: l) -> ascending sgn l.
Proof.
  intros H x y Hxy. apply H. destruct l as [|b r]; [destruct Hxy | now right].
Qed.

Lemma turns_left_tail (a : point) (l : list point) :
  turns_left (a :: l) -> turns_left l.
Proof.
  intros H x y z Hxyz. apply H.
  destruct l as [|b [|c r]]; [destruct Hxyz | destruct Hxyz | now right].
Qed.

Lemma ascending_last (sgn : R) (s : point) (l : list point) :
  sgn = 1 \/ sgn = -1 -> ascending sgn (s :: l) -> l <> [] ->
  dle sgn s (last (s :: l) Cartesian_default) /\ s <> last (s :: l) Cartesian_default.
Proof.
  intros Hs Hasc Hne.
  apply (@ascending_lt sgn (s :: l) Hs Hasc [] l s); [reflexivity|].
  destruct l as [|b r]; [contradiction|].
  change (last (s :: b :: r) Cartesian_default) with (last (b :: r) Cartesian_default).
  destruct (@exists_last _ (b :: r)) as (init & z & E); [discriminate|].
  rewrite E, last_last. apply in_or_app. right. now left.
Qed.

(** Of two points after [s] on one line with it, the nearer one is no
    corner of a path that has all points on its left. *)
Lemma nearer_is_no_corner (sgn : R) (s l1 l1' l2 : point) :
  sgn = 1 \/ sgn = -1 ->
  dle sgn s l1 -> s <> l1 -> dle sgn l1 l1' -> l1 <> l1' ->
  (crossProduct s l1 l1' : R) = 0 ->
  0 < crossProduct s l1 l2 ->
  0 <= crossProduct l1 l2 l1' ->
  False.
Proof.
  intros Hs Hsl Hne Hll Hne' Hline Hturn Hleft.
  pose proof (dle_neq Hs Hsl Hne) as Hu0.
  pose proof (dle_neq Hs Hll Hne') as Hw0.
  rewrite !crossProduct_eq in *. unfold dle in *.
  pose proof (@hp_parallel_side
                (sgn * (getX l1 - getX s)) (sgn * (getY l1 - getY s))
                (sgn * (getX l1' - getX l1)) (sgn * (getY l1' - getY l1))
                (- sgn * (getX l2 - getX l1)) (- sgn * (getY l2 - getY l1))
                Hsl Hll Hu0 Hw0) as H.
  destruct Hs; subst sgn; lra.
Qed.

(** A path that goes on in one direction, turns left at every vertex and
    has all points of [P] on the left of its edges, or on them. *)
Definition fits (sgn : R) (P path : list point) : Prop :=
  edges_left P path /\ turns_left path /\ ascending sgn path
  /\ forall v, In v path -> In v P.

Lemma fits_tail (sgn : R) (P : list point) (a : point) (l : list point) :
  fits sgn P (a :: l) -> fits sgn P l.
Proof.
  intros (H1 & H2 & H3 & H4). split; [eapply edges_left_tail; eassumption|].
  split; [eapply turns_left_tail; eassumption|].
  split; [eapply ascending_tail; eassumption|].
  intros v Hv. apply H4. now right.
Qed.

Lemma fits_first_edge (sgn : R) (P : list point) (s l1 : point) (r : list point) :
  fits sgn P (s :: l1 :: r) ->
  dle sgn s l1 /\ s <> l1 /\ In l1 P /\ forall p, In p P -> 0 <= crossProduct s l1 p.
Proof.
  intros (H1 & _ & H3 & H4).
  destruct (H3 s l1) as [Ha Hb]; [now left|].
  split; [exact Ha|]. split; [exact Hb|].
  split; [apply H4; right; now left|].
  intros p Hp. apply (H1 s l1); [now left | exact Hp].
Qed.

(** The second vertex of a fitting path is decided by the first and by
    the last: it cannot be nearer than that of another fitting path. *)
Lemma second_not_nearer (sgn : R) (P : list point) (s l1 l1' : point) (r r' : list point) :
  sgn = 1 \/ sgn = -1 ->
  fits sgn P (s :: l1 :: r) -> fits sgn P (s :: l1' :: r') ->
  last (s :: l1 :: r) Cartesian_default = last (s :: l1' :: r') Cartesian_default ->
  dle sgn l1 l1' -> l1 = l1'.
Proof.
  intros Hs F F' Hlast Hll.
  destruct (point_eq_dec l1 l1') as [E | Hne]; [exact E | exfalso].
  destruct (fits_first_edge F) as (A1 & A2 & A3 & A4).
  destruct (fits_first_edge F') as (B1 & B2 & B3 & B4).
  assert (Hline : (crossProduct s l1 l1' : R) = 0).
  { pose proof (A4 l1' B3) as X1. pose proof (B4 l1 A3) as X2.
    rewrite !crossProduct_eq in *. lra. }
  destruct r as [|l2 r2].
  - (* [l1] is the last vertex of the one path and not of the other *)
    change (last [s; l1] Cartesian_default) with l1 in Hlast.
    change (last (s :: l1' :: r') Cartesian_default)
      with (last (l1' :: r') Cartesian_default) in Hlast.
    destruct r' as [|l2' r2'].
    + cbn in Hlast. contradiction.
    + destruct (@ascending_last sgn l1' (l2' :: r2') Hs) as [C1 C2].
      * destruct F' as (_ & _ & F3 & _). eapply ascending_tail. exact F3.
      * discriminate.
      * rewrite <- Hlast in C1. apply Hne. apply (dle_antisym Hs); assumption.
  - destruct F as (F1 & F2 & _ & _).
    apply (@nearer_is_no_corner sgn s l1 l1' l2 Hs A1 A2 Hll Hne Hline).
    + apply (F2 s l1 l2). now left.
    + apply (F1 l1 l2); [right; now left | exact B3].
Qed.

Lemma fitting_path_unique (sgn : R) (P : list point) :
  sgn = 1 \/ sgn = -1 ->
  forall l l' : list point,
    fits sgn P l -> fits sgn P l' ->
    l <> [] -> l' <> [] ->
    hd Cartesian_default l = hd Cartesian_default l' ->
    last l Cartesian_default = last l' Cartesian_default ->
    l = l'.
Proof.
  intros Hs l. induction l as [|s r IH]; intros l' F F' Hne Hne' Hhd Hlast; [contradiction|].
  destruct l' as [|s' r']; [contradiction|]. cbn [hd] in Hhd. subst s'.
  destruct r as [|l1 r1], r' as [|l1' r1'].
  - reflexivity.
  - exfalso. destruct (@ascending_last sgn s (l1' :: r1') Hs) as [_ C];
      [destruct F' as (_ & _ & F3 & _); exact F3 | discriminate |].
    apply C. rewrite <- Hlast. reflexivity.
  - exfalso. destruct (@ascending_last sgn s (l1 :: r1) Hs) as [_ C];
      [destruct F as (_ & _ & F3 & _); exact F3 | discriminate |].
    apply C. rewrite Hlast. reflexivity.
  - assert (E : l1 = l1').
    { destruct (dle_total Hs l1 l1') as [H | H].
      - exact (second_not_nearer Hs F F' Hlast H).
      - symmetry. exact (second_not_nearer Hs F' F (eq_sym Hlast) H). }
    subst l1'. f_equal.
    apply IH.
    + eapply fits_tail. exact F.
    + eapply fits_tail. exact F'.
    + discriminate.
    + discriminate.
    + reflexivity.
    + exact Hlast.
Qed.


(** ** The two chains of convexHull fit the input *)

Definition spread (points : list point) : Prop :=
  exists x y, In x points /\ In y points /\ x <> y.

Lemma chains_fit (points : list point) :
  spread points ->
  let lo := rev (chain (sort points)) in
  let up := rev (chain (rev (sort points))) in
  fits 1 points lo /\ fits (-1) points up
  /\ lo <> [] /\ up <> []
  /\ In (hd Cartesian_default lo) points /\ In (last lo Cartesian_default) points
  /\ (forall p, In p points ->
                lex_le (hd Cartesian_default lo) p /\ lex_le p (last lo Cartesian_default))
  /\ hd Cartesian_default up = last lo Cartesian_default
  /\ last up Cartesian_default = hd Cartesian_default lo.
Proof.
  intros Hdiff lo up.
  set (sorted := sort points) in *.
  assert (Hperm : forall p, In p points <-> In p sorted).
  { intro p. split; apply Permutation_in; [apply Permutation_sym|]; apply sort_perm. }
  assert (HinU : forall p, In p points <-> In p (rev sorted)).
  { intro p. rewrite Hperm. apply in_rev. }
  destruct (@Laws.chains_Good points Hdiff) as [GL GU]. fold sorted in GL, GU.
  destruct GL as (L1 & L2 & L3 & L4 & L5). destruct GU as (U1 & U2 & U3 & U4 & U5).
  destruct (@chain_ok_rev 1 _ _ L5) as (Le & Lt & La).
  destruct (@chain_ok_rev (-1) _ _ U5) as (Ue & Ut & Ua).
  set (L := chain sorted) in *. set (U := chain (rev sorted)) in *.
  assert (Hlo_hd : hd Cartesian_default lo = bottom L) by (unfold lo; apply hd_rev_last).
  assert (Hlo_last : last lo Cartesian_default = top L) by (unfold lo; apply last_rev_hd).
  assert (Hup_hd : hd Cartesian_default up = bottom U) by (unfold up; apply hd_rev_last).
  assert (Hup_last : last up Cartesian_default = top U) by (unfold up; apply last_rev_hd).
  assert (Hleast : bottom L = top U).
  { apply (@dle_antisym 1 (or_introl eq_refl)).
    - apply L4. apply in_rev, U2, top_in, U1.
    - apply dle_lex, dle_lex_conv. apply U3. apply -> in_rev. apply L2, bottom_in, L1. }
  assert (Hgreatest : bottom U = top L).
  { apply (@dle_antisym 1 (or_introl eq_refl)).
    - apply L3. apply in_rev, U2, bottom_in, U1.
    - apply dle_lex, dle_lex_conv. apply U4. apply -> in_rev. apply L2, top_in, L1. }
  split; [|split; [|split; [|split; [|split; [|split; [|split; [|split]]]]]]].
  - split; [|split; [|split]].
    + intros a b Hab p Hp. apply (Le a b Hab). now apply Hperm.
    + exact Lt.
    + exact La.
    + intros v Hv. apply Hperm, L2. now apply in_rev.
  - split; [|split; [|split]].
    + intros a b Hab p Hp. apply (Ue a b Hab). now apply HinU.
    + exact Ut.
    + exact Ua.
    + intros v Hv. apply HinU, U2. now apply in_rev.
  - unfold lo. intro E. apply L1. apply (f_equal (@rev point)) in E.
    rewrite rev_involutive in E. exact E.
  - unfold up. intro E. apply U1. apply (f_equal (@rev point)) in E.
    rewrite rev_involutive in E. exact E.
  - rewrite Hlo_hd. apply Hperm, L2, bottom_in, L1.
  - rewrite Hlo_last. apply Hperm, L2, top_in, L1.
  - intros p Hp. apply Hperm in Hp. rewrite Hlo_hd, Hlo_last.
    split; apply dle_lex; [now apply L4 | now apply L3].
  - rewrite Hup_hd, Hlo_last. exact Hgreatest.
  - rewrite Hup_last, Hlo_hd. symmetry. exact Hleast.
Qed.

Lemma hd_In (l : list point) : l <> [] -> In (hd Cartesian_default l) l.
Proof. destruct l; [contradiction | intros _; now left]. Qed.

Lemma last_In (l : list point) : l <> [] -> In (last l Cartesian_default) l.
Proof.
  intro Hne. destruct (@exists_last _ l Hne) as (init & z & ->).
  rewrite last_last. apply in_or_app. right. now left.
Qed.

Lemma In_hd_tl (l : list point) (v : point) :
  In v l -> v = hd Cartesian_default l \/ In v (tl l).
Proof. destruct l as [|a l]; [intros [] | intros [<- | H]; [now left | now right]]. Qed.

Lemma fits_fewer (sgn : R) (P P' path : list point) :
  fits sgn P path -> (forall v, In v P' -> In v P) -> (forall v, In v path -> In v P') ->
  fits sgn P' path.
Proof.
  intros (H1 & H2 & H3 & _) Hsub Hin.
  split; [|split; [|split]]; try assumption.
  intros a b Hab p Hp. apply (H1 a b Hab). now apply Hsub.
Qed.

(** The hull of input vertices that are not all the same point, taken
    as the input, gives itself. *)
Lemma convexHull_again_spread (polygons : list polygon) :
  spread (input_points polygons) ->
  getVertices (convexHull [convexHull polygons]) = getVertices (convexHull polygons).
Proof.
  intro Hdiff.
  set (P := input_points polygons) in *.
  pose proof (convexHull_chains polygons) as EH. fold (input_points polygons) in EH. fold P in EH.
  destruct (@chains_fit P Hdiff) as (Flo & Fup & Nlo & Nup & Im & IM & Hext & Eup1 & Eup2).
  set (lo := rev (chain (sort P))) in *. set (up := rev (chain (rev (sort P)))) in *.
  set (m := hd Cartesian_default lo) in *. set (M := last lo Cartesian_default) in *.
  set (H := getVertices (convexHull polygons)) in *.
  assert (HmM : m <> M).
  { intro E. destruct Hdiff as (x & y & Hx & Hy & Hxy). apply Hxy.
    destruct (Hext x Hx) as [X1 X2]. destruct (Hext y Hy) as [Y1 Y2].
    rewrite <- E in X2, Y2.
    rewrite <- (lex_le_antisym X1 X2), <- (lex_le_antisym Y1 Y2). reflexivity. }
  assert (Hlo_in : forall v, In v lo -> In v H).
  { intros v Hv. rewrite EH. apply in_or_app. now left. }
  assert (Hup_in : forall v, In v up -> In v H).
  { intros v Hv. destruct (In_hd_tl up v Hv) as [-> | Hv'].
    - rewrite Eup1. apply Hlo_in. apply last_In. exact Nlo.
    - rewrite EH. apply in_or_app. now right. }
  assert (Hsub : forall v, In v H -> In v P).
  { intros v Hv. rewrite EH in Hv. apply in_app_or in Hv.
    destruct Flo as (_ & _ & _ & Flo4). destruct Fup as (_ & _ & _ & Fup4).
    destruct Hv as [Hv | Hv]; [now apply Flo4 | apply Fup4; destruct up; [destruct Hv | now right]]. }
  (* the input of the second call *)
  pose proof (convexHull_chains [convexHull polygons]) as EH'.
  cbn [flat_map] in EH'. rewrite app_nil_r in EH'. fold H in EH'.
  assert (Hdiff' : spread H).
  { exists m, M. split; [apply Hlo_in, hd_In, Nlo|].
    split; [apply Hlo_in, last_In, Nlo | exact HmM]. }
  destruct (@chains_fit H Hdiff') as (Flo' & Fup' & Nlo' & Nup' & Im' & IM' & Hext' & Eup1' & Eup2').
  set (lo' := rev (chain (sort H))) in *. set (up' := rev (chain (rev (sort H)))) in *.
  assert (Em : hd Cartesian_default lo' = m).
  { apply lex_le_antisym.
    - apply (Hext' m). apply Hlo_in, hd_In, Nlo.
    - apply (Hext _ (Hsub _ Im')). }
  assert (EM : last lo' Cartesian_default = M).
  { apply lex_le_antisym.
    - apply (Hext _ (Hsub _ IM')).
    - apply (Hext' M). apply Hlo_in, last_In, Nlo. }
  assert (Elo : lo' = lo).
  { apply (@fitting_path_unique 1 H (or_introl eq_refl)); try assumption.
    eapply fits_fewer; [exact Flo | exact Hsub | exact Hlo_in]. }
  assert (Eup : up' = up).
  { apply (@fitting_path_unique (-1) H (or_intror eq_refl)); try assumption.
    - eapply fits_fewer; [exact Fup | exact Hsub | exact Hup_in].
    - rewrite Eup1', Eup1. exact EM.
    - rewrite Eup2', Eup2. exact Em. }
  rewrite EH', Elo, Eup. symmetry. exact EH.
Qed.


(** ** Copies of one point *)

Lemma same_or_spread (p : point) (rest : list point) :
  (forall x, In x rest -> x = p) \/ spread (p :: rest).
Proof.
  induction rest as [|q rest IH].
  - left. intros x [].
  - destruct (point_eq_dec q p) as [E | Hne].
    + destruct IH as [IH | (x & y & Hx & Hy & Hxy)].
      * left. intros x [<- | Hx]; [exact E | now apply IH].
      * right. exists x, y.
        split; [destruct Hx as [<- | Hx]; [now left | right; now right]|].
        split; [destruct Hy as [<- | Hy]; [now left | right; now right] | exact Hxy].
    + right. exists q, p. split; [right; now left|]. split; [now left | exact Hne].
Qed.

Lemma all_same_repeat (p : point) (l : list point) :
  (forall x, In x l -> x = p) -> l = repeat p (length l).
Proof.
  induction l as [|a l IH]; intro H; [reflexivity|].
  cbn [length repeat]. rewrite (H a) by now left.
  f_equal. apply IH. intros x Hx. apply H. now right.
Qed.

Lemma chain_repeat (p : point) (k : nat) : chain (repeat p (S (S k))) = [p; p].
Proof.
  induction k as [|k IH].
  - reflexivity.
  - change (repeat p (S (S (S k)))) with (p :: repeat p (S (S k))).
    rewrite repeat_cons, chain_snoc, IH.
    unfold pushS. rewrite popS_two.
    replace (Rleb (crossProduct p p p) 0) with true; [reflexivity|].
    symmetry. apply Rleb_true. rewrite crossProduct_twice. lra.
Qed.

(** Two or more copies of one point give that point three times. *)
Lemma convexHull_copies (polygons : list polygon) (p : point) :
  (forall x, In x (input_points polygons) -> x = p) ->
  (2 <= length (input_points polygons))%nat ->
  getVertices (convexHull polygons) = [p; p; p].
Proof.
  intros Hall Hlen. rewrite convexHull_chains. fold (input_points polygons).
  set (P := input_points polygons) in *.
  assert (Es : sort P = repeat p (length P)).
  { rewrite <- (sort_length P). apply all_same_repeat.
    intros x Hx. apply Hall. apply (Permutation_in _ (sort_perm P)). exact Hx. }
  assert (Er : rev (sort P) = repeat p (length P)).
  { rewrite <- (sort_length P), <- (length_rev (sort P)). apply all_same_repeat.
    intros x Hx. apply Hall. apply (Permutation_in _ (sort_perm P)). now apply in_rev. }
  rewrite Er, Es.
  destruct (length P) as [|[|k]]; [lia | lia |].
  rewrite chain_repeat. reflexivity.
Qed.

(** ** convexHull of a convex hull *)

(** convexHull applied to the polygon convexHull returns gives the same
    polygon again, for every input, over the real numbers. *)
Lemma convexHull_again (polygons : list polygon) :
  convexHull [convexHull polygons] = convexHull polygons.
Proof.
  apply polygon_eq.
  destruct (input_points polygons) as [|p rest] eqn:EP.
  - (* no vertex at all *)
    assert (E : getVertices (convexHull polygons) = []).
    { rewrite convexHull_chains. fold (input_points polygons). rewrite EP. reflexivity. }
    rewrite (convexHull_chains [convexHull polygons]). cbn [flat_map].
    rewrite E. reflexivity.
  - destruct (same_or_spread p rest) as [Hsame | Hspread].
    + destruct rest as [|q rest'].
      * (* one vertex *)
        assert (E : getVertices (convexHull polygons) = [p]).
        { rewrite convexHull_chains. fold (input_points polygons). rewrite EP. reflexivity. }
        rewrite (convexHull_chains [convexHull polygons]). cbn [flat_map].
        rewrite E. reflexivity.
      * (* copies of one vertex *)
        assert (E : getVertices (convexHull polygons) = [p; p; p]).
        { apply convexHull_copies.
          - rewrite EP. intros x [<- | Hx]; [reflexivity | now apply Hsame].
          - rewrite EP. simpl. lia. }
        rewrite E. apply convexHull_copies.
        -- cbn [input_points flat_map]. rewrite E.
           intros x Hx. simpl in Hx. intuition.
        -- cbn [input_points flat_map]. rewrite E. simpl. lia.
    + apply convexHull_again_spread. rewrite EP. exact Hspread.
Qed.

End Again.

(** * The vector [hull] of convexHull *)

Section HullVector.

Context {Ar : Arith}.

(** X20: the loops of convexHull write [hull[k++]] inside the vector of
    [2 * n] points they are given, at every write of both loops, and
    the vertices they return do not depend on what that vector holds
    when the first loop starts. *)
Theorem hull_loops_within_vector (sorted hull0 hull0' : list (Cartesian Ar)) :
  length hull0 = (2 * length sorted)%nat ->
  length hull0' = (2 * length sorted)%nat ->
  let first := fold_left (hull_step 2) sorted (hull0, 0%nat) in
  Forall (fun k => (k < length hull0)%nat) (hull_writes 2 sorted (hull0, 0%nat))
  /\ Forall (fun k => (k < length hull0)%nat)
            (hull_writes (snd first + 1) (rev (firstn (length sorted - 1) sorted)) first)
  /\ getVertices (hull_loops (length sorted) sorted hull0)
     = getVertices (hull_loops (length sorted) sorted hull0').
Proof.
  intros H0 H0' first.
  destruct (hull_loops_writes sorted hull0 H0) as [W1 W2].
  split; [exact W1|]. split; [exact W2|].
  rewrite (hull_loops_chains sorted hull0 H0), (hull_loops_chains sorted hull0' H0').
  reflexivity.
Qed.

End HullVector.

(** * The laws of the plane, for the program on the grid

    On points of a binary grid the machine results are those of the
    real numbers ([Grid]); the laws below are read off the vertices the
    program returns, taken as points of the plane ([Grid.real]). *)

(** X4: on the grid, convexHull applied to the polygon convexHull returns
    gives the same vertices again, as points of the plane. *)
Theorem convexHull_again_on_grid (t : Z) (polygons : list (Polygon IEEE754.arith)) :
  (-511 <= t <= 485)%Z ->
  Forall (Grid.point_on_grid t (2 ^ 25 - 1)) (flat_map getVertices polygons) ->
  map Grid.real (getVertices (convexHull [convexHull polygons]))
  = map Grid.real (getVertices (convexHull polygons)).
Proof.
  intros Ht Hg.
  destruct (Grid.convexHull_real Ht polygons Hg) as [E1 D1].
  assert (Hg' : Forall (Grid.point_on_grid t (2 ^ 25 - 1))
                       (flat_map getVertices [convexHull polygons])).
  { cbn [flat_map]. rewrite app_nil_r. exact D1. }
  destruct (Grid.convexHull_real Ht [convexHull polygons] Hg') as [E2 _].
  rewrite E2, E1. cbn [map].
  replace (Grid.real_polygon (convexHull polygons))
    with (convexHull (map Grid.real_polygon polygons)).
  - now rewrite Again.convexHull_again.
  - apply Exact.polygon_eq. unfold Grid.real_polygon. cbn [getVertices]. now rewrite E1.
Qed.

(** X8: on the grid, the vertices convexHull returns, as points of the
    plane, depend on the input vertices only, not on how they are spread
    over the polygons nor on their order. *)
Theorem convexHull_order_free_on_grid
  (t : Z) (polygons polygons' : list (Polygon IEEE754.arith)) :
  (-511 <= t <= 485)%Z ->
  Forall (Grid.point_on_grid t (2 ^ 25 - 1)) (flat_map getVertices polygons) ->
  Permutation (flat_map getVertices polygons) (flat_map getVertices polygons') ->
  map Grid.real (getVertices (convexHull polygons))
  = map Grid.real (getVertices (convexHull polygons')).
Proof.
  intros Ht Hg Hperm.
  assert (Hg' : Forall (Grid.point_on_grid t (2 ^ 25 - 1)) (flat_map getVertices polygons')).
  { apply Forall_forall. intros p Hp. rewrite Forall_forall in Hg. apply Hg.
    apply (Permutation_in p (Permutation_sym Hperm) Hp). }
  destruct (Grid.convexHull_real Ht polygons Hg) as [E1 _].
  destruct (Grid.convexHull_real Ht polygons' Hg') as [E2 _].
  rewrite E1, E2. f_equal. apply Laws.convexHull_order_free.
  unfold Exact.input_points, Grid.real_polygon.
  rewrite !(flat_map_map_polygon Grid.real). now apply Permutation_map.
Qed.

(** X6: on the grid, when the input vertices all lie on one line and are
    not all the same point, convexHull returns, as points of the plane,
    the least vertex, the greatest one and the least one again. *)
Theorem convexHull_collinear_on_grid (t : Z) (polygons : list (Polygon IEEE754.arith)) :
  (-511 <= t <= 485)%Z ->
  Forall (Grid.point_on_grid t (2 ^ 25 - 1)) (flat_map getVertices polygons) ->
  let points := map Grid.real (flat_map getVertices polygons) in
  (exists x y, In x points /\ In y points /\ x <> y) ->
  (forall a b c, In a points -> In b points -> In c points ->
                 (crossProduct a b c : R) = 0%R) ->
  exists m M : Exact.point,
    map Grid.real (getVertices (convexHull polygons)) = [m; M; m]
    /\ In m points /\ In M points /\ m <> M
    /\ forall p, In p points -> Exact.lex_le m p /\ Exact.lex_le p M.
Proof.
  intros Ht Hg points Hdiff Hline.
  destruct (Grid.convexHull_real Ht polygons Hg) as [E _]. rewrite E.
  assert (Ep : Exact.input_points (map Grid.real_polygon polygons) = points).
  { unfold Exact.input_points, Grid.real_polygon, points.
    apply (flat_map_map_polygon Grid.real). }
  pose proof (Laws.convexHull_collinear (map Grid.real_polygon polygons)) as L.
  rewrite Ep in L. exact (L Hdiff Hline).
Qed.

(** X10: on the grid, polygonArea does not change when the polygon is
    moved: two polygons of the grid whose vertices, as points of the
    plane, differ by one translation get the same datum. *)
Theorem polygonArea_translated_on_grid
  (t B : Z) (dx dy : R) (P Q : Polygon IEEE754.arith) :
  (-62 <= t <= 52)%Z ->
  Forall (Grid.point_on_grid t B) (getVertices P) ->
  Forall (Grid.point_on_grid t B) (getVertices Q) ->
  (2 * Z.of_nat (length (getVertices P)) * (B * B) < 2 ^ 24)%Z ->
  map Grid.real (getVertices Q)
  = map (Laws.translate_point dx dy) (map Grid.real (getVertices P)) ->
  polygonArea Q = polygonArea P.
Proof.
  intros Ht HP HQ Hn Hmove.
  apply (@Grid.polygonArea_same t B P Q Ht HP HQ Hn).
  - apply (f_equal (@length _)) in Hmove. now rewrite !length_map in Hmove.
  - rewrite Hmove, Laws.shoelace_translated. reflexivity.
Qed.

(** X11: on the grid, polygonArea of a triangle is half the absolute
    value of the cross product of its corners, and polygonArea of a
    polygon of fewer than three vertices is +0. *)
Theorem polygonArea_small_on_grid (t B : Z) :
  (-62 <= t <= 52)%Z ->
  (forall Z A C : Cartesian IEEE754.arith,
      Forall (Grid.point_on_grid t B) [Z; A; C] ->
      (2 * 3 * (B * B) < 2 ^ 24)%Z ->
      Dyadic.value (polygonArea (mkPolygon [Z; A; C]))
      = (Rabs (crossProduct (Grid.real Z) (Grid.real A) (Grid.real C)) / 2)%R)
  /\ (forall vs : list (Cartesian IEEE754.arith),
        Forall (Grid.point_on_grid t B) vs ->
        (2 * Z.of_nat (length vs) * (B * B) < 2 ^ 24)%Z ->
        (length vs < 3)%nat ->
        polygonArea (mkPolygon vs) = S754_zero false).
Proof.
  intro Ht. split.
  - intros Z A C Hg Hn.
    destruct (@Grid.polygonArea_on_grid t B (mkPolygon [Z; A; C]) Ht Hg Hn)
      as (S & HS & E1 & E2).
    rewrite E1, Grid.value_mk by lia. fold (Grid.step (t + t - 1)) in E2. rewrite E2.
    cbn [getVertices map].
    pose proof (proj1 (Laws.polygonArea_small (Grid.real Z) (Grid.real A) (Grid.real C) []))
      as L.
    rewrite Exact.polygonArea_eq in L. exact L.
  - intros vs Hg Hn Hlen.
    destruct (@Grid.polygonArea_on_grid t B (mkPolygon vs) Ht Hg Hn) as (S & HS & E1 & E2).
    cbn [getVertices] in E2.
    pose proof (proj2 (Laws.polygonArea_small (Exact.pt 0 0) (Exact.pt 0 0) (Exact.pt 0 0)
                         (map Grid.real vs))) as L.
    rewrite length_map in L. specialize (L Hlen).
    rewrite Exact.polygonArea_eq in L. cbn [getVertices] in L. rewrite L in E2.
    assert (S = 0%Z).
    { apply eq_IZR. pose proof (Grid.step_pos (t + t - 1)). unfold Grid.step in *. nra. }
    subst S. exact E1.
Qed.


(** X3: on the grid, linesIntersect misses no pair of segments that have
    a point in common; for segments that are not parallel it holds only
    when they have one; and parallel segments on two different lines
    never intersect.  The segments are read as segments of the plane. *)
Theorem linesIntersect_common_point_on_grid
  (t B : Z) (A1 A2 : Segment IEEE754.arith) :
  (-31 <= t <= 52)%Z -> (8 * (B * B) < 2 ^ 24)%Z ->
  Grid.segment_on_grid t B A1 -> Grid.segment_on_grid t B A2 ->
  let S1 := Grid.real_segment A1 in
  let S2 := Grid.real_segment A2 in
  (Exact.segments_meet S1 S2 -> linesIntersect A1 A2 = true)
  /\ (~ Exact.parallel S1 S2 -> linesIntersect A1 A2 = true -> Exact.segments_meet S1 S2)
  /\ (Exact.parallel S1 S2 -> (crossProduct (fst S1) (fst S2) (snd S1) : R) <> 0%R ->
      linesIntersect A1 A2 = false).
Proof.
  intros Ht HB H1 H2 S1 S2.
  rewrite (Grid.linesIntersect_real Ht HB H1 H2). fold S1 S2.
  split; [apply Exact.segments_meet_linesIntersect|].
  split; [apply Exact.linesIntersect_segments_meet|].
  intros Hpar Hoff.
  destruct (linesIntersect S1 S2) eqn:E; [exfalso | reflexivity].
  apply (Exact.linesIntersect_parallel Hpar) in E. destruct E as [E _]. contradiction.
Qed.

(** X21: on the grid, the vertices convexHull returns, as points of the
    plane, do not depend on the arrangement its sort leaves: the two
    loops, run on any permutation of the input vertices in which no
    point is less than an earlier one, with any vector of [2 * n]
    points, give the vertices convexHull gives. *)
Theorem convexHull_any_arrangement_on_grid
  (t : Z) (polygons : list (Polygon IEEE754.arith)) (s hull0 : list (Cartesian IEEE754.arith)) :
  (-511 <= t <= 485)%Z ->
  Forall (Grid.point_on_grid t (2 ^ 25 - 1)) (flat_map getVertices polygons) ->
  Permutation s (flat_map getVertices polygons) ->
  Grid.arranged s ->
  length hull0 = (2 * length s)%nat ->
  map Grid.real (getVertices (hull_loops (length s) s hull0))
  = map Grid.real (getVertices (convexHull polygons)).
Proof.
  intros Ht Hg Hperm Hs H0. exact (@Grid.hull_loops_arranged t Ht polygons s hull0 Hg Hperm Hs H0).
Qed.
(** * The laws at concrete inputs *)

Lemma getLineSegments_chain_witness :
  getVertices Machine.triangle <> []
  /\ exists segments : list (Segment IEEE754.arith),
       getLineSegments Machine.triangle = Some segments
       /\ map snd segments = getVertices Machine.triangle
       /\ map fst segments
          = last (getVertices Machine.triangle) Cartesian_default
            :: removelast (getVertices Machine.triangle).
Proof.
  split; [discriminate|].
  apply (getLineSegments_chain Machine.triangle). discriminate.
Defined.


(** ** The laws of the grid at concrete inputs *)

Lemma hull_loops_within_vector_witness :
  let sorted := getVertices Machine.unit_square in
  let hull0 := repeat (Cartesian_default (Ar:=IEEE754.arith)) 8 in
  let hull0' := repeat (IEEE754.pt 1 1) 8 in
  length hull0 = (2 * length sorted)%nat
  /\ length hull0' = (2 * length sorted)%nat
  /\ (let first := fold_left (hull_step 2) sorted (hull0, 0%nat) in
      Forall (fun k => (k < length hull0)%nat) (hull_writes 2 sorted (hull0, 0%nat))
      /\ Forall (fun k => (k < length hull0)%nat)
                (hull_writes (snd first + 1) (rev (firstn (length sorted - 1) sorted)) first)
      /\ getVertices (hull_loops (length sorted) sorted hull0)
         = getVertices (hull_loops (length sorted) sorted hull0')).
Proof.
  intros sorted hull0 hull0'.
  split; [reflexivity|]. split; [reflexivity|].
  exact (@hull_loops_within_vector IEEE754.arith sorted hull0 hull0' eq_refl eq_refl).
Defined.

Lemma grid_0_range : (-511 <= 0 <= 485)%Z.
Proof. lia. Qed.

Lemma area_0_range : (-62 <= 0 <= 52)%Z.
Proof. lia. Qed.

Lemma convexHull_again_on_grid_witness :
  (-511 <= 0 <= 485)%Z
  /\ Forall (Grid.point_on_grid 0 (2 ^ 25 - 1)) (flat_map getVertices Machine.two_squares)
  /\ map Grid.real (getVertices (convexHull [convexHull Machine.two_squares]))
     = map Grid.real (getVertices (convexHull Machine.two_squares)).
Proof.
  split; [exact grid_0_range|]. split; [exact two_squares_on_grid|].
  exact (@convexHull_again_on_grid 0%Z Machine.two_squares grid_0_range two_squares_on_grid).
Defined.

Lemma two_squares_exchanged :
  Permutation (flat_map getVertices Machine.two_squares)
              (flat_map getVertices (rev Machine.two_squares)).
Proof.
  unfold Machine.two_squares. cbn [rev app flat_map]. rewrite !app_nil_r.
  apply Permutation_app_comm.
Qed.

Lemma convexHull_order_free_on_grid_witness :
  (-511 <= 0 <= 485)%Z
  /\ Forall (Grid.point_on_grid 0 (2 ^ 25 - 1)) (flat_map getVertices Machine.two_squares)
  /\ Permutation (flat_map getVertices Machine.two_squares)
                 (flat_map getVertices (rev Machine.two_squares))
  /\ map Grid.real (getVertices (convexHull Machine.two_squares))
     = map Grid.real (getVertices (convexHull (rev Machine.two_squares))).
Proof.
  split; [exact grid_0_range|]. split; [exact two_squares_on_grid|].
  split; [exact two_squares_exchanged|].
  exact (@convexHull_order_free_on_grid 0%Z Machine.two_squares (rev Machine.two_squares)
           grid_0_range two_squares_on_grid two_squares_exchanged).
Defined.

(** Three points of the diagonal. *)
Definition on_diagonal : list (Polygon IEEE754.arith) :=
  [mkPolygon [IEEE754.pt 1 1; IEEE754.pt 0 0; IEEE754.pt 2 2]].

Lemma on_diagonal_on_grid :
  Forall (Grid.point_on_grid 0 (2 ^ 25 - 1)) (flat_map getVertices on_diagonal).
Proof.
  unfold on_diagonal. cbn [flat_map getVertices app].
  repeat (apply Forall_cons; [apply Grid.pt_on_grid; apply Z.leb_le; reflexivity|]).
  apply Forall_nil.
Qed.

Lemma on_diagonal_real :
  map Grid.real (flat_map getVertices on_diagonal)
  = [Exact.pt 1 1; Exact.pt 0 0; Exact.pt 2 2].
Proof.
  unfold on_diagonal. cbn [flat_map getVertices app map].
  rewrite !Grid.real_pt by reflexivity. reflexivity.
Qed.

Lemma on_diagonal_two :
  exists x y, In x (map Grid.real (flat_map getVertices on_diagonal))
              /\ In y (map Grid.real (flat_map getVertices on_diagonal)) /\ x <> y.
Proof.
  rewrite on_diagonal_real. exists (Exact.pt 1 1), (Exact.pt 0 0).
  split; [simpl; tauto|]. split; [simpl; tauto|].
  intro H. apply (f_equal (@getX RealArith)) in H. cbn [getX Exact.pt] in H. lra.
Qed.

Lemma on_diagonal_line :
  forall a b c,
    In a (map Grid.real (flat_map getVertices on_diagonal)) ->
    In b (map Grid.real (flat_map getVertices on_diagonal)) ->
    In c (map Grid.real (flat_map getVertices on_diagonal)) ->
    (crossProduct a b c : R) = 0%R.
Proof.
  rewrite on_diagonal_real. intros a b c Ha Hb Hc.
  rewrite Exact.crossProduct_eq.
  simpl in Ha, Hb, Hc.
  destruct Ha as [<- | [<- | [<- | []]]];
    destruct Hb as [<- | [<- | [<- | []]]];
    destruct Hc as [<- | [<- | [<- | []]]];
    cbn [getX getY Exact.pt]; lra.
Qed.

Lemma convexHull_collinear_on_grid_witness :
  (-511 <= 0 <= 485)%Z
  /\ Forall (Grid.point_on_grid 0 (2 ^ 25 - 1)) (flat_map getVertices on_diagonal)
  /\ exists m M : Exact.point,
       map Grid.real (getVertices (convexHull on_diagonal)) = [m; M; m]
       /\ In m (map Grid.real (flat_map getVertices on_diagonal))
       /\ In M (map Grid.real (flat_map getVertices on_diagonal))
       /\ m <> M
       /\ forall p, In p (map Grid.real (flat_map getVertices on_diagonal)) ->
                    Exact.lex_le m p /\ Exact.lex_le p M.
Proof.
  split; [exact grid_0_range|]. split; [exact on_diagonal_on_grid|].
  exact (@convexHull_collinear_on_grid 0%Z on_diagonal grid_0_range on_diagonal_on_grid
           on_diagonal_two on_diagonal_line).
Defined.

(** The unit square, moved by (1, 1). *)
Definition moved_square : Polygon IEEE754.arith :=
  mkPolygon [IEEE754.pt 1 1; IEEE754.pt 2 1; IEEE754.pt 2 2; IEEE754.pt 1 2].

Lemma unit_square_on_grid_2 :
  Forall (Grid.point_on_grid 0 2) (getVertices Machine.unit_square).
Proof.
  unfold Machine.unit_square. cbn [getVertices].
  repeat (apply Forall_cons; [apply Grid.pt_on_grid; apply Z.leb_le; reflexivity|]).
  apply Forall_nil.
Qed.

Lemma moved_square_on_grid :
  Forall (Grid.point_on_grid 0 2) (getVertices moved_square).
Proof.
  unfold moved_square. cbn [getVertices].
  repeat (apply Forall_cons; [apply Grid.pt_on_grid; apply Z.leb_le; reflexivity|]).
  apply Forall_nil.
Qed.

Lemma moved_square_small :
  (2 * Z.of_nat (length (getVertices Machine.unit_square)) * (2 * 2) < 2 ^ 24)%Z.
Proof. reflexivity. Qed.

Lemma moved_square_moved :
  map Grid.real (getVertices moved_square)
  = map (Laws.translate_point 1 1) (map Grid.real (getVertices Machine.unit_square)).
Proof.
  unfold moved_square, Machine.unit_square. cbn [getVertices map].
  rewrite !Grid.real_pt by reflexivity.
  unfold Laws.translate_point, Exact.pt. cbn [getX getY].
  repeat (f_equal; try lra).
Qed.

Lemma polygonArea_translated_on_grid_witness :
  (-62 <= 0 <= 52)%Z
  /\ Forall (Grid.point_on_grid 0 2) (getVertices Machine.unit_square)
  /\ Forall (Grid.point_on_grid 0 2) (getVertices moved_square)
  /\ (2 * Z.of_nat (length (getVertices Machine.unit_square)) * (2 * 2) < 2 ^ 24)%Z
  /\ map Grid.real (getVertices moved_square)
     = map (Laws.translate_point 1 1) (map Grid.real (getVertices Machine.unit_square))
  /\ polygonArea moved_square = polygonArea Machine.unit_square.
Proof.
  split; [exact area_0_range|]. split; [exact unit_square_on_grid_2|].
  split; [exact moved_square_on_grid|]. split; [exact moved_square_small|].
  split; [exact moved_square_moved|].
  exact (@polygonArea_translated_on_grid 0%Z 2%Z 1%R 1%R Machine.unit_square moved_square
           area_0_range unit_square_on_grid_2 moved_square_on_grid moved_square_small
           moved_square_moved).
Defined.

Lemma triangle_on_grid :
  Forall (Grid.point_on_grid 0 1) [IEEE754.pt 0 0; IEEE754.pt 1 0; IEEE754.pt 0 1].
Proof.
  repeat (apply Forall_cons; [apply Grid.pt_on_grid; apply Z.leb_le; reflexivity|]).
  apply Forall_nil.
Qed.

Lemma triangle_small : (2 * 3 * (1 * 1) < 2 ^ 24)%Z.
Proof. reflexivity. Qed.

Lemma polygonArea_small_on_grid_witness :
  (-62 <= 0 <= 52)%Z
  /\ Dyadic.value (polygonArea (mkPolygon [IEEE754.pt 0 0; IEEE754.pt 1 0; IEEE754.pt 0 1]))
     = (Rabs (crossProduct (Grid.real (IEEE754.pt 0 0)) (Grid.real (IEEE754.pt 1 0))
                           (Grid.real (IEEE754.pt 0 1))) / 2)%R.
Proof.
  split; [exact area_0_range|].
  exact (proj1 (@polygonArea_small_on_grid 0%Z 1%Z area_0_range)
           (IEEE754.pt 0 0) (IEEE754.pt 1 0) (IEEE754.pt 0 1) triangle_on_grid triangle_small).
Defined.

Lemma diagonals_on_grid :
  Grid.segment_on_grid 0 1 Machine.diagonal_up
  /\ Grid.segment_on_grid 0 1 Machine.diagonal_down.
Proof.
  unfold Grid.segment_on_grid, Machine.diagonal_up, Machine.diagonal_down. cbn [fst snd].
  repeat split; apply Grid.pt_on_grid; apply Z.leb_le; reflexivity.
Qed.

Lemma diagonals_range : (-31 <= 0 <= 52)%Z.
Proof. lia. Qed.

Lemma diagonals_small : (8 * (1 * 1) < 2 ^ 24)%Z.
Proof. reflexivity. Qed.

Lemma linesIntersect_common_point_on_grid_witness :
  (-31 <= 0 <= 52)%Z /\ (8 * (1 * 1) < 2 ^ 24)%Z
  /\ Grid.segment_on_grid 0 1 Machine.diagonal_up
  /\ Grid.segment_on_grid 0 1 Machine.diagonal_down
  /\ (let S1 := Grid.real_segment Machine.diagonal_up in
      let S2 := Grid.real_segment Machine.diagonal_down in
      (Exact.segments_meet S1 S2 -> linesIntersect Machine.diagonal_up Machine.diagonal_down = true)
      /\ (~ Exact.parallel S1 S2 ->
          linesIntersect Machine.diagonal_up Machine.diagonal_down = true ->
          Exact.segments_meet S1 S2)
      /\ (Exact.parallel S1 S2 -> (crossProduct (fst S1) (fst S2) (snd S1) : R) <> 0%R ->
          linesIntersect Machine.diagonal_up Machine.diagonal_down = false)).
Proof.
  split; [exact diagonals_range|]. split; [exact diagonals_small|].
  split; [exact (proj1 diagonals_on_grid)|]. split; [exact (proj2 diagonals_on_grid)|].
  exact (@linesIntersect_common_point_on_grid 0%Z 1%Z Machine.diagonal_up Machine.diagonal_down
           diagonals_range diagonals_small (proj1 diagonals_on_grid) (proj2 diagonals_on_grid)).
Defined.

(** Four points, two of which are the origin with the two signs of zero:
    neither is less than the other, and the sort may leave them either
    way round. *)
Definition minus_origin : Cartesian IEEE754.arith :=
  mkCartesian (Ar:=IEEE754.arith) (S754_zero true) (IEEE754.mk 0 0).

Definition two_origins : list (Polygon IEEE754.arith) :=
  [mkPolygon [IEEE754.pt 0 0; minus_origin; IEEE754.pt 1 0; IEEE754.pt 0 1]].

Definition origins_arranged : list (Cartesian IEEE754.arith) :=
  [minus_origin; IEEE754.pt 0 0; IEEE754.pt 0 1; IEEE754.pt 1 0].

Lemma two_origins_on_grid :
  Forall (Grid.point_on_grid 0 (2 ^ 25 - 1)) (flat_map getVertices two_origins).
Proof.
  unfold two_origins. cbn [flat_map getVertices app].
  apply Forall_cons; [apply Grid.pt_on_grid; apply Z.leb_le; reflexivity|].
  apply Forall_cons.
  { split; exists 0%Z; (split; [apply Z.leb_le; reflexivity|]).
    - right. split; reflexivity.
    - left. reflexivity. }
  repeat (apply Forall_cons; [apply Grid.pt_on_grid; apply Z.leb_le; reflexivity|]).
  apply Forall_nil.
Qed.

Lemma origins_arranged_perm :
  Permutation origins_arranged (flat_map getVertices two_origins).
Proof.
  unfold origins_arranged, two_origins. cbn [flat_map getVertices app].
  eapply perm_trans; [apply perm_swap|].
  apply perm_skip, perm_skip, perm_swap.
Qed.

Lemma origins_arranged_sorted : Grid.arranged origins_arranged.
Proof.
  unfold Grid.arranged, origins_arranged.
  repeat (apply SSorted_cons; [| repeat (apply Forall_cons; [vm_compute; reflexivity|]);
                                 apply Forall_nil]).
  apply SSorted_nil.
Qed.

Lemma origins_sort_differs :
  sort (flat_map getVertices two_origins) <> origins_arranged.
Proof.
  intro H. apply (f_equal (fun l => Machine.coordinates (hd Cartesian_default l))) in H.
  vm_compute in H. discriminate H.
Qed.

Lemma convexHull_any_arrangement_on_grid_witness :
  (-511 <= 0 <= 485)%Z
  /\ Forall (Grid.point_on_grid 0 (2 ^ 25 - 1)) (flat_map getVertices two_origins)
  /\ Permutation origins_arranged (flat_map getVertices two_origins)
  /\ Grid.arranged origins_arranged
  /\ length (repeat (IEEE754.pt 1 1) 8) = (2 * length origins_arranged)%nat
  /\ map Grid.real
         (getVertices (hull_loops (length origins_arranged) origins_arranged
                                  (repeat (IEEE754.pt 1 1) 8)))
     = map Grid.real (getVertices (convexHull two_origins)).
Proof.
  split; [exact grid_0_range|]. split; [exact two_origins_on_grid|].
  split; [exact origins_arranged_perm|]. split; [exact origins_arranged_sorted|].
  split; [reflexivity|].
  exact (@convexHull_any_arrangement_on_grid 0%Z two_origins origins_arranged
           (repeat (IEEE754.pt 1 1) 8)
           grid_0_range two_origins_on_grid origins_arranged_perm origins_arranged_sorted
           eq_refl).
Defined.
(** * The randomized wall follower
      (mouse/randomizedWallFollow/RandomizedWallFollow.cpp)

    The algorithm acts through the methods of [sim::MouseInterface] and
    draws from [rand()]; its outer loop never ends.  It is embedded as an
    interaction tree over the calls it makes: whatever answers the calls
    is left open. *)

Module WallFollow.

Import ITree.ITree ITree.ITreeFacts ITree.Events.State ITree.Events.StateFacts.
Import ITree.Interp.Traces ITree.Axioms.
Import Strings.Ascii.
Import Paco.paco.
Import ITreeNotations.
Local Open Scope itree_scope.

(** The calls: [rand()] of <cstdlib>, and the six methods of
    [sim::MouseInterface] the algorithm uses, three sensors that answer
    with a [bool] and three moves. *)
Variant envE : Type -> Type :=
| rand : envE Z
| wallRight : envE bool
| wallFront : envE bool
| wallLeft : envE bool
| turnRight : envE unit
| turnLeft : envE unit
| moveForward : envE unit.

(** [while (cond) { body }] *)
Definition while (cond : itree envE bool) (body : itree envE unit) : itree envE unit :=
  ITree.iter (fun _ : unit =>
                c <- cond;;
                if c then body;; Ret (inl tt) else Ret (inr tt)) tt.

Definition rightWallFollowStep : itree envE unit :=
  r <- ITree.trigger wallRight;;
  (if negb r then ITree.trigger turnRight else Ret tt);;
  while (ITree.trigger wallFront) (ITree.trigger turnLeft);;
  ITree.trigger moveForward.

Definition leftWallFollowStep : itree envE unit :=
  l <- ITree.trigger wallLeft;;
  (if negb l then ITree.trigger turnLeft else Ret tt);;
  while (ITree.trigger wallFront) (ITree.trigger turnRight);;
  ITree.trigger moveForward.

(** [rand() % 2] is the remainder of C, [Z.rem]. *)
Definition solve (mazeWidth mazeHeight : Z) (isOfficialMaze : bool) (initialDirection : ascii)
  : itree envE unit :=
  while (Ret true)
        (n <- ITree.trigger rand;;
         if (Z.rem n 2 =? 0)%Z then rightWallFollowStep else leftWallFollowStep).

Lemma bind_spin (E : Type -> Type) (X Y : Type) (k : X -> itree E Y) :
  ITree.bind (@ITree.spin E X) k ≈ ITree.spin.
Proof.
  einit. ecofix CIH.
  rewrite (itree_eta (@ITree.spin E X)), (itree_eta (@ITree.spin E Y)). cbn.
  rewrite bind_tau. etau.
Qed.

(** ** The steps in a simulator

    A simulator is any state [World] on which every call acts as a
    function: a sensor returns its reading and the state it leaves. *)

Section World.

Variable World : Type.
Variables sense_right sense_front sense_left : World -> World * bool.
Variables do_right do_left do_move : World -> World.
Variable draw : World -> World * Z.

Definition world : envE ~> Monads.stateT World (itree void1) :=
  fun _ e w =>
    match e with
    | rand => Ret (draw w)
    | wallRight => Ret (sense_right w)
    | wallFront => Ret (sense_front w)
    | wallLeft => Ret (sense_left w)
    | turnRight => Ret (do_right w, tt)
    | turnLeft => Ret (do_left w, tt)
    | moveForward => Ret (do_move w, tt)
    end.

(** What [while (wallFront()) turn();] leaves when it ends within [fuel]
    readings of the front sensor: the state after the first reading that
    shows no wall. *)
Fixpoint face_open (turn : World -> World) (fuel : nat) (w : World) : option World :=
  match fuel with
  | O => None
  | S fuel' =>
      let (w1, wall) := sense_front w in
      if wall then face_open turn fuel' (turn w1) else Some w1
  end.

(** The state in which the loop starts: after the reading of the side
    sensor and, with no wall on that side, the turn to that side. *)
Definition after_wallRight (w : World) : World :=
  let (w1, wall) := sense_right w in if wall then w1 else do_right w1.

Definition after_wallLeft (w : World) : World :=
  let (w1, wall) := sense_left w in if wall then w1 else do_left w1.

Lemma while_wallFront_ends (turnE : envE unit) (turn : World -> World) :
  (forall w, @world unit turnE w = Ret (turn w, tt)) ->
  forall (fuel : nat) (w w' : World),
    face_open turn fuel w = Some w' ->
    interp_state world (while (ITree.trigger wallFront) (ITree.trigger turnE)) w ≈ Ret (w', tt).
Proof.
  intros Hturn fuel. induction fuel as [|fuel IH]; intros w w' H; [discriminate|].
  cbn [face_open] in H.
  unfold while. rewrite unfold_iter, bind_bind.
  rewrite interp_state_bind, interp_state_trigger. cbn [world].
  destruct (sense_front w) as [w1 wall]. rewrite bind_ret_l. cbn [fst snd].
  destruct wall.
  - rewrite !bind_bind, interp_state_bind, interp_state_trigger, Hturn.
    rewrite bind_ret_l. cbn [fst snd]. rewrite bind_ret_l.
    rewrite interp_state_tau, tau_eutt.
    apply IH. exact H.
  - injection H as <-. rewrite bind_ret_l, interp_state_ret. reflexivity.
Qed.

Lemma while_wallFront_spins (turnE : envE unit) (turn : World -> World) :
  (forall w, @world unit turnE w = Ret (turn w, tt)) ->
  forall w : World,
    (forall fuel, face_open turn fuel w = None) ->
    interp_state world (while (ITree.trigger wallFront) (ITree.trigger turnE)) w ≈ ITree.spin.
Proof.
  intros Hturn. einit. ecofix CIH. intros w Hall.
  unfold while. rewrite unfold_iter, bind_bind.
  rewrite interp_state_bind, interp_state_trigger_eqit. cbn [world].
  pose proof (Hall 1%nat) as H1. cbn [face_open] in H1.
  destruct (sense_front w) as [w1 wall] eqn:E.
  destruct wall; [clear H1 | discriminate H1].
  rewrite bind_ret_l, bind_tau, bind_ret_l. cbn [fst snd]. rewrite tau_euttge.
  rewrite !bind_bind, interp_state_bind, interp_state_trigger_eqit, Hturn.
  rewrite bind_ret_l, bind_tau, bind_ret_l. cbn [fst snd]. rewrite tau_euttge.
  rewrite bind_ret_l, interp_state_tau.
  rewrite (itree_eta ITree.spin). cbn. etau.
  ebase. right. apply CIHL. intro fuel.
  specialize (Hall (S fuel)). cbn [face_open] in Hall. rewrite E in Hall. exact Hall.
Qed.

(** X16: rightWallFollowStep in a simulator: when the loop on the front sensor
    ends, the step returns, and the state it leaves is the one
    moveForward makes of the state the loop ended in; the mouse has moved
    forward once, from a state in which the front sensor showed no wall. *)
Theorem rightWallFollowStep_run (fuel : nat) (w w' : World) :
  face_open do_left fuel (after_wallRight w) = Some w' ->
  interp_state world rightWallFollowStep w ≈ Ret (do_move w', tt).
Proof.
  unfold after_wallRight, rightWallFollowStep. intro H.
  rewrite interp_state_bind, interp_state_trigger. cbn [world].
  destruct (sense_right w) as [w1 wall]. rewrite bind_ret_l. cbn [fst snd].
  rewrite interp_state_bind.
  destruct wall; cbn [negb].
  - rewrite interp_state_ret, bind_ret_l. cbn [fst snd].
    rewrite interp_state_bind.
    rewrite (@while_wallFront_ends turnLeft do_left (fun _ => eq_refl) fuel w1 w' H).
    rewrite bind_ret_l. cbn [fst snd]. rewrite interp_state_trigger. reflexivity.
  - rewrite interp_state_trigger. cbn [world]. rewrite bind_ret_l. cbn [fst snd].
    rewrite interp_state_bind.
    rewrite (@while_wallFront_ends turnLeft do_left (fun _ => eq_refl) fuel (do_right w1) w' H).
    rewrite bind_ret_l. cbn [fst snd]. rewrite interp_state_trigger. reflexivity.
Qed.

(** X17: leftWallFollowStep in a simulator, likewise, with left and right
    exchanged. *)
Theorem leftWallFollowStep_run (fuel : nat) (w w' : World) :
  face_open do_right fuel (after_wallLeft w) = Some w' ->
  interp_state world leftWallFollowStep w ≈ Ret (do_move w', tt).
Proof.
  unfold after_wallLeft, leftWallFollowStep. intro H.
  rewrite interp_state_bind, interp_state_trigger. cbn [world].
  destruct (sense_left w) as [w1 wall]. rewrite bind_ret_l. cbn [fst snd].
  rewrite interp_state_bind.
  destruct wall; cbn [negb].
  - rewrite interp_state_ret, bind_ret_l. cbn [fst snd].
    rewrite interp_state_bind.
    rewrite (@while_wallFront_ends turnRight do_right (fun _ => eq_refl) fuel w1 w' H).
    rewrite bind_ret_l. cbn [fst snd]. rewrite interp_state_trigger. reflexivity.
  - rewrite interp_state_trigger. cbn [world]. rewrite bind_ret_l. cbn [fst snd].
    rewrite interp_state_bind.
    rewrite (@while_wallFront_ends turnRight do_right (fun _ => eq_refl) fuel (do_left w1) w' H).
    rewrite bind_ret_l. cbn [fst snd]. rewrite interp_state_trigger. reflexivity.
Qed.

Lemma rightWallFollowStep_spins (w : World) :
  (forall fuel, face_open do_left fuel (after_wallRight w) = None) ->
  interp_state world rightWallFollowStep w ≈ ITree.spin.
Proof.
  unfold after_wallRight, rightWallFollowStep. intro H.
  rewrite interp_state_bind, interp_state_trigger. cbn [world].
  destruct (sense_right w) as [w1 wall]. rewrite bind_ret_l. cbn [fst snd].
  rewrite interp_state_bind.
  destruct wall; cbn [negb].
  - rewrite interp_state_ret, bind_ret_l. cbn [fst snd].
    rewrite interp_state_bind.
    rewrite (@while_wallFront_spins turnLeft do_left (fun _ => eq_refl) w1 H).
    apply bind_spin.
  - rewrite interp_state_trigger. cbn [world]. rewrite bind_ret_l. cbn [fst snd].
    rewrite interp_state_bind.
    rewrite (@while_wallFront_spins turnLeft do_left (fun _ => eq_refl) (do_right w1) H).
    apply bind_spin.
Qed.

Lemma leftWallFollowStep_spins (w : World) :
  (forall fuel, face_open do_right fuel (after_wallLeft w) = None) ->
  interp_state world leftWallFollowStep w ≈ ITree.spin.
Proof.
  unfold after_wallLeft, leftWallFollowStep. intro H.
  rewrite interp_state_bind, interp_state_trigger. cbn [world].
  destruct (sense_left w) as [w1 wall]. rewrite bind_ret_l. cbn [fst snd].
  rewrite interp_state_bind.
  destruct wall; cbn [negb].
  - rewrite interp_state_ret, bind_ret_l. cbn [fst snd].
    rewrite interp_state_bind.
    rewrite (@while_wallFront_spins turnRight do_right (fun _ => eq_refl) w1 H).
    apply bind_spin.
  - rewrite interp_state_trigger. cbn [world]. rewrite bind_ret_l. cbn [fst snd].
    rewrite interp_state_bind.
    rewrite (@while_wallFront_spins turnRight do_right (fun _ => eq_refl) (do_left w1) H).
    apply bind_spin.
Qed.

(** X18: in a cell whose front sensor shows a wall in every state, neither
    step ever returns: each turns for ever and never moves forward. *)
Theorem wallFollowStep_walled_in :
  (forall w : World, snd (sense_front w) = true) ->
  forall w : World,
    interp_state world rightWallFollowStep w ≈ ITree.spin
    /\ interp_state world leftWallFollowStep w ≈ ITree.spin.
Proof.
  intros Hwall w.
  assert (Hnone : forall (turn : World -> World) (fuel : nat) (w0 : World),
             face_open turn fuel w0 = None).
  { intros turn fuel. induction fuel as [|fuel IH]; intro w0; [reflexivity|].
    cbn [face_open]. pose proof (Hwall w0) as H0.
    destruct (sense_front w0) as [w1 wall]. cbn [snd] in H0. subst wall. apply IH. }
  split.
  - apply rightWallFollowStep_spins. intro fuel. apply Hnone.
  - apply leftWallFollowStep_spins. intro fuel. apply Hnone.
Qed.

End World.

(** ** The calls of a run

    A run is read off the interaction tree as a trace: the calls made,
    each with the answer it got.  [clear] says that the call before was
    wallFront and that it answered "no wall". *)

Definition permitted {X : Type} (clear : bool) (e : envE X) : Prop :=
  match e with
  | moveForward => clear = true
  | _ => True
  end.

Definition clear_after {X : Type} (e : envE X) : X -> bool :=
  match e in envE X return X -> bool with
  | wallFront => negb
  | _ => fun _ => false
  end.

(** Every moveForward of the trace comes directly after a wallFront that
    answered [false]. *)
Fixpoint guarded {R : Type} (clear : bool) (tr : @trace envE R) : Prop :=
  match tr with
  | TEnd => True
  | TRet _ => True
  | TEventEnd e => permitted clear e
  | TEventResponse e x tr' => permitted clear e /\ guarded (clear_after e x) tr'
  end.

Lemma is_trace_eutt (R : Type) (t1 t2 : itree envE R) (tr : @trace envE R) :
  t1 ≈ t2 -> is_trace t1 tr -> is_trace t2 tr.
Proof. intros H Ht. apply (eutt_trace_eq t1 t2 H). exact Ht. Qed.

Section Invariant.

Variable R : Type.
Variable Holds : bool -> itree envE R -> Prop.

Hypothesis Holds_step :
  forall clear t, Holds clear t ->
    exists (X : Type) (e : envE X) (k : X -> itree envE R),
      t ≈ Vis e k /\ permitted clear e /\ forall x, Holds (clear_after e x) (k x).

(** A program that stays in [Holds], where the next thing is always a
    permitted call, has guarded traces only and never returns. *)
Lemma Holds_traces (tr : @trace envE R) :
  forall clear t, Holds clear t -> is_trace t tr -> guarded clear tr /\ trace_ret tr = None.
Proof.
  induction tr as [| r | X e | X e x tr IH]; intros clear t HI Ht;
    destruct (Holds_step HI) as (Y & e' & k & Ht' & Hp & Hk);
    apply (is_trace_eutt Ht') in Ht; unfold is_trace in Ht; cbn in Ht.
  - split; [exact I | reflexivity].
  - inversion Ht.
  - inversion Ht; subst. ddestruction. split; [exact Hp | reflexivity].
  - inversion Ht; subst. ddestruction. cbn.
    match goal with
    | Hsub : is_traceF (observe (k x)) tr |- _ =>
        destruct (IH _ _ (Hk x) Hsub) as [IH1 IH2]
    end.
    split; [split; [exact Hp | exact IH1] | exact IH2].
Qed.

End Invariant.

(** *** The places of solve

    Between two calls solve is at one of these places: at the head of
    its loop; at the head of a step; before the turn towards the side
    without a wall; at the head of the loop on the front sensor; before
    the turn of that loop; before moveForward. *)

Section Solve.

Variables (mazeWidth mazeHeight : Z) (isOfficialMaze : bool).
Variable initialDirection : ascii.

Let solve' := solve mazeWidth mazeHeight isOfficialMaze initialDirection.

Inductive place : Type :=
| AtLoop
| AtStep (onRight : bool)
| AtTurnIn (onRight : bool)
| AtWhile (onRight : bool)
| AtTurn (onRight : bool)
| AtMove.

Definition wall_side (onRight : bool) : envE bool := if onRight then wallRight else wallLeft.
Definition turn_in (onRight : bool) : envE unit := if onRight then turnRight else turnLeft.
Definition turn_out (onRight : bool) : envE unit := if onRight then turnLeft else turnRight.

Definition finish (onRight : bool) : itree envE unit :=
  while (ITree.trigger wallFront) (ITree.trigger (turn_out onRight));;
  ITree.trigger moveForward;;
  solve'.

Definition rest (p : place) : itree envE unit :=
  match p with
  | AtLoop => solve'
  | AtStep onRight => (if onRight then rightWallFollowStep else leftWallFollowStep);; solve'
  | AtTurnIn onRight => ITree.trigger (turn_in onRight);; finish onRight
  | AtWhile onRight => finish onRight
  | AtTurn onRight => ITree.trigger (turn_out onRight);; finish onRight
  | AtMove => ITree.trigger moveForward;; solve'
  end.

Lemma solve_unfold :
  solve' ≈ Vis rand (fun n : Z => rest (AtStep (Z.rem n 2 =? 0)%Z)).
Proof.
  unfold solve', solve, while at 1. rewrite unfold_iter.
  rewrite bind_bind, bind_ret_l. cbv beta iota. rewrite !bind_bind.
  unfold ITree.trigger at 1. rewrite bind_vis.
  apply eqit_Vis. intro n. rewrite bind_ret_l. cbn [rest].
  destruct (Z.rem n 2 =? 0)%Z.
  - apply eqit_bind; [reflexivity|]. intros [].
    rewrite bind_ret_l. rewrite tau_eutt. reflexivity.
  - apply eqit_bind; [reflexivity|]. intros [].
    rewrite bind_ret_l. rewrite tau_eutt. reflexivity.
Qed.

Lemma step_unfold (onRight : bool) :
  rest (AtStep onRight)
  ≈ Vis (wall_side onRight)
        (fun wall : bool => rest (if wall then AtWhile onRight else AtTurnIn onRight)).
Proof.
  destruct onRight; cbn [rest wall_side].
  - unfold rightWallFollowStep. rewrite bind_bind.
    unfold ITree.trigger at 1. rewrite bind_vis.
    apply eqit_Vis. intro r. rewrite bind_ret_l.
    rewrite bind_bind. destruct r; cbn [negb rest turn_in turn_out].
    + rewrite bind_ret_l, bind_bind. reflexivity.
    + apply eqit_bind; [reflexivity|]. intros []. rewrite bind_bind. reflexivity.
  - unfold leftWallFollowStep. rewrite bind_bind.
    unfold ITree.trigger at 1. rewrite bind_vis.
    apply eqit_Vis. intro r. rewrite bind_ret_l.
    rewrite bind_bind. destruct r; cbn [negb rest turn_in turn_out].
    + rewrite bind_ret_l, bind_bind. reflexivity.
    + apply eqit_bind; [reflexivity|]. intros []. rewrite bind_bind. reflexivity.
Qed.

Lemma finish_unfold (onRight : bool) :
  finish onRight ≈ Vis wallFront (fun wall : bool => rest (if wall then AtTurn onRight else AtMove)).
Proof.
  unfold finish, while at 1. rewrite unfold_iter. rewrite !bind_bind.
  unfold ITree.trigger at 1. rewrite bind_vis.
  apply eqit_Vis. intro b. rewrite bind_ret_l.
  destruct b; cbn [rest].
  - rewrite !bind_bind. apply eqit_bind; [reflexivity|]. intros [].
    rewrite !bind_ret_l. rewrite tau_eutt. reflexivity.
  - rewrite !bind_ret_l. reflexivity.
Qed.

Definition at_place (clear : bool) (t : itree envE unit) : Prop :=
  exists p, t ≈ rest p /\ (p = AtMove -> clear = true).

Lemma at_place_step (clear : bool) (t : itree envE unit) :
  at_place clear t ->
  exists (X : Type) (e : envE X) (k : X -> itree envE unit),
    t ≈ Vis e k /\ permitted clear e /\ forall x, at_place (clear_after e x) (k x).
Proof.
  intros (p & Ht & Hc). destruct p as [| onRight | onRight | onRight | onRight |].
  - exists Z, rand, (fun n : Z => rest (AtStep (Z.rem n 2 =? 0)%Z)).
    split; [rewrite Ht; apply solve_unfold|]. split; [exact I|].
    intro n. eexists. split; [reflexivity | discriminate].
  - exists bool, (wall_side onRight),
      (fun wall : bool => rest (if wall then AtWhile onRight else AtTurnIn onRight)).
    split; [rewrite Ht; apply step_unfold|]. split; [destruct onRight; exact I|].
    intro r. eexists. split; [reflexivity | destruct r; discriminate].
  - exists unit, (turn_in onRight), (fun _ : unit => rest (AtWhile onRight)).
    split; [rewrite Ht; cbn [rest]; rewrite bind_trigger; reflexivity|]. split; [destruct onRight; exact I|].
    intro x. eexists. split; [reflexivity | discriminate].
  - exists bool, wallFront, (fun wall : bool => rest (if wall then AtTurn onRight else AtMove)).
    split; [rewrite Ht; apply finish_unfold|]. split; [exact I|].
    intro b. eexists. split; [reflexivity|]. destruct b; [discriminate | reflexivity].
  - exists unit, (turn_out onRight), (fun _ : unit => rest (AtWhile onRight)).
    split; [rewrite Ht; cbn [rest]; rewrite bind_trigger; reflexivity|]. split; [destruct onRight; exact I|].
    intro x. eexists. split; [reflexivity | discriminate].
  - exists unit, moveForward, (fun _ : unit => rest AtLoop).
    split; [rewrite Ht; cbn [rest]; rewrite bind_trigger; reflexivity|]. split; [cbn; auto|].
    intro x. eexists. split; [reflexivity | discriminate].
Qed.

(** X15: in every run of solve, whatever the maze, the answers of the sensors
    and the numbers drawn, each moveForward comes directly after a
    wallFront that answered "no wall"; and solve never returns. *)
Theorem solve_moves_only_when_clear (tr : @trace envE unit) :
  is_trace solve' tr -> guarded false tr /\ trace_ret tr = None.
Proof.
  apply (@Holds_traces unit at_place at_place_step).
  exists AtLoop. split; [reflexivity | discriminate].
Qed.

End Solve.

(** ** Left and right *)

(** The call with left and right exchanged. *)
Definition mirror : envE ~> envE :=
  fun _ e =>
    match e with
    | wallRight => wallLeft
    | wallLeft => wallRight
    | turnRight => turnLeft
    | turnLeft => turnRight
    | e' => e'
    end.

Lemma translate_iter (E F : Type -> Type) (A B : Type) (h : E ~> F)
      (body : A -> itree E (A + B)) :
  forall a : A,
    translate h (ITree.iter body a) ≅ ITree.iter (fun a' => translate h (body a')) a.
Proof.
  ginit. gcofix CIH. intro a.
  rewrite 2 unfold_iter. rewrite translate_bind.
  guclo eqit_clo_bind. econstructor; [reflexivity|].
  intros [a' | b] ? <-.
  - rewrite translate_tau. gstep. constructor. gbase. apply CIH.
  - rewrite translate_ret. gstep. constructor. reflexivity.
Qed.

Lemma translate_ITree_trigger (X : Type) (e : envE X) :
  translate mirror (ITree.trigger e) ≅ ITree.trigger (mirror e).
Proof.
  unfold ITree.trigger. rewrite translate_vis.
  apply eqit_Vis. intro x. apply translate_ret.
Qed.

Lemma while_eq_itree (cond cond' : itree envE bool) (body body' : itree envE unit) :
  cond ≅ cond' -> body ≅ body' -> while cond body ≅ while cond' body'.
Proof.
  intros Hc Hb. unfold while. apply eq_itree_iter. intros ? [] <-.
  apply eqit_bind; [exact Hc|]. intros [].
  - apply eqit_bind; [exact Hb|]. intros []. reflexivity.
  - reflexivity.
Qed.

Lemma mirror_while (cond : itree envE bool) (body : itree envE unit) :
  translate mirror (while cond body)
  ≅ while (translate mirror cond) (translate mirror body).
Proof.
  unfold while. rewrite translate_iter.
  apply eq_itree_iter. intros ? [] <-.
  rewrite translate_bind. apply eqit_bind; [reflexivity|]. intros [].
  - rewrite translate_bind. apply eqit_bind; [reflexivity|]. intros []. apply translate_ret.
  - apply translate_ret.
Qed.

(** X19: leftWallFollowStep is rightWallFollowStep with left and right
    exchanged, call for call. *)
Theorem leftWallFollowStep_mirror :
  translate mirror rightWallFollowStep ≅ leftWallFollowStep.
Proof.
  unfold rightWallFollowStep, leftWallFollowStep.
  rewrite translate_bind, translate_ITree_trigger. cbn [mirror].
  apply eqit_bind; [reflexivity|]. intro wall.
  rewrite translate_bind. apply eqit_bind.
  - destruct wall; cbn [negb]; [apply translate_ret | apply translate_ITree_trigger].
  - intros []. rewrite translate_bind. apply eqit_bind.
    + rewrite mirror_while. apply while_eq_itree; apply translate_ITree_trigger.
    + intros []. apply translate_ITree_trigger.
Qed.

(** ** The steps and solve at work *)

(** A cell with walls ahead, to the right and to the left, open behind.
    The state is the number of quarter turns to the left made so far and
    the number of moves forward. *)
Definition dead_end_wall (heading : nat) : bool :=
  match (heading mod 4)%nat with
  | 2%nat => false
  | _ => true
  end.

Definition dead_end_sense (side : nat) (w : nat * nat) : (nat * nat) * bool :=
  (w, dead_end_wall (fst w + side)).

Definition dead_end_turn (quarters : nat) (w : nat * nat) : nat * nat :=
  (fst w + quarters, snd w)%nat.

Definition dead_end_move (w : nat * nat) : nat * nat := (fst w, S (snd w)).

Definition dead_end_draw (w : nat * nat) : (nat * nat) * Z := (w, 0%Z).

Lemma rightWallFollowStep_run_witness :
  face_open (dead_end_sense 0) (dead_end_turn 1) 3
            (after_wallRight (dead_end_sense 3) (dead_end_turn 3) (0, 0)%nat)
  = Some (2, 0)%nat
  /\ interp_state (world (dead_end_sense 3) (dead_end_sense 0) (dead_end_sense 1)
                          (dead_end_turn 3) (dead_end_turn 1) dead_end_move dead_end_draw)
                   rightWallFollowStep (0, 0)%nat
     ≈ Ret (dead_end_move (2, 0)%nat, tt).
Proof.
  split; [reflexivity|].
  apply (@rightWallFollowStep_run (nat * nat) (dead_end_sense 3) (dead_end_sense 0)
           (dead_end_sense 1) (dead_end_turn 3) (dead_end_turn 1) dead_end_move dead_end_draw
           3 (0, 0)%nat (2, 0)%nat).
  reflexivity.
Defined.

Lemma leftWallFollowStep_run_witness :
  face_open (dead_end_sense 0) (dead_end_turn 3) 3
            (after_wallLeft (dead_end_sense 1) (dead_end_turn 1) (0, 0)%nat)
  = Some (6, 0)%nat
  /\ interp_state (world (dead_end_sense 3) (dead_end_sense 0) (dead_end_sense 1)
                          (dead_end_turn 3) (dead_end_turn 1) dead_end_move dead_end_draw)
                   leftWallFollowStep (0, 0)%nat
     ≈ Ret (dead_end_move (6, 0)%nat, tt).
Proof.
  split; [reflexivity|].
  apply (@leftWallFollowStep_run (nat * nat) (dead_end_sense 3) (dead_end_sense 0)
           (dead_end_sense 1) (dead_end_turn 3) (dead_end_turn 1) dead_end_move dead_end_draw
           3 (0, 0)%nat (6, 0)%nat).
  reflexivity.
Defined.

(** A closed cell: a wall wherever the mouse looks. *)
Definition closed_cell_sense (w : unit) : unit * bool := (w, true).
Definition closed_cell_move (w : unit) : unit := w.
Definition closed_cell_draw (w : unit) : unit * Z := (w, 0%Z).

Lemma wallFollowStep_walled_in_witness :
  (forall w : unit, snd (closed_cell_sense w) = true)
  /\ interp_state (world closed_cell_sense closed_cell_sense closed_cell_sense
                          closed_cell_move closed_cell_move closed_cell_move closed_cell_draw)
                   rightWallFollowStep tt ≈ ITree.spin
  /\ interp_state (world closed_cell_sense closed_cell_sense closed_cell_sense
                          closed_cell_move closed_cell_move closed_cell_move closed_cell_draw)
                   leftWallFollowStep tt ≈ ITree.spin.
Proof.
  split; [intro w; reflexivity|].
  apply (@wallFollowStep_walled_in unit closed_cell_sense closed_cell_sense closed_cell_sense
           closed_cell_move closed_cell_move closed_cell_move closed_cell_draw).
  intro w. reflexivity.
Defined.

(** A run of solve: it draws 0, finds a wall on the right and none in
    front, and moves. *)
Definition first_move : @trace envE unit :=
  TEventResponse rand 0%Z
    (TEventResponse wallRight true
       (TEventResponse wallFront false
          (TEventEnd moveForward))).

Lemma solve_moves_only_when_clear_witness :
  is_trace (solve 16 16 true "n"%char) first_move
  /\ guarded false first_move /\ trace_ret first_move = None.
Proof.
  assert (H : is_trace (solve 16 16 true "n"%char) first_move).
  { unfold is_trace, first_move. cbn. repeat (constructor; cbn). }
  split; [exact H|].
  exact (@solve_moves_only_when_clear 16 16 true "n"%char first_move H).
Defined.

End WallFollow.
